(** * biostar-central: derived state of posts, votes, awards and tags

    A shallow embedding of [main/server/const.py] and of the model layer
    [main/server/models.py]: the tables of the store, the instances the
    handlers work on, the save pipelines with the signal handlers the module
    connects, and the operations built on them.

    Conventions.
    - A model instance is a record of its columns, of the related objects it
      caches and of the attributes the code sets on it that are no column.
      [save] writes the columns only.
    - The store is a record of tables.  A handler is a function from the
      world (store and clock) to an outcome: a normal return or a raised
      exception, each with the world it leaves behind.
    - Rendering, slugs, note texts and [difflib] are collaborators of the
      module; they are taken as the operations of the class [Externals].
    - Integers are unbounded, as in Python; the clock moves at each reading. *)

From Stdlib Require Import ZArith Ascii String List Lia Bool.
From stdpp Require Import base option list gmap strings.

Set Warnings "-register-all".

Local Open Scope Z_scope.
Local Open Scope string_scope.

(** ** Constants ([const.py]) *)

Definition POST_QUESTION : Z := 1.
Definition POST_ANSWER : Z := 2.
Definition POST_COMMENT : Z := 3.
Definition POST_GUIDE : Z := 4.
Definition POST_BLOG : Z := 5.
Definition POST_NEWS : Z := 6.
Definition POST_OTHER : Z := 7.

Definition NOTE_USER : Z := 1.
Definition NOTE_MODERATOR : Z := 2.
Definition NOTE_ADMIN : Z := 3.
Definition NOTE_AWARD : Z := 4.
Definition NOTE_SITE : Z := 5.

Definition POST_OPEN : Z := 100.
Definition POST_CLOSED : Z := 200.
Definition POST_DELETED : Z := 300.
Definition POST_UNANSWERED : Z := 400.
Definition POST_ACCEPTED : Z := 500.

Definition REV_NONE : Z := 1000.
Definition REV_CLOSE : Z := 1001.
Definition REV_REOPEN : Z := 1002.
Definition REV_DELETE : Z := 1003.
Definition REV_UNDELETE : Z := 1004.

Definition VOTE_UP : Z := 1.
Definition VOTE_DOWN : Z := 2.
Definition VOTE_ACCEPT : Z := 3.
Definition VOTE_FAVORITE : Z := 4.

(** mappings of mutually exclusive votes *)
Definition OPPOSING_VOTES : gmap Z Z :=
  <[VOTE_UP := VOTE_DOWN]> (<[VOTE_DOWN := VOTE_UP]> ∅).

(** post score changes *)
Definition POST_SCORE : gmap Z Z :=
  <[VOTE_UP := 1]> (<[VOTE_DOWN := -1]> (<[VOTE_FAVORITE := 2]> ∅)).

(** user reputation changes *)
Definition USER_REP : gmap Z Z :=
  <[VOTE_UP := 10]> (<[VOTE_DOWN := -2]> (<[VOTE_ACCEPT := 15]> ∅)).

(** voter reputation changes *)
Definition VOTER_REP : gmap Z Z :=
  <[VOTE_DOWN := -1]> (<[VOTE_ACCEPT := 2]> ∅).

Definition BADGE_BRONZE : Z := 0.
Definition BADGE_SILVER : Z := 1.
Definition BADGE_GOLD : Z := 2.

Definition newline : string := String "010"%char EmptyString.

(** [d.get(k, 0)] *)
Definition dict_get (d : gmap Z Z) (k : Z) : Z := default 0 (d !! k).

(** ** Rows and instances *)

Definition pk := nat.
Definition time := nat.

Inductive exn :=
| DoesNotExist
| MultipleObjectsReturned
| AttributeError
| NameError
| ValueError
| IntegrityError
| AssertionError
| RuntimeError.

(** [request.user]: a registered user or the anonymous one. *)
Inductive User :=
| AnonymousUser
| AuthUser (uid : pk).

(** A foreign key on an instance: no key, a key whose object was not
    fetched yet, or the object the instance caches (whose key is the column). *)
Inductive related (A : Type) :=
| Unset
| ById (k : pk)
| Obj (a : A).
Arguments Unset {A}.
Arguments ById {A} k.
Arguments Obj {A} a.

Module UserRow.
(** A row of [auth_user]; only the username is read here. *)
Record t := mk { id : pk; username : string }.
End UserRow.

Module UserProfile.
(** The reputation and the denormalized badge counters of a user. *)
Record t := mk {
  score : Z;
  bronze_badges : Z;
  silver_badges : Z;
  gold_badges : Z }.

Definition set_score (p : t) (s : Z) : t :=
  mk s (bronze_badges p) (silver_badges p) (gold_badges p).
Definition set_bronze_badges (p : t) (n : Z) : t :=
  mk (score p) n (silver_badges p) (gold_badges p).
Definition set_silver_badges (p : t) (n : Z) : t :=
  mk (score p) (bronze_badges p) n (gold_badges p).
Definition set_gold_badges (p : t) (n : Z) : t :=
  mk (score p) (bronze_badges p) (silver_badges p) n.
End UserProfile.

Module TagRow.
Record t := mk { name : string; count : Z }.
End TagRow.

Module Tag.
Record t := mk { id : pk; name : string; count : Z }.
Definition set_count (tg : t) (n : Z) : t := mk (id tg) (name tg) n.
Definition row (tg : t) : TagRow.t := TagRow.mk (name tg) (count tg).
End Tag.

Module PostRow.
(** The columns of a post as the table stores them. *)
Record t := mk {
  author : pk;
  content : string;
  html : string;
  title : string;
  slug : string;
  tag_val : string;
  views : Z;
  score : Z;
  creation_date : option time;
  lastedit_date : option time;
  lastedit_user : option pk;
  status : Z;
  type : Z;
  root : option pk;
  parent : option pk;
  comment_count : Z;
  answer_count : Z;
  accepted : bool;
  touch_date : option time }.
End PostRow.

Module Post.
(** A post instance: its key, its columns, the parent object it caches,
    and the two attributes [Vote.apply] sets and [set_status] reads, which
    are no columns ([None]: the attribute was never set).  A new instance
    carries the key its insert will use; [save] inserts when no row has the
    key and updates the row otherwise. *)
Inductive t := mk {
  id : pk;
  author : pk;
  content : string;
  html : string;
  title : string;
  slug : string;
  tag_val : string;
  views : Z;
  score : Z;
  creation_date : option time;
  lastedit_date : option time;
  lastedit_user : option pk;
  status : Z;
  type : Z;
  root : option pk;
  parent : related t;
  comment_count : Z;
  answer_count : Z;
  accepted : bool;
  touch_date : option time;
  post_accepted : option bool;
  answer_accepted : option bool }.

Definition set_score (p : t) (v : Z) : t :=
  mk (id p) (author p) (content p) (html p) (title p) (slug p) (tag_val p)
     (views p) v (creation_date p) (lastedit_date p) (lastedit_user p)
     (status p) (type p) (root p) (parent p) (comment_count p)
     (answer_count p) (accepted p) (touch_date p) (post_accepted p)
     (answer_accepted p).

Definition set_status_field (p : t) (v : Z) : t :=
  mk (id p) (author p) (content p) (html p) (title p) (slug p) (tag_val p)
     (views p) (score p) (creation_date p) (lastedit_date p) (lastedit_user p)
     v (type p) (root p) (parent p) (comment_count p)
     (answer_count p) (accepted p) (touch_date p) (post_accepted p)
     (answer_accepted p).

Definition set_parent (p : t) (v : related t) : t :=
  mk (id p) (author p) (content p) (html p) (title p) (slug p) (tag_val p)
     (views p) (score p) (creation_date p) (lastedit_date p) (lastedit_user p)
     (status p) (type p) (root p) v (comment_count p)
     (answer_count p) (accepted p) (touch_date p) (post_accepted p)
     (answer_accepted p).

Definition set_comment_count (p : t) (v : Z) : t :=
  mk (id p) (author p) (content p) (html p) (title p) (slug p) (tag_val p)
     (views p) (score p) (creation_date p) (lastedit_date p) (lastedit_user p)
     (status p) (type p) (root p) (parent p) v
     (answer_count p) (accepted p) (touch_date p) (post_accepted p)
     (answer_accepted p).

Definition set_answer_count (p : t) (v : Z) : t :=
  mk (id p) (author p) (content p) (html p) (title p) (slug p) (tag_val p)
     (views p) (score p) (creation_date p) (lastedit_date p) (lastedit_user p)
     (status p) (type p) (root p) (parent p) (comment_count p)
     v (accepted p) (touch_date p) (post_accepted p)
     (answer_accepted p).

Definition set_post_accepted (p : t) (v : option bool) : t :=
  mk (id p) (author p) (content p) (html p) (title p) (slug p) (tag_val p)
     (views p) (score p) (creation_date p) (lastedit_date p) (lastedit_user p)
     (status p) (type p) (root p) (parent p) (comment_count p)
     (answer_count p) (accepted p) (touch_date p) v
     (answer_accepted p).

Definition set_answer_accepted (p : t) (v : option bool) : t :=
  mk (id p) (author p) (content p) (html p) (title p) (slug p) (tag_val p)
     (views p) (score p) (creation_date p) (lastedit_date p) (lastedit_user p)
     (status p) (type p) (root p) (parent p) (comment_count p)
     (answer_count p) (accepted p) (touch_date p) (post_accepted p)
     v.

Definition parent_id (p : t) : option pk :=
  match parent p with
  | Unset => None
  | ById k => Some k
  | Obj q => Some (id q)
  end.

(** What [save] writes: the columns, the parent by its key. *)
Definition row (p : t) : PostRow.t :=
  PostRow.mk (author p) (content p) (html p) (title p) (slug p) (tag_val p)
    (views p) (score p) (creation_date p) (lastedit_date p) (lastedit_user p)
    (status p) (type p) (root p) (parent_id p) (comment_count p)
    (answer_count p) (accepted p) (touch_date p).

(** The instance a query builds from a row: no object cached, no attribute
    besides the columns. *)
Definition of_row (k : pk) (r : PostRow.t) : t :=
  mk k (PostRow.author r) (PostRow.content r) (PostRow.html r)
     (PostRow.title r) (PostRow.slug r) (PostRow.tag_val r) (PostRow.views r)
     (PostRow.score r) (PostRow.creation_date r) (PostRow.lastedit_date r)
     (PostRow.lastedit_user r) (PostRow.status r) (PostRow.type r)
     (PostRow.root r)
     (match PostRow.parent r with Some j => ById j | None => Unset end)
     (PostRow.comment_count r) (PostRow.answer_count r) (PostRow.accepted r)
     (PostRow.touch_date r) None None.

(** The length of the chain of cached parent objects. *)
Fixpoint depth (p : t) : nat :=
  match parent p with
  | Obj q => S (depth q)
  | _ => O
  end.

Definition get_title (self : t) : string :=
  if decide (status self = POST_DELETED) then title self ++ " [deleted ]"
  else if decide (status self = POST_CLOSED) then title self ++ " [closed]"
  else title self.

(** [set_status]: reading [answer_accepted] raises when the attribute was
    never set on the instance. *)
Definition set_status (self : t) : exn + t :=
  if decide (answer_count self = 0) then
    inr (set_status_field self POST_UNANSWERED)
  else
    match answer_accepted self with
    | None => inl AttributeError
    | Some true => inr (set_status_field self POST_ACCEPTED)
    | Some false => inr self
    end.

(** [combine]: the compact view the revisions are diffed on. *)
Definition combine (self : t) : string :=
"TITLE:" ++ title self ++ newline ++ content self ++ newline ++ "TAGS:" ++ tag_val self.
End Post.

Module PostRevision.
Record t := mk {
  post : pk;
  diff : string;
  content : string;
  author : pk;
  date : time }.
End PostRevision.

Module Note.
Record t := mk {
  sender : pk;
  target : pk;
  post : option pk;
  content : string;
  html : string;
  date : time;
  unread : bool;
  type : Z }.
End Note.

Module VoteRow.
Record t := mk { id : pk; author : pk; post : pk; type : Z }.
End VoteRow.

Module Vote.
(** A vote instance; [id] is [None] until the row is inserted. *)
Record t := mk { id : option pk; author : pk; post : related Post.t; type : Z }.

Definition set_post (v : t) (p : related Post.t) : t := mk (id v) (author v) p (type v).
Definition set_id (v : t) (k : option pk) : t := mk k (author v) (post v) (type v).

Definition post_id (v : t) : option pk :=
  match post v with
  | Unset => None
  | ById k => Some k
  | Obj p => Some (Post.id p)
  end.

Definition of_row (r : VoteRow.t) : t :=
  mk (Some (VoteRow.id r)) (VoteRow.author r) (ById (VoteRow.post r)) (VoteRow.type r).

Definition score (self : t) : Z := dict_get POST_SCORE (type self).
Definition reputation (self : t) : Z := dict_get USER_REP (type self).
Definition voter_reputation (self : t) : Z := dict_get VOTER_REP (type self).
End Vote.

Module Badge.
Record t := mk {
  id : pk;
  name : string;
  description : string;
  type : Z;
  unique : bool;
  secret : bool;
  count : Z }.

Definition set_count (b : t) (n : Z) : t :=
  mk (id b) (name b) (description b) (type b) (unique b) (secret b) n.
End Badge.

Module AwardRow.
Record t := mk { id : pk; badge : pk; user : pk; date : time }.
End AwardRow.

Module Award.
(** An award instance; [badge] is the badge object the award holds. *)
Record t := mk { id : option pk; badge : Badge.t; user : pk; date : option time }.
Definition set_badge (a : t) (b : Badge.t) : t := mk (id a) b (user a) (date a).
End Award.

(** ** The store and the world *)

Module DB.
Record t := mk {
  users : list UserRow.t;
  profiles : gmap pk UserProfile.t;   (* one profile per user, by user key *)
  posts : gmap pk PostRow.t;
  revisions : list PostRevision.t;    (* in insertion order *)
  notes : list Note.t;                (* in insertion order *)
  votes : list VoteRow.t;
  badges : list Badge.t;
  awards : list AwardRow.t;
  tags : gmap pk TagRow.t }.

Definition set_profiles (f : gmap pk UserProfile.t → gmap pk UserProfile.t) (d : t) : t :=
  mk (users d) (f (profiles d)) (posts d) (revisions d) (notes d) (votes d)
     (badges d) (awards d) (tags d).
Definition set_posts (f : gmap pk PostRow.t → gmap pk PostRow.t) (d : t) : t :=
  mk (users d) (profiles d) (f (posts d)) (revisions d) (notes d) (votes d)
     (badges d) (awards d) (tags d).
Definition set_revisions (f : list PostRevision.t → list PostRevision.t) (d : t) : t :=
  mk (users d) (profiles d) (posts d) (f (revisions d)) (notes d) (votes d)
     (badges d) (awards d) (tags d).
Definition set_notes (f : list Note.t → list Note.t) (d : t) : t :=
  mk (users d) (profiles d) (posts d) (revisions d) (f (notes d)) (votes d)
     (badges d) (awards d) (tags d).
Definition set_votes (f : list VoteRow.t → list VoteRow.t) (d : t) : t :=
  mk (users d) (profiles d) (posts d) (revisions d) (notes d) (f (votes d))
     (badges d) (awards d) (tags d).
Definition set_badges (f : list Badge.t → list Badge.t) (d : t) : t :=
  mk (users d) (profiles d) (posts d) (revisions d) (notes d) (votes d)
     (f (badges d)) (awards d) (tags d).
Definition set_awards (f : list AwardRow.t → list AwardRow.t) (d : t) : t :=
  mk (users d) (profiles d) (posts d) (revisions d) (notes d) (votes d)
     (badges d) (f (awards d)) (tags d).
Definition set_tags (f : gmap pk TagRow.t → gmap pk TagRow.t) (d : t) : t :=
  mk (users d) (profiles d) (posts d) (revisions d) (notes d) (votes d)
     (badges d) (awards d) (f (tags d)).

Definition empty : t := mk [] ∅ ∅ [] [] [] [] [] ∅.
End DB.

(** The store together with the clock [datetime.now()] reads. *)
Record World := mkWorld { db : DB.t; clock : time }.

(** ** Handlers: state and exceptions *)

Inductive outcome (A : Type) :=
| Ok (a : A) (w : World)
| Raise (e : exn) (w : World).
Arguments Ok {A} a w.
Arguments Raise {A} e w.

Definition M (A : Type) : Type := World → outcome A.

Definition ret {A} (a : A) : M A := fun w => Ok a w.
Definition raise {A} (e : exn) : M A := fun w => Raise e w.
Definition bind {A B} (m : M A) (k : A → M B) : M B :=
  fun w => match m w with
           | Ok a w' => k a w'
           | Raise e w' => Raise e w'
           end.

Notation "x <- m ;; k" := (bind m (fun x => k))
  (at level 100, m at next level, right associativity).

(** The world a handler leaves behind, however it ends. *)
Definition final {A} (o : outcome A) : World :=
  match o with Ok _ w => w | Raise _ w => w end.

Definition gets {A} (f : DB.t → A) : M A := fun w => Ok (f (db w)) w.
Definition modify (f : DB.t → DB.t) : M unit :=
  fun w => Ok tt (mkWorld (f (db w)) (clock w)).

(** [datetime.now()]: a reading of the clock; two readings never agree. *)
Definition now : M time := fun w => Ok (clock w) (mkWorld (db w) (S (clock w))).

(** A result of a method that raises without touching the store. *)
Definition lift {A} (r : exn + A) : M A :=
  match r with inl e => raise e | inr a => ret a end.

(** [@transaction.commit_on_success]: what the function wrote is committed
    when it returns and rolled back when it raises.  A decorated call inside
    another one is part of the outer one. *)
Definition commit_on_success {A} (f : M A) : M A :=
  fun w => match f w with
           | Ok a w' => Ok a w'
           | Raise e w' => Raise e (mkWorld (db w) (clock w'))
           end.

(** [queryset.get()] on the rows a filter selected. *)
Definition get_one {A} (rows : list A) : M A :=
  match rows with
  | [] => raise DoesNotExist
  | [r] => ret r
  | _ :: _ :: _ => raise MultipleObjectsReturned
  end.

(** The key an insert gives its row: one past the largest key in use. *)
Definition fresh_pk (ids : list pk) : pk := S (foldr Nat.max O ids).

(** ** Collaborators *)

Class Externals := {
  (** [html.generate]: markup to sanitized HTML *)
  html_generate : string → string;
  (** [django.template.defaultfilters.slugify] *)
  slugify : string → string;
  (** the text [%s] gives for the method object [instance.get_type_display] *)
  get_type_display_text : Post.t → string;
  (** [notegen.post_moderator_action(user, post, action)] *)
  post_moderator_action : pk → Post.t → Z → string;
  (** [notegen.post_action(user, post)] *)
  post_action : pk → Post.t → string;
  (** [notegen.badgenote(badge)] *)
  badgenote : Badge.t → string;
  (** [difflib.unified_diff(a, b)], as the list of its lines *)
  unified_diff : list string → list string → list string;
  (** [str.splitlines(1)]: the lines with their ends kept *)
  splitlines : string → list string }.

(** ** The handlers of [models.py] *)

Section Handlers.
Context `{Externals}.

(** [instance.parent]: the cached object, or the row of the key fetched
    now.  The access leaves the object cached on the instance. *)
Definition fetch_post (k : pk) : M Post.t :=
  r <- gets (fun d => DB.posts d !! k) ;;
  match r with
  | Some r => ret (Post.of_row k r)
  | None => raise DoesNotExist
  end.

Definition Post_parent (self : Post.t) : M (option Post.t) :=
  match Post.parent self with
  | Unset => ret None
  | ById k => q <- fetch_post k ;; ret (Some q)
  | Obj q => ret (Some q)
  end.

(** [user.get_profile()] and [prof.save()].  The profile is read from the
    store at every call.  The pre-save hook [update_profile] sets an
    attribute that is no column. *)
Definition get_profile (user : pk) : M UserProfile.t :=
  r <- gets (fun d => DB.profiles d !! user) ;;
  match r with
  | Some p => ret p
  | None => raise DoesNotExist
  end.

Definition UserProfile_save (user : pk) (prof : UserProfile.t) : M unit :=
  modify (DB.set_profiles (insert user prof)).

(** *** Notes *)

(** [create_note], the pre-save hook of a note ([send_note] has set the
    date already). *)
Definition create_note (instance : Note.t) : Note.t :=
  Note.mk (Note.sender instance) (Note.target instance) (Note.post instance)
    (Note.content instance) (html_generate (Note.content instance))
    (Note.date instance) (Note.unread instance) (Note.type instance).

Definition Note_create (instance : Note.t) : M unit :=
  modify (DB.set_notes (fun l => (l ++ [create_note instance])%list)).

Definition send_note (sender target : pk) (content : string) (type : Z)
    (unread : bool) (date : option time) : M unit :=
  date <- match date with Some d => ret d | None => now end ;;
  Note_create (Note.mk sender target None content "" date unread type).

(** *** Revisions *)

(** [PostRevision.objects.filter(post=post).order_by('-date')[:1]]: the row
    of the post with the latest date (the earliest inserted one of them). *)
Definition later_revision (k : pk) (best : option PostRevision.t)
    (r : PostRevision.t) : option PostRevision.t :=
  if decide (PostRevision.post r = k) then
    match best with
    | None => Some r
    | Some b => if decide (PostRevision.date b < PostRevision.date r)%nat
                then Some r else Some b
    end
  else best.

Definition last_revision (k : pk) (revs : list PostRevision.t) : option PostRevision.t :=
  fold_left (later_revision k) revs None.

Definition prev_content (k : pk) (revs : list PostRevision.t) : string :=
  match last_revision k revs with
  | Some r => PostRevision.content r
  | None => ""
  end.

(** [PostRevision.objects.create]: the [date] column is [auto_now], so the
    row is dated by the clock whatever date is passed. *)
Definition PostRevision_create (diff content : string) (author post : pk)
    (date : option time) : M unit :=
  t <- now ;;
  modify (DB.set_revisions (fun l => (l ++ [PostRevision.mk post diff content author t])%list)).

Definition create_revision (post : Post.t) : M unit :=
  commit_on_success (
    last <- gets (fun d => last_revision (Post.id post) (DB.revisions d)) ;;
    let content := Post.combine post in
    author <- match Post.lastedit_user post with
              | Some u => ret u
              | None => raise DoesNotExist
              end ;;
    let date := Post.lastedit_date post in
    let prev := match last with
                | Some r => PostRevision.content r
                | None => ""
                end in
    if decide (content ≠ prev) then
      let diff := String.concat "" (unified_diff (splitlines prev) (splitlines content)) in
      PostRevision_create diff content author (Post.id post) date
    else ret tt).

(** *** Posts: the save pipeline *)

(** [post_create_notification]: the loop body names [self], which the
    function does not bind: its first round raises. *)
Definition post_create_notification (post : Post.t) : M unit :=
  commit_on_success (
    match Post.root post with
    | Some _ =>
        children <- gets (fun d =>
          filter (fun kr => PostRow.root kr.2 = Some (Post.id post))
                 (map_to_list (DB.posts d))) ;;
        let authors := remove_dups ((fun kr => PostRow.author kr.2) <$> children) in
        let text := post_action (Post.author post) post in
        match authors with
        | [] => ret tt
        | _ :: _ => raise NameError
        end
    | None => ret tt
    end).

(** [finalize_post], post-save hook of a post *)
Definition finalize_post (instance : Post.t) (created : bool) : M unit :=
  _ <- (if created then post_create_notification instance else ret tt) ;;
  if decide (Post.type instance = POST_QUESTION ∨ Post.type instance = POST_ANSWER)
  then create_revision instance
  else ret tt.

(** The title step of [verify_post]: a post without a title takes one from
    its parent, which the access leaves cached. *)
Definition settle_title (instance : Post.t) : M (related Post.t * string) :=
  if decide (Post.title instance = "") then
    q <- Post_parent instance ;;
    match q with
    | Some q => ret (Obj q, get_type_display_text instance ++ ": " ++ Post.title q)
    | None => ret (Post.parent instance, Post.title instance)
    end
  else ret (Post.parent instance, Post.title instance).

(** [verify_post], pre-save hook of a post *)
Definition verify_post (instance : Post.t) : M Post.t :=
  let lastedit_user := match Post.lastedit_user instance with
                       | Some u => Some u
                       | None => Some (Post.author instance)
                       end in
  creation_date <- match Post.creation_date instance with
                   | Some t => ret (Some t)
                   | None => t <- now ;; ret (Some t)
                   end ;;
  lastedit_date <- match Post.lastedit_date instance with
                   | Some t => ret (Some t)
                   | None => t <- now ;; ret (Some t)
                   end ;;
  let root := match Post.root instance with
              | Some r => Some r
              | None => Some (Post.id instance)
              end in
  pt <- settle_title instance ;;
  touch_date <- now ;;
  ret (Post.mk (Post.id instance) (Post.author instance) (Post.content instance)
         (html_generate (Post.content instance)) pt.2 (slugify pt.2)
         (Post.tag_val instance) (Post.views instance) (Post.score instance)
         creation_date lastedit_date lastedit_user (Post.status instance)
         (Post.type instance) root pt.1 (Post.comment_count instance)
         (Post.answer_count instance) (Post.accepted instance) (Some touch_date)
         (Post.post_accepted instance) (Post.answer_accepted instance)).

(** [Post.apply], over the [save] it calls on the parent. *)
Definition Post_apply_with (save : Post.t → M Post.t) (self : Post.t) (dir : Z) : M Post.t :=
  q <- Post_parent self ;;
  match q with
  | Some q =>
      (* is_answer *)
      q <- (if decide (Post.type self = POST_ANSWER) then
              save (Post.set_answer_count q (Post.answer_count q + dir))
            else ret q) ;;
      (* is_comment *)
      q <- (if decide (Post.type self = POST_COMMENT) then
              save (Post.set_comment_count q (Post.comment_count q + dir))
            else ret q) ;;
      ret (Post.set_parent self (Obj q))
  | None => ret self
  end.

(** [post.save()]: the pre-save hook, the write, and the post-save hooks in
    the order the module connects them ([apply_instance], [finalize_post];
    the search index is outside the store).  [created] tells an insert from
    an update.  The save of the parent inside [Post.apply] runs the same
    pipeline one object up the chain of parents. *)
Fixpoint Post_save_rec (n : nat) (self : Post.t) : M Post.t :=
  match n with
  | O => raise RuntimeError
  | S n =>
      self <- verify_post self ;;
      created <- gets (fun d => bool_decide (DB.posts d !! Post.id self = None)) ;;
      _ <- modify (DB.set_posts (insert (Post.id self) (Post.row self))) ;;
      self <- (if created : bool then Post_apply_with (Post_save_rec n) self 1
               else ret self) ;;
      _ <- finalize_post self created ;;
      ret self
  end.

(** A parent that is fetched exists, so its save is an update and goes no
    further up; only cached objects can be new.  The bound on the nesting is
    never met ([Post_save_in_fuel]). *)
Definition Post_save (self : Post.t) : M Post.t :=
  Post_save_rec (S (S (Post.depth self))) self.

Definition Post_apply (self : Post.t) (dir : Z) : M Post.t :=
  Post_apply_with Post_save self dir.

(** [moderator_action]: the status the action asks for, the save, and the
    note to the author.  The post object comes back as the call leaves it. *)
Definition moderator_action (post : Post.t) (user : pk) (action : Z) : M Post.t :=
  commit_on_success (
    post <- (if decide (action = REV_CLOSE) then
               ret (Post.set_status_field post POST_CLOSED)
             else if decide (action = REV_DELETE) then
               ret (Post.set_status_field post POST_DELETED)
             else lift (Post.set_status post)) ;;
    post <- Post_save post ;;
    let text := post_moderator_action user post action in
    _ <- send_note user (Post.author post) text NOTE_MODERATOR true None ;;
    ret post).

(** *** Votes *)

(** [self.post] on a vote *)
Definition Vote_post (self : Vote.t) : M Post.t :=
  match Vote.post self with
  | Unset => raise DoesNotExist
  | ById k => fetch_post k
  | Obj p => ret p
  end.

(** [Vote.apply] *)
Definition Vote_apply (self : Vote.t) (dir : Z) : M Vote.t :=
  self <- (if decide (Vote.reputation self ≠ 0) then
             post <- Vote_post self ;;
             prof <- get_profile (Post.author post) ;;
             _ <- UserProfile_save (Post.author post)
                    (UserProfile.set_score prof
                       (UserProfile.score prof + dir * Vote.reputation self)) ;;
             ret (Vote.set_post self (Obj post))
           else ret self) ;;
  _ <- (if decide (Vote.voter_reputation self ≠ 0) then
          prof <- get_profile (Vote.author self) ;;
          UserProfile_save (Vote.author self)
            (UserProfile.set_score prof
               (UserProfile.score prof + dir * Vote.voter_reputation self))
        else ret tt) ;;
  self <- (if decide (Vote.score self ≠ 0) then
             post <- Vote_post self ;;
             post <- Post_save (Post.set_score post (Post.score post + dir * Vote.score self)) ;;
             ret (Vote.set_post self (Obj post))
           else ret self) ;;
  if decide (Vote.type self = VOTE_ACCEPT) then
    answer <- Vote_post self ;;
    question <- Post_parent answer ;;
    let flag := bool_decide (dir = 1) in
    let answer := Post.set_post_accepted answer (Some flag) in
    match question with
    | Some question =>
        let question := Post.set_answer_accepted question (Some flag) in
        answer <- Post_save (Post.set_parent answer (Obj question)) ;;
        (* question.save() is commented out *)
        ret (Vote.set_post self (Obj answer))
    | None => raise AttributeError
    end
  else ret self.

(** [vote.save()]: the write, then [apply_instance] when the row is new. *)
Definition Vote_save (self : Vote.t) : M Vote.t :=
  post <- match Vote.post_id self with
          | Some k => ret k
          | None => raise IntegrityError
          end ;;
  rows <- gets DB.votes ;;
  let k := match Vote.id self with
           | Some k => k
           | None => fresh_pk (VoteRow.id <$> rows)
           end in
  let created := bool_decide (k ∉ VoteRow.id <$> rows) in
  _ <- modify (DB.set_votes (fun l =>
         (filter (fun r => VoteRow.id r ≠ k) l
            ++ [VoteRow.mk k (Vote.author self) post (Vote.type self)])%list)) ;;
  let self := Vote.set_id self (Some k) in
  if created then Vote_apply self 1 else ret self.

(** [vote.delete()]: the row goes, then [unapply_instance]. *)
Definition Vote_delete (self : Vote.t) : M Vote.t :=
  match Vote.id self with
  | Some k =>
      _ <- modify (DB.set_votes (filter (fun r => VoteRow.id r ≠ k))) ;;
      Vote_apply self (-1)
  | None => raise AssertionError
  end.

(** [Post.get_vote]: nothing for the anonymous user, the one vote of the
    user and the type otherwise, nothing when there is none. *)
Definition get_vote (self : Post.t) (user : User) (vote_type : Z) : M (option Vote.t) :=
  match user with
  | AnonymousUser => ret None
  | AuthUser u =>
      rows <- gets (fun d =>
        filter (fun r => VoteRow.post r = Post.id self ∧ VoteRow.author r = u
                         ∧ VoteRow.type r = vote_type) (DB.votes d)) ;;
      match rows with
      | [] => ret None
      | [r] => ret (Some (Vote.of_row r))
      | _ :: _ :: _ => raise MultipleObjectsReturned
      end
  end.

(** [Post.add_vote] *)
Definition add_vote (self : Post.t) (user : User) (vote_type : Z) : M Vote.t :=
  match user with
  | AnonymousUser => raise ValueError
  | AuthUser u => Vote_save (Vote.mk None u (Obj self) vote_type)
  end.

(** [Post.remove_vote] *)
Definition remove_vote (self : Post.t) (user : User) (vote_type : Z) : M bool :=
  vote <- get_vote self user vote_type ;;
  match vote with
  | Some vote => _ <- Vote_delete vote ;; ret true
  | None => ret false
  end.

(** *** Badges and awards *)

Definition Badge_save (b : Badge.t) : M unit :=
  modify (DB.set_badges (fun l =>
    if bool_decide (Badge.id b ∈ Badge.id <$> l) then
      (fun r => if decide (Badge.id r = Badge.id b) then b else r) <$> l
    else (l ++ [b])%list)).

(** [Award.apply] *)
Definition Award_apply (self : Award.t) (dir : Z) : M Award.t :=
  let type := Badge.type (Award.badge self) in
  prof <- get_profile (Award.user self) ;;
  let prof := if decide (type = BADGE_BRONZE)
              then UserProfile.set_bronze_badges prof (UserProfile.bronze_badges prof + dir)
              else prof in
  let prof := if decide (type = BADGE_SILVER)
              then UserProfile.set_silver_badges prof (UserProfile.silver_badges prof + dir)
              else prof in
  let prof := if decide (type = BADGE_GOLD)
              then UserProfile.set_gold_badges prof (UserProfile.gold_badges prof + dir)
              else prof in
  _ <- UserProfile_save (Award.user self) prof ;;
  let badge := Badge.set_count (Award.badge self) (Badge.count (Award.badge self) + dir) in
  _ <- Badge_save badge ;;
  ret (Award.set_badge self badge).

(** [Award.objects.create(badge=, user=)]: the pre-save hook [create_award]
    dates the award, the row is inserted, [apply_instance] applies it. *)
Definition Award_create (badge : Badge.t) (user : pk) : M Award.t :=
  date <- now ;;
  rows <- gets DB.awards ;;
  let k := fresh_pk (AwardRow.id <$> rows) in
  _ <- modify (DB.set_awards (fun l => (l ++ [AwardRow.mk k (Badge.id badge) user date])%list)) ;;
  Award_apply (Award.mk (Some k) badge user (Some date)) 1.

(** [apply_award]; [request] and [messages] are read only after the call
    of [Note.send], a name the class [Note] does not have. *)
Definition apply_award (user : pk) (badge_name : string) : M unit :=
  bs <- gets (fun d => filter (fun b => Badge.name b = badge_name) (DB.badges d)) ;;
  badge <- get_one bs ;;
  award <- gets (fun d =>
    filter (fun a => AwardRow.badge a = Badge.id badge ∧ AwardRow.user a = user)
           (DB.awards d)) ;;
  if bool_decide (award ≠ []) && Badge.unique badge then
    (* this badge has already been awarded *)
    ret tt
  else
    us <- gets (fun d => filter (fun u => UserRow.username u = "community") (DB.users d)) ;;
    community <- get_one us ;;
    award <- Award_create badge user ;;
    let text := badgenote (Award.badge award) in
    raise AttributeError.

(** *** Tags *)

Definition Tag_write (instance : Tag.t) : M bool :=
  created <- gets (fun d => bool_decide (DB.tags d !! Tag.id instance = None)) ;;
  _ <- modify (DB.set_tags (insert (Tag.id instance) (Tag.row instance))) ;;
  ret created.

(** [tag_created], post-save hook of a tag; it is disconnected around the
    save it does itself. *)
Definition tag_created (instance : Tag.t) (created : bool) : M Tag.t :=
  if created && bool_decide (Tag.count instance ≠ 0) then
    let instance := Tag.set_count instance 0 in
    _ <- Tag_write instance ;;
    ret instance
  else ret instance.

(** [tag.save()] *)
Definition Tag_save (instance : Tag.t) : M Tag.t :=
  created <- Tag_write instance ;;
  tag_created instance created.

End Handlers.

(** ** Vocabulary of the statements *)

Local Open Scope list_scope.

(** The handler returns normally from [w], with a result and a world that
    satisfy [Q]. *)
Definition returns {A} (m : M A) (w : World) (Q : A → World → Prop) : Prop :=
  ∃ a w', m w = Ok a w' ∧ Q a w'.

(** The handler leaves the projection [f] of the store as it found it,
    however it ends. *)
Definition preserves {A B} (f : DB.t → B) (m : M A) : Prop :=
  ∀ w, f (db (final (m w))) = f (db w).

(** The handler does not run out of the nesting [Post_save_rec] allows. *)
Definition in_fuel {A} (m : M A) (w : World) : Prop :=
  ∀ w', m w ≠ Raise RuntimeError w'.

(** The stored score of a post and the stored reputation of a user. *)
Definition stored_score (w : World) (k : pk) : option Z :=
  PostRow.score <$> DB.posts (db w) !! k.

Definition reputation_of (w : World) (u : pk) : option Z :=
  UserProfile.score <$> DB.profiles (db w) !! u.

(** The parent of the instance can be reached: it is cached, absent, or its
    row is stored. *)
Definition parent_ok (self : Post.t) (w : World) : Prop :=
  match Post.parent self with
  | ById k => is_Some (DB.posts (db w) !! k)
  | _ => True
  end.

(** The instance [verify_post] leaves, given the dates, the parent object
    and the title it settles on. *)
Definition verified_as (self : Post.t) `{Externals} (cd ld : option time)
    (par : related Post.t) (ttl : string) (td : time) : Post.t :=
  Post.mk (Post.id self) (Post.author self) (Post.content self)
    (html_generate (Post.content self)) ttl (slugify ttl)
    (Post.tag_val self) (Post.views self) (Post.score self) cd ld
    (match Post.lastedit_user self with
     | Some u => Some u
     | None => Some (Post.author self)
     end)
    (Post.status self) (Post.type self)
    (match Post.root self with
     | Some r => Some r
     | None => Some (Post.id self)
     end) par
    (Post.comment_count self) (Post.answer_count self) (Post.accepted self)
    (Some td) (Post.post_accepted self) (Post.answer_accepted self).

(** [self'] is [self] after [verify_post]: the columns the hook owns may
    have moved, the parent may have been fetched. *)
Definition verified `{Externals} (self self' : Post.t) : Prop :=
  ∃ cd ld par ttl td,
    self' = verified_as self cd ld par ttl td
    ∧ (Post.title self ≠ "" → ttl = Post.title self)
    ∧ (par = Post.parent self
       ∨ ∃ k r, Post.parent self = ById k ∧ par = Obj (Post.of_row k r)).

(** [post] is the object [self.post] gives on the vote in the store [d]. *)
Definition reaches (v : Vote.t) (post : Post.t) (d : DB.t) : Prop :=
  match Vote.post v with
  | Unset => False
  | ById k => ∃ r, DB.posts d !! k = Some r ∧ post = Post.of_row k r
  | Obj p => p = post
  end.

(** The vote can be applied in [w]: its post is stored and its parent can
    be reached, the author of the post and the voter have their profiles,
    and an accept is on a post with a parent. *)
Definition applicable (v : Vote.t) (post : Post.t) (w : World) : Prop :=
  reaches v post (db w)
  ∧ is_Some (DB.posts (db w) !! Post.id post)
  ∧ parent_ok post w
  ∧ is_Some (DB.profiles (db w) !! Post.author post)
  ∧ is_Some (DB.profiles (db w) !! Vote.author v)
  ∧ (Vote.type v = VOTE_ACCEPT → Post.parent post ≠ Unset).

(** What [Vote.apply] with direction [dir] has done when it returns [v']
    holding the post object [post'] in the world [w']. *)
Definition applied (v : Vote.t) (post : Post.t) (dir : Z) (w : World)
    (v' : Vote.t) (post' : Post.t) (w' : World) : Prop :=
  Vote.type v' = Vote.type v ∧ Vote.author v' = Vote.author v
  ∧ Post.id post' = Post.id post ∧ Post.author post' = Post.author post
  ∧ Post.accepted post' = Post.accepted post
  ∧ Post.score post' = Post.score post + dir * Vote.score v
  ∧ (∀ k, k ≠ Post.id post → DB.posts (db w') !! k = DB.posts (db w) !! k)
  ∧ (Vote.score v ≠ 0 ∨ Vote.type v = VOTE_ACCEPT →
     DB.posts (db w') !! Post.id post = Some (Post.row post'))
  ∧ (Vote.score v = 0 → Vote.type v ≠ VOTE_ACCEPT →
     DB.posts (db w') = DB.posts (db w))
  ∧ (∀ u, reputation_of w' u =
          (fun s => s
             + (if decide (u = Post.author post) then dir * Vote.reputation v else 0)
             + (if decide (u = Vote.author v) then dir * Vote.voter_reputation v else 0))
          <$> reputation_of w u)
  ∧ DB.votes (db w') = DB.votes (db w)
  ∧ (Vote.type v = VOTE_ACCEPT →
     Post.post_accepted post' = Some (bool_decide (dir = 1))
     ∧ ∃ q, Post.parent post' = Obj q
            ∧ Post.answer_accepted q = Some (bool_decide (dir = 1))).

(** What a block of [Vote.apply] that works on the post keeps: the vote
    still reaches a stored post of the same key, author, accepted column and
    parent key; the other rows, the profiles and the votes are untouched. *)
Definition post_kept (v : Vote.t) (post : Post.t) (w : World)
    (v' : Vote.t) (post' : Post.t) (w' : World) : Prop :=
  Vote.type v' = Vote.type v ∧ Vote.author v' = Vote.author v
  ∧ reaches v' post' (db w')
  ∧ is_Some (DB.posts (db w') !! Post.id post')
  ∧ parent_ok post' w'
  ∧ Post.id post' = Post.id post ∧ Post.author post' = Post.author post
  ∧ Post.accepted post' = Post.accepted post
  ∧ Post.parent_id post' = Post.parent_id post
  ∧ (∀ k, k ≠ Post.id post → DB.posts (db w') !! k = DB.posts (db w) !! k)
  ∧ DB.profiles (db w') = DB.profiles (db w)
  ∧ DB.votes (db w') = DB.votes (db w).

(** The user holds a vote of type [t] on the post. *)
Definition holds (d : DB.t) (u post : pk) (t : Z) : Prop :=
  ∃ r, r ∈ DB.votes d ∧ VoteRow.author r = u ∧ VoteRow.post r = post
       ∧ VoteRow.type r = t.

(** No user holds two votes of opposing types on one post. *)
Definition no_opposing (d : DB.t) : Prop :=
  ∀ u post t t', OPPOSING_VOTES !! t = Some t' →
    holds d u post t → holds d u post t' → False.

(** The reputation a user has after [delta] went to [user]. *)
Definition credited (user : pk) (delta : Z) (u : pk) (s : Z) : Z :=
  s + (if decide (u = user) then delta else 0).

(** The store after the revision step of a save that found the row in
    place, run at clock [t] on the store [d]. *)
Definition revised `{Externals} (self : Post.t) (u : pk) (t : time) (d : DB.t) : DB.t :=
  if decide (Post.type self = POST_QUESTION ∨ Post.type self = POST_ANSWER) then
    let prev := prev_content (Post.id self) (DB.revisions d) in
    if decide (Post.combine self ≠ prev) then
      DB.set_revisions (fun l => l ++
        [PostRevision.mk (Post.id self)
           (String.concat "" (unified_diff (splitlines prev)
                                (splitlines (Post.combine self))))
           (Post.combine self) u t]) d
    else d
  else d.

(** The store after the save of [self'], an instance whose row was in
    place: the row is written, the revision step has run. *)
Definition saved `{Externals} (self' : Post.t) (d d' : DB.t) : Prop :=
  ∃ u t, Post.lastedit_user self' = Some u
    ∧ d' = revised self' u t (DB.set_posts (insert (Post.id self') (Post.row self')) d).

(** ** A small site

    A question of user 10 with one answer by user 11 and a comment by user
    12, the three profiles, and plain collaborators.  The statements below
    are run on it. *)

Definition plain : Externals := {|
  html_generate := fun s => s;
  slugify := fun s => s;
  get_type_display_text := fun _ => "get_type_display";
  post_moderator_action := fun _ _ _ => "moderator action";
  post_action := fun _ _ => "post action";
  badgenote := fun _ => "badge";
  unified_diff := fun a b => a ++ b;
  splitlines := fun s => [s] |}.

Definition question0 : Post.t :=
  Post.mk 1%nat 10%nat "How?" "How?" "Q" "Q" "rocq" 0 0 (Some 1%nat) (Some 1%nat)
    (Some 10%nat) POST_OPEN POST_QUESTION (Some 1%nat) Unset 0 1 false
    (Some 1%nat) None None.

Definition answer0 : Post.t :=
  Post.mk 2%nat 11%nat "So." "So." "A" "A" "" 0 0 (Some 2%nat) (Some 2%nat)
    (Some 11%nat) POST_OPEN POST_ANSWER (Some 1%nat) (ById 1%nat) 0 0 false
    (Some 2%nat) None None.

Definition comment0 : Post.t :=
  Post.mk 3%nat 12%nat "Nice." "Nice." "C" "C" "" 0 0 (Some 3%nat) (Some 3%nat)
    (Some 12%nat) POST_OPEN POST_COMMENT (Some 1%nat) (ById 2%nat) 0 0 false
    (Some 3%nat) None None.

Definition profile0 : UserProfile.t := UserProfile.mk 0 0 0 0.

Definition teacher : Badge.t :=
  Badge.mk 1%nat "Teacher" "Answered a question" BADGE_BRONZE true false 1.

Definition db0 : DB.t :=
  DB.mk [UserRow.mk 1%nat "community"; UserRow.mk 10%nat "ann"; UserRow.mk 11%nat "bob"]
    (<[10%nat := profile0]> (<[11%nat := profile0]> (<[12%nat := profile0]> ∅)))
    (<[1%nat := Post.row question0]>
       (<[2%nat := Post.row answer0]> (<[3%nat := Post.row comment0]> ∅)))
    [] [] [] [teacher] [AwardRow.mk 1%nat 1%nat 11%nat 4%nat] ∅.

Definition world0 : World := mkWorld db0 5%nat.

(** The question as a moderator holds it after it was closed: one answer,
    none accepted. *)
Definition closed_question0 : Post.t :=
  Post.set_answer_accepted (Post.set_status_field question0 POST_CLOSED) (Some false).


(** Votes of user 10 on the answer. *)
Definition downvote0 : Vote.t := Vote.mk None 10%nat (Obj answer0) VOTE_DOWN.
Definition accept0 : Vote.t := Vote.mk None 10%nat (Obj answer0) VOTE_ACCEPT.

(** The world after user 10 has upvoted the answer. *)
Definition upvoted0 : World :=
  final (add_vote (H:=plain) answer0 (AuthUser 10%nat) VOTE_UP world0).


(** ** More of [models.py] *)

(** User types ([const.py]) *)
Definition USER_NORMAL : Z := 1.
Definition USER_MODERATOR : Z := 2.
Definition USER_ADMIN : Z := 3.
Definition USER_SPECIAL : Z := 4.

(** *** Tag counts *)

(** [Tag.objects.get(pk=pk)] *)
Definition Tag_get (k : pk) : M Tag.t :=
  r <- gets (fun d => DB.tags d !! k) ;;
  match r with
  | Some r => ret (Tag.mk k (TagRow.name r) (TagRow.count r))
  | None => raise DoesNotExist
  end.

(** [for x in l: body(x)] *)
Fixpoint for_each {A} (l : list A) (body : A → M unit) : M unit :=
  match l with
  | [] => ret tt
  | a :: l => _ <- body a ;; for_each l body
  end.

(** [tag.count += delta; tag.save()] *)
Definition Tag_bump (delta : Z) (tag : Tag.t) : M unit :=
  _ <- Tag_save (Tag.set_count tag (Tag.count tag + delta)) ;;
  ret tt.

(** [tags_changed], the handler of changes of the tag set of a post.
    [tag_set] holds the keys [instance.tag_set.all()] gives, [pk_set] the
    keys of the signal in the order the loop meets them. *)
Definition tags_changed (tag_set : list pk) (action : string) (pk_set : list pk) : M unit :=
  _ <- (if decide (action = "post_add") then
          for_each pk_set (fun k => tag <- Tag_get k ;; Tag_bump 1 tag)
        else ret tt) ;;
  _ <- (if decide (action = "post_delete") then
          for_each pk_set (fun k => tag <- Tag_get k ;; Tag_bump (-1) tag)
        else ret tt) ;;
  if decide (action = "pre_clear") then
    tags <- gets (fun d =>
      omap (fun k => (fun r => Tag.mk k (TagRow.name r) (TagRow.count r))
                       <$> DB.tags d !! k) tag_set) ;;
    for_each tags (Tag_bump (-1))
  else ret tt.

(** *** Write access *)

Module Account.
(** What the authorization reads of a user: the key, the type of the
    profile, and the two attributes the function sets and reads, which are
    no columns ([None]: never set). *)
Record t := mk {
  id : pk;
  type : Z;
  writable : option bool;
  writeable : option bool }.

Definition set_writable (a : t) (v : bool) : t :=
  mk (id a) (type a) (Some v) (writeable a).
Definition set_writeable (a : t) (v : bool) : t :=
  mk (id a) (type a) (writable a) (Some v).

Definition is_moderator (a : t) : bool := bool_decide (type a = USER_MODERATOR).
Definition is_admin (a : t) : bool := bool_decide (type a = USER_ADMIN).
Definition has_moderator_role (a : t) : bool := is_moderator a || is_admin a.
End Account.

(** How an authorization ends when it does not return. *)
Inductive auth_error :=
| NoAttribute        (* AttributeError *)
| AccessDenied.      (* Exception('... write access denied') *)

(** [user_write_auth]: the target as the call leaves it, and the answer. *)
Definition user_write_auth (target user : Account.t) (strict : bool)
    : auth_error + (Account.t * bool) :=
  let target :=
    if Account.is_admin target then Account.set_writable target false
    else if Account.is_admin user then Account.set_writeable target true
    else if Account.is_moderator target then Account.set_writable target false
    else if Account.is_moderator user then Account.set_writable target true
    else if decide (Account.id target = Account.id user) then
      Account.set_writable target true
    else Account.set_writeable target false in
  match Account.writeable target with
  | None => inl NoAttribute
  | Some ok =>
      if strict && negb ok then inl AccessDenied
      else inr (target, ok)
  end.

Module Writable.
(** What the authorization reads of a post: the author, and the two
    attributes the function sets and reads, which are no columns. *)
Record t := mk {
  author : pk;
  writable : option bool;
  writeable : option bool }.

Definition set_writable (p : t) (v : bool) : t :=
  mk (author p) (Some v) (writeable p).
End Writable.

(** [post_write_auth]: the post as the call leaves it, and the answer. *)
Definition post_write_auth (user : Account.t) (post : Writable.t) (strict : bool)
    : auth_error + (Writable.t * bool) :=
  let post := Writable.set_writable post
                (bool_decide (Writable.author post = Account.id user)
                 || Account.has_moderator_role user) in
  match Writable.writeable post with
  | None => inl NoAttribute
  | Some ok =>
      if strict && negb ok then inl AccessDenied
      else inr (post, ok)
  end.

(** *** Notes of a user *)

(** [UserProfile.is_active]: [suspended] is no column of the profile
    ([None]: the attribute was never set); [minimum] is
    [settings.MINIMUM_REPUTATION]. *)
Definition is_active (suspended : option bool) (type score minimum : Z) : exn + bool :=
  match suspended with
  | None => inl AttributeError
  | Some true => inr false
  | Some false =>
      if bool_decide (type = USER_MODERATOR) || bool_decide (minimum ≤ score)%Z
      then inr true
      else inr true
  end.

(** [UserProfile.note_count]: the notes to the user, and the unread ones. *)
Definition note_count (user : pk) (d : DB.t) : nat * nat :=
  (length (filter (fun n => Note.target n = user) (DB.notes d)),
   length (filter (fun n => Note.target n = user ∧ Note.unread n = true) (DB.notes d))).

(** *** More vocabulary *)

(** The handler only appends to the list [f] of the store, however it
    ends. *)
Definition appends {A B} (f : DB.t → list B) (m : M A) : Prop :=
  ∀ w, f (db w) `prefix_of` f (db (final (m w))).

(** What [verify_post] has settled when it returns [self'] from [self] in
    the store [d]: both dates are set and kept when they were set, a title
    is kept, a missing one comes from the parent, which is then cached. *)
Definition settled `{Externals} (self : Post.t) (d : DB.t) (self' : Post.t) : Prop :=
  ∃ cd ld par ttl td,
    self' = verified_as self cd ld par ttl td
    ∧ is_Some cd ∧ is_Some ld
    ∧ (∀ x, Post.creation_date self = Some x → cd = Some x)
    ∧ (∀ x, Post.lastedit_date self = Some x → ld = Some x)
    ∧ (Post.title self ≠ "" → ttl = Post.title self ∧ par = Post.parent self)
    ∧ (Post.parent self = Unset → ttl = Post.title self)
    ∧ (ttl = "" → par = Unset)
    ∧ (par = Post.parent self
       ∨ ∃ k r, Post.parent self = ById k ∧ DB.posts d !! k = Some r
                ∧ par = Obj (Post.of_row k r)).

(** The world [w'] after the save of an instance whose row was in place
    left [self']: the row is written and the revision step has run at the
    clock [t]. *)
Definition stored_save `{Externals} (self : Post.t) (w : World)
    (self' : Post.t) (w' : World) : Prop :=
  settled self (db w) self'
  ∧ ∃ u t, Post.lastedit_user self' = Some u
      ∧ (clock w < t)%nat ∧ (t ≤ clock w')%nat
      ∧ db w' = revised self' u t
                  (DB.set_posts (insert (Post.id self) (Post.row self')) (db w))
      ∧ (DB.revisions (db w') ≠ DB.revisions (db w) → (t < clock w')%nat).

(** [q] is the object [self.parent] gives in the store [d]: the one cached,
    or the one built from the row of the parent key. *)
Definition parent_is (self q : Post.t) (d : DB.t) : Prop :=
  Post.parent self = Obj q
  ∨ ∃ k r, Post.parent self = ById k ∧ DB.posts d !! k = Some r
           ∧ q = Post.of_row k r.

(** What [Post.apply] with direction [dir] adds to the answer count and to
    the comment count of the parent of a post of type [t]. *)
Definition answer_delta (t dir : Z) : Z :=
  if decide (t = POST_ANSWER) then dir else 0.
Definition comment_delta (t dir : Z) : Z :=
  if decide (t = POST_COMMENT) then dir else 0.

(** What [Award.apply] with direction [dir] adds to the counter of the
    badges of type [t] for an award of a badge of type [b]. *)
Definition medal (b t dir : Z) : Z := if decide (b = t) then dir else 0.

(** The profile after [Award.apply] with direction [dir] for a badge of
    type [b]. *)
Definition decorated (b dir : Z) (p : UserProfile.t) : UserProfile.t :=
  UserProfile.mk (UserProfile.score p)
    (UserProfile.bronze_badges p + medal b BADGE_BRONZE dir)
    (UserProfile.silver_badges p + medal b BADGE_SILVER dir)
    (UserProfile.gold_badges p + medal b BADGE_GOLD dir).

(** What [tags_changed] adds to the count of the tag [k]. *)
Definition tag_delta (tag_set : list pk) (action : string) (pk_set : list pk)
    (k : pk) : Z :=
  if decide (action = "post_add"%string ∧ k ∈ pk_set) then 1
  else if decide (action = "post_delete"%string ∧ k ∈ pk_set) then -1
  else if decide (action = "pre_clear"%string ∧ k ∈ tag_set) then -1
  else 0.

(** The row of a tag with [n] added to its count. *)
Definition bumped (n : Z) (r : TagRow.t) : TagRow.t :=
  TagRow.mk (TagRow.name r) (TagRow.count r + n).

(** The string holds no line feed. *)
Fixpoint newline_free (s : string) : bool :=
  match s with
  | EmptyString => true
  | String c s => negb (Ascii.eqb c "010"%char) && newline_free s
  end.

(** *** More of the small site *)

(** An answer user 12 is about to post under the question. *)
Definition new_answer0 : Post.t :=
  Post.mk 8%nat 12%nat "Thus." "" "" "" "" 0 0 None None
    (Some 12%nat) POST_OPEN POST_ANSWER (Some 1%nat) (ById 1%nat) 0 0 false
    None None None.

(** The question and the answer as a query gives them. *)
Definition stored_question0 : Post.t := Post.of_row 1%nat (Post.row question0).
Definition stored_answer0 : Post.t := Post.of_row 2%nat (Post.row answer0).

(** The site with two tags. *)
Definition tagged0 : World :=
  mkWorld (DB.set_tags (fun _ => <[1%nat := TagRow.mk "rocq" 3]>
                                   (<[2%nat := TagRow.mk "stdpp" 1]> ∅)) db0)
          5%nat.

(** The award user 11 holds. *)
Definition award0 : Award.t := Award.mk (Some 1%nat) teacher 11%nat (Some 4%nat).

(** A moderator and a regular user. *)
Definition moderator0 : Account.t := Account.mk 2%nat USER_MODERATOR None None.
Definition member0 : Account.t := Account.mk 10%nat USER_NORMAL None None.

(** ** Reasoning about handlers *)

Section Toolkit.
Context {A B : Type}.

Lemma bind_Ok (m : M A) (k : A → M B) w a w' :
  m w = Ok a w' → bind m k w = k a w'.
Proof. intros E. unfold bind. by rewrite E. Qed.

Lemma bind_Raise (m : M A) (k : A → M B) w e w' :
  m w = Raise e w' → bind m k w = Raise e w'.
Proof. intros E. unfold bind. by rewrite E. Qed.

Lemma returns_bind (m : M A) (k : A → M B) w Q :
  returns m w (fun a w' => returns (k a) w' Q) → returns (bind m k) w Q.
Proof.
  intros (a & w' & E & b & w'' & E' & HQ).
  exists b, w''. split; [|done]. by rewrite (bind_Ok _ _ _ _ _ E).
Qed.

Lemma returns_ret (a : A) w (Q : A → World → Prop) : Q a w → returns (ret a) w Q.
Proof. intros HQ. by exists a, w. Qed.

Lemma returns_gets (f : DB.t → A) w (Q : A → World → Prop) :
  Q (f (db w)) w → returns (gets f) w Q.
Proof. intros HQ. by eexists _, _. Qed.

Lemma returns_mono (m : M A) w (P Q : A → World → Prop) :
  returns m w P → (∀ a w', P a w' → Q a w') → returns m w Q.
Proof. intros (a & w' & E & HP) HPQ. exists a, w'. auto. Qed.

Lemma returns_commit (m : M A) w Q :
  returns m w Q → returns (commit_on_success m) w Q.
Proof.
  intros (a & w' & E & HQ). exists a, w'. split; [|done].
  unfold commit_on_success. by rewrite E.
Qed.

Lemma preserves_bind (f : DB.t → B) {C} (m : M A) (k : A → M C) :
  preserves f m → (∀ a, preserves f (k a)) → preserves f (bind m k).
Proof.
  intros Hm Hk w. unfold bind. specialize (Hm w).
  destruct (m w) as [a w'|e w']; simpl in *; [|done].
  by rewrite Hk.
Qed.

Lemma preserves_ret (f : DB.t → B) (a : A) : preserves f (ret a).
Proof. done. Qed.

Lemma preserves_raise (f : DB.t → B) e : preserves f (raise (A:=A) e).
Proof. done. Qed.

Lemma preserves_gets (f : DB.t → B) (g : DB.t → A) : preserves f (gets g).
Proof. done. Qed.

Lemma preserves_commit (f : DB.t → B) (m : M A) :
  preserves f m → preserves f (commit_on_success m).
Proof.
  intros Hm w. unfold commit_on_success. specialize (Hm w).
  by destruct (m w).
Qed.

Lemma bind_Ok_inv (m : M A) (k : A → M B) w b w'' :
  bind m k w = Ok b w'' → ∃ a w', m w = Ok a w' ∧ k a w' = Ok b w''.
Proof. unfold bind. destruct (m w) as [a w'|e w']; [eauto|done]. Qed.

Lemma in_fuel_bind (m : M A) (k : A → M B) w :
  in_fuel m w → (∀ a w', m w = Ok a w' → in_fuel (k a) w') →
  in_fuel (bind m k) w.
Proof.
  intros Hm Hk w'. unfold bind. destruct (m w) as [a w1|e w1] eqn:E.
  - by apply Hk.
  - intros [= He Hw]. subst. by apply (Hm w').
Qed.

Lemma in_fuel_ret (a : A) w : in_fuel (ret a) w.
Proof. by intros w'. Qed.

Lemma in_fuel_gets (f : DB.t → A) w : in_fuel (gets f) w.
Proof. by intros w'. Qed.

Lemma in_fuel_commit (m : M A) w : in_fuel m w → in_fuel (commit_on_success m) w.
Proof.
  intros Hm w'. unfold commit_on_success.
  destruct (m w) as [a w1|e w1] eqn:E; [done|].
  intros [= He _]. subst. by apply (Hm w1).
Qed.


End Toolkit.

Lemma returns_modify (f : DB.t → DB.t) w (Q : unit → World → Prop) :
  Q tt (mkWorld (f (db w)) (clock w)) → returns (modify f) w Q.
Proof. intros HQ. by eexists _, _. Qed.

Lemma returns_now w (Q : time → World → Prop) :
  Q (clock w) (mkWorld (db w) (S (clock w))) → returns now w Q.
Proof. intros HQ. by eexists _, _. Qed.

Lemma preserves_now {B} (f : DB.t → B) : preserves f now.
Proof. done. Qed.

Lemma preserves_modify {B} (f : DB.t → B) (g : DB.t → DB.t) :
  (∀ d, f (g d) = f d) → preserves f (modify g).
Proof. intros Hg w. simpl. apply Hg. Qed.

Lemma preserves_get_one {A B} (f : DB.t → B) (l : list A) : preserves f (get_one l).
Proof. by destruct l as [|? [|? ?]]. Qed.

Lemma preserves_lift {A B} (f : DB.t → B) (r : exn + A) : preserves f (lift r).
Proof. by destruct r. Qed.

Ltac mstep :=
  first [ apply returns_bind
        | apply returns_commit
        | apply returns_gets
        | apply returns_modify
        | apply returns_now
        | apply returns_ret ].

Ltac frame_with tac :=
  repeat first
    [ progress intros
    | tac
    | apply preserves_bind
    | apply preserves_commit
    | apply preserves_ret
    | apply preserves_raise
    | apply preserves_gets
    | apply preserves_now
    | apply preserves_get_one
    | apply preserves_lift
    | (apply preserves_modify; intros; reflexivity)
    | case_decide
    | case_match ].

Ltac frame := frame_with fail.

Lemma in_fuel_raise {A} e w : e ≠ RuntimeError → in_fuel (raise (A:=A) e) w.
Proof. intros He w'. by intros [= ->]. Qed.

Lemma in_fuel_modify f w : in_fuel (modify f) w.
Proof. by intros w'. Qed.

Lemma in_fuel_now w : in_fuel now w.
Proof. by intros w'. Qed.

Ltac fuel_with tac :=
  repeat first
    [ progress intros
    | tac
    | apply in_fuel_bind
    | apply in_fuel_commit
    | apply in_fuel_ret
    | apply in_fuel_gets
    | apply in_fuel_now
    | apply in_fuel_modify
    | (apply in_fuel_raise; discriminate)
    | case_decide
    | case_match ].

(** ** The save pipeline of a stored post *)

Section Pipeline.
Context `{Externals}.

Lemma verified_fields self self' :
  verified self self' →
  Post.id self' = Post.id self ∧ Post.author self' = Post.author self
  ∧ Post.score self' = Post.score self ∧ Post.status self' = Post.status self
  ∧ Post.type self' = Post.type self ∧ Post.accepted self' = Post.accepted self
  ∧ Post.content self' = Post.content self ∧ Post.tag_val self' = Post.tag_val self
  ∧ Post.post_accepted self' = Post.post_accepted self
  ∧ Post.answer_accepted self' = Post.answer_accepted self
  ∧ Post.parent_id self' = Post.parent_id self
  ∧ is_Some (Post.lastedit_user self')
  ∧ (Post.title self ≠ "" → Post.title self' = Post.title self)
  ∧ (∀ q, Post.parent self = Obj q → Post.parent self' = Obj q)
  ∧ (Post.parent self = Unset → Post.parent self' = Unset).
Proof.
  intros (cd & ld & par & ttl & td & -> & Httl & Hpar).
  do 10 (split; [reflexivity|]).
  split; [|split; [|split; [|split]]]; simpl.
  - unfold Post.parent_id. simpl.
    destruct Hpar as [->|(k & r & -> & ->)]; done.
  - destruct (Post.lastedit_user self); eauto.
  - done.
  - intros q Hq. destruct Hpar as [->|(k & r & E & ->)]; congruence.
  - intros Hq. destruct Hpar as [->|(k & r & E & ->)]; congruence.
Qed.

Lemma settle_title_returns self w :
  parent_ok self w →
  returns (settle_title self) w (fun pt w' =>
    w' = w
    ∧ (Post.title self ≠ "" → pt.2 = Post.title self)
    ∧ (pt.1 = Post.parent self
       ∨ ∃ k r, Post.parent self = ById k ∧ pt.1 = Obj (Post.of_row k r))).
Proof.
  intros Hp. unfold settle_title.
  destruct (decide (Post.title self = "")) as [Ht|Ht].
  - unfold Post_parent, parent_ok in *.
    destruct (Post.parent self) as [|k|q] eqn:Ep.
    + repeat mstep. simpl. auto.
    + destruct Hp as [r Hr]. unfold fetch_post. repeat mstep.
      rewrite Hr. repeat mstep. simpl. split; [done|]. split; [done|].
      right. eauto.
    + repeat mstep. simpl. split; [done|]. split; [done|]. by left.
  - mstep. simpl. auto.
Qed.

Lemma verify_post_returns self w :
  parent_ok self w →
  returns (verify_post self) w (fun self' w' =>
    verified self self' ∧ db w' = db w ∧ parent_ok self' w').
Proof.
  intros Hp. unfold verify_post.
  assert (Hstep : ∀ w1, db w1 = db w →
    returns (settle_title self) w1 (fun pt w' =>
      db w' = db w
      ∧ (Post.title self ≠ "" → pt.2 = Post.title self)
      ∧ (pt.1 = Post.parent self
         ∨ ∃ k r, Post.parent self = ById k ∧ pt.1 = Obj (Post.of_row k r)))).
  { intros w1 E. eapply returns_mono.
    - apply settle_title_returns. unfold parent_ok in *. by rewrite E.
    - intros pt w' (-> & ? & ?). auto. }
  assert (Hfin : ∀ cd ld, ∀ w1, db w1 = db w →
    returns (pt <- settle_title self ;; touch_date <- now ;;
             ret (verified_as self cd ld pt.1 pt.2 touch_date)) w1
      (fun self' w' => verified self self' ∧ db w' = db w ∧ parent_ok self' w')).
  { intros cd ld w1 E. mstep. eapply returns_mono; [by apply Hstep|].
    intros [par ttl] w' (E' & Httl & Hpar). simpl in *. repeat mstep. simpl.
    split; [by eexists cd, ld, par, ttl, _|]. split; [done|].
    unfold parent_ok in *. simpl. rewrite E'.
    destruct Hpar as [->|(k & r & _ & ->)]; done. }
  apply returns_bind.
  destruct (Post.creation_date self) as [cd|];
    [ apply returns_ret
    | apply returns_bind, returns_now, returns_ret ];
    (apply returns_bind;
     destruct (Post.lastedit_date self) as [ld|];
     [ apply returns_ret
     | apply returns_bind, returns_now, returns_ret ]);
    by apply Hfin.
Qed.

(** *** Revisions *)

Lemma last_revision_app k l r :
  last_revision k (l ++ [r]) = later_revision k (last_revision k l) r.
Proof. unfold last_revision. by rewrite fold_left_app. Qed.

Lemma fold_later_Some k l acc b :
  fold_left (later_revision k) l acc = Some b →
  acc = Some b ∨ (b ∈ l ∧ PostRevision.post b = k).
Proof.
  revert acc. induction l as [|r l IH]; intros acc E; simpl in *; [by left|].
  apply IH in E as [E|[Hin Hk]].
  - unfold later_revision in E.
    destruct (decide (PostRevision.post r = k)) as [Hr|Hr]; [|by left].
    destruct acc as [b0|].
    + destruct (decide (PostRevision.date b0 < PostRevision.date r)%nat).
      * injection E as <-. right. split; [left|done].
      * by left.
    + injection E as <-. right. split; [left|done].
  - right. split; [by right|done].
Qed.

Lemma last_revision_Some k l b :
  last_revision k l = Some b → b ∈ l ∧ PostRevision.post b = k.
Proof. intros E. by apply fold_later_Some in E as [?|?]. Qed.

(** A row dated after every stored revision of the post is its last one. *)
Lemma last_revision_new k l r :
  (∀ b, b ∈ l → PostRevision.post b = k →
        (PostRevision.date b < PostRevision.date r)%nat) →
  PostRevision.post r = k →
  last_revision k (l ++ [r]) = Some r.
Proof.
  intros Hlt Hr. rewrite last_revision_app. unfold later_revision.
  rewrite decide_True by done.
  destruct (last_revision k l) as [b|] eqn:E; [|done].
  apply last_revision_Some in E as [Hin Hb].
  by rewrite decide_True by auto.
Qed.

(** [create_revision] returns for a post with an editor; it appends one row,
    dated by the clock, exactly when the snapshot differs from the content
    of the last revision. *)
Lemma create_revision_eq post u w :
  Post.lastedit_user post = Some u →
  create_revision post w =
    let prev := prev_content (Post.id post) (DB.revisions (db w)) in
    if decide (Post.combine post ≠ prev) then
      Ok tt (mkWorld
        (DB.set_revisions (fun l => l ++
           [PostRevision.mk (Post.id post)
              (String.concat "" (unified_diff (splitlines prev)
                                   (splitlines (Post.combine post))))
              (Post.combine post) u (clock w)]) (db w))
        (S (clock w)))
    else Ok tt w.
Proof.
  intros Hu. unfold create_revision, commit_on_success, bind, gets, prev_content.
  rewrite Hu. simpl.
  destruct (last_revision (Post.id post) (DB.revisions (db w))) as [r|];
    case_decide; done.
Qed.

Lemma create_revision_returns post u w (Q : unit → World → Prop) :
  Post.lastedit_user post = Some u →
  (let prev := prev_content (Post.id post) (DB.revisions (db w)) in
   if decide (Post.combine post ≠ prev) then
     Q tt (mkWorld
        (DB.set_revisions (fun l => l ++
           [PostRevision.mk (Post.id post)
              (String.concat "" (unified_diff (splitlines prev)
                                   (splitlines (Post.combine post))))
              (Post.combine post) u (clock w)]) (db w))
        (S (clock w)))
   else Q tt w) →
  returns (create_revision post) w Q.
Proof.
  intros Hu HQ. unfold returns. rewrite (create_revision_eq _ u) by done.
  simpl in *. case_decide; eauto.
Qed.

(** *** The save of a stored post *)

Lemma Post_save_rec_S n self :
  Post_save_rec (S n) self =
    (self <- verify_post self ;;
     created <- gets (fun d => bool_decide (DB.posts d !! Post.id self = None)) ;;
     _ <- modify (DB.set_posts (insert (Post.id self) (Post.row self))) ;;
     self <- (if created : bool then Post_apply_with (Post_save_rec n) self 1
              else ret self) ;;
     _ <- finalize_post self created ;;
     ret self).
Proof. reflexivity. Qed.

Lemma revised_frame self u t d :
  DB.users (revised self u t d) = DB.users d
  ∧ DB.profiles (revised self u t d) = DB.profiles d
  ∧ DB.posts (revised self u t d) = DB.posts d
  ∧ DB.notes (revised self u t d) = DB.notes d
  ∧ DB.votes (revised self u t d) = DB.votes d
  ∧ DB.badges (revised self u t d) = DB.badges d
  ∧ DB.awards (revised self u t d) = DB.awards d
  ∧ DB.tags (revised self u t d) = DB.tags d.
Proof. unfold revised. repeat case_decide; done. Qed.

Lemma saved_frame self' d d' :
  saved self' d d' →
  DB.posts d' = <[Post.id self' := Post.row self']> (DB.posts d)
  ∧ DB.users d' = DB.users d
  ∧ DB.profiles d' = DB.profiles d
  ∧ DB.notes d' = DB.notes d
  ∧ DB.votes d' = DB.votes d
  ∧ DB.badges d' = DB.badges d
  ∧ DB.awards d' = DB.awards d
  ∧ DB.tags d' = DB.tags d.
Proof.
  intros (u & t & _ & ->).
  destruct (revised_frame self' u t
              (DB.set_posts (insert (Post.id self') (Post.row self')) d))
    as (-> & -> & -> & -> & -> & -> & -> & ->).
  done.
Qed.

(** The save of an instance whose row is stored and whose parent can be
    reached returns: the hook has run on the instance, the row is written
    and the revision step has run. *)
Lemma Post_save_stored self w (Q : Post.t → World → Prop) :
  is_Some (DB.posts (db w) !! Post.id self) →
  parent_ok self w →
  (∀ self' w', verified self self' → saved self' (db w) (db w') →
               parent_ok self' w' → Q self' w') →
  returns (Post_save self) w Q.
Proof.
  intros [r Hr] Hp HQ. unfold Post_save. rewrite Post_save_rec_S.
  apply returns_bind. eapply returns_mono; [by apply verify_post_returns|].
  intros self' w1 (Hv & E1 & Hp1). simpl.
  destruct (verified_fields _ _ Hv)
    as (Hid & _ & _ & _ & _ & _ & _ & _ & _ & _ & _ & [u Hu] & _).
  apply returns_bind, returns_gets. rewrite E1, Hid, Hr.
  rewrite bool_decide_false by done.
  apply returns_bind, returns_modify.
  apply returns_bind, returns_ret.
  unfold finalize_post.
  apply returns_bind. apply returns_bind, returns_ret.
  set (w2 := mkWorld _ _).
  assert (Hp2 : ∀ w3, DB.posts (db w3) = DB.posts (db w2) → parent_ok self' w3).
  { intros w3 E3. unfold parent_ok in *. rewrite E3. subst w2. simpl.
    destruct (Post.parent self') as [|k|q]; [done| |done].
    destruct (decide (Post.id self = k)) as [->|Hk].
    - rewrite lookup_insert_eq. eauto.
    - by rewrite lookup_insert_ne. }
  case_decide as Ht.
  - apply (create_revision_returns _ u); [done|]. simpl.
    case_decide as Hc; apply returns_ret; (apply HQ; [done| |by apply Hp2]);
      exists u, (clock w1); (split; [done|]); unfold revised;
      rewrite decide_True by done; subst w2; simpl in *;
      rewrite <- Hid; rewrite E1 in Hc |- *.
    + by rewrite decide_True by done.
    + rewrite decide_False; [done|]. by intros ?.
  - apply returns_ret, returns_ret. apply HQ; [done| |by apply Hp2].
    exists u, (clock w1). split; [done|]. unfold revised.
    rewrite decide_False by done. subst w2. simpl. by rewrite <- Hid, E1.
Qed.

(** *** Applying a vote *)

Lemma Vote_post_reaches v post w :
  reaches v post (db w) → Vote_post v w = Ok post w.
Proof.
  unfold reaches, Vote_post. destruct (Vote.post v) as [|k|p]; [done| |].
  - intros (r & Hr & ->). unfold fetch_post, bind, gets. by rewrite Hr.
  - by intros ->.
Qed.

Lemma reaches_posts v post d d' :
  DB.posts d' = DB.posts d → reaches v post d → reaches v post d'.
Proof. unfold reaches. by intros ->. Qed.

Lemma parent_ok_posts self w w' :
  DB.posts (db w') = DB.posts (db w) → parent_ok self w → parent_ok self w'.
Proof. unfold parent_ok. by intros ->. Qed.

Lemma returns_Vote_post v post w (Q : Post.t → World → Prop) :
  reaches v post (db w) → Q post w → returns (Vote_post v) w Q.
Proof. intros Hr HQ. exists post, w. split; [by apply Vote_post_reaches|done]. Qed.

Lemma returns_get_profile user w (Q : UserProfile.t → World → Prop) :
  (∀ p, DB.profiles (db w) !! user = Some p → Q p w) →
  is_Some (DB.profiles (db w) !! user) →
  returns (get_profile user) w Q.
Proof.
  intros HQ [p Hp]. exists p, w. split; [|by apply HQ].
  unfold get_profile, bind, gets. by rewrite Hp.
Qed.

Lemma reputation_insert w user p delta u :
  DB.profiles (db w) !! user = Some p →
  UserProfile.score <$>
    (<[user := UserProfile.set_score p (UserProfile.score p + delta)]>
       (DB.profiles (db w)) !! u)
  = credited user delta u <$> reputation_of w u.
Proof.
  intros Hp. unfold reputation_of, credited.
  destruct (decide (u = user)) as [->|Hu].
  - rewrite lookup_insert_eq, Hp. done.
  - rewrite lookup_insert_ne by done.
    destruct (DB.profiles (db w) !! u); simpl; [|done]. f_equal. lia.
Qed.

Lemma credited_0 user u (o : option Z) : credited user 0 u <$> o = o.
Proof.
  destruct o; [|done]. unfold credited. simpl. f_equal.
  case_decide; lia.
Qed.

Lemma reputation_is_Some w u :
  is_Some (reputation_of w u) ↔ is_Some (DB.profiles (db w) !! u).
Proof. unfold reputation_of. apply fmap_is_Some. Qed.

Lemma parent_id_Unset self : Post.parent_id self = None ↔ Post.parent self = Unset.
Proof. unfold Post.parent_id. by destruct (Post.parent self). Qed.

(** The author's share: the first block of [Vote.apply]. *)
Lemma Vote_apply_author v post dir w :
  reaches v post (db w) →
  is_Some (DB.profiles (db w) !! Post.author post) →
  returns
    (if decide (Vote.reputation v ≠ 0) then
       post <- Vote_post v ;;
       prof <- get_profile (Post.author post) ;;
       _ <- UserProfile_save (Post.author post)
              (UserProfile.set_score prof
                 (UserProfile.score prof + dir * Vote.reputation v)) ;;
       ret (Vote.set_post v (Obj post))
     else ret v) w
    (fun v1 w1 =>
       Vote.type v1 = Vote.type v ∧ Vote.author v1 = Vote.author v
       ∧ reaches v1 post (db w1)
       ∧ DB.posts (db w1) = DB.posts (db w)
       ∧ DB.votes (db w1) = DB.votes (db w)
       ∧ ∀ u, reputation_of w1 u =
              credited (Post.author post) (dir * Vote.reputation v) u
                <$> reputation_of w u).
Proof.
  intros Hr Hp. case_decide as Hz.
  - apply returns_bind, (returns_Vote_post _ post); [done|].
    apply returns_bind, returns_get_profile; [|done]. intros p Ep.
    apply returns_bind, returns_modify, returns_ret. simpl.
    do 5 (split; [done|]). intros u. by apply reputation_insert.
  - apply returns_ret. do 5 (split; [done|]). intros u.
    rewrite Hz, Z.mul_0_r. by rewrite credited_0.
Qed.

(** The voter's share: the second block of [Vote.apply]. *)
Lemma Vote_apply_voter v dir w :
  is_Some (DB.profiles (db w) !! Vote.author v) →
  returns
    (if decide (Vote.voter_reputation v ≠ 0) then
       prof <- get_profile (Vote.author v) ;;
       UserProfile_save (Vote.author v)
         (UserProfile.set_score prof
            (UserProfile.score prof + dir * Vote.voter_reputation v))
     else ret tt) w
    (fun _ w1 =>
       DB.posts (db w1) = DB.posts (db w)
       ∧ DB.votes (db w1) = DB.votes (db w)
       ∧ ∀ u, reputation_of w1 u =
              credited (Vote.author v) (dir * Vote.voter_reputation v) u
                <$> reputation_of w u).
Proof.
  intros Hp. case_decide as Hz.
  - apply returns_bind, returns_get_profile; [|done]. intros p Ep.
    apply returns_modify. simpl.
    do 2 (split; [done|]). intros u. by apply reputation_insert.
  - apply returns_ret. do 2 (split; [done|]). intros u.
    rewrite Hz, Z.mul_0_r. by rewrite credited_0.
Qed.

Lemma post_kept_refl v post w :
  reaches v post (db w) → is_Some (DB.posts (db w) !! Post.id post) →
  parent_ok post w → post_kept v post w v post w.
Proof. intros. repeat split; done. Qed.

(** The save [Vote.apply] does on the post object, after a change [f] of
    attributes that are not among those [post_kept] names. *)
Lemma Vote_apply_save v post w (f : Post.t → Post.t) (Q : Post.t → World → Prop) :
  is_Some (DB.posts (db w) !! Post.id post) →
  parent_ok (f post) w →
  Post.id (f post) = Post.id post → Post.author (f post) = Post.author post →
  Post.accepted (f post) = Post.accepted post →
  Post.parent_id (f post) = Post.parent_id post →
  (∀ post' w', verified (f post) post' →
     DB.posts (db w') !! Post.id post = Some (Post.row post') →
     post_kept v post w (Vote.set_post v (Obj post')) post' w' → Q post' w') →
  returns (Post_save (f post)) w Q.
Proof.
  intros Hs Hp Hid Hau Hacc Hpar HQ.
  apply Post_save_stored; [by rewrite Hid|done|].
  intros post' w' Hv Hsaved Hp'.
  destruct (verified_fields _ _ Hv)
    as (Hid' & Hau' & _ & _ & _ & Hacc' & _ & _ & _ & _ & Hpar' & _).
  destruct (saved_frame _ _ _ Hsaved) as (Eposts & _ & Eprof & _ & Evotes & _).
  assert (Hrow : DB.posts (db w') !! Post.id post = Some (Post.row post')).
  { rewrite Eposts, Hid', Hid. apply lookup_insert_eq. }
  apply HQ; [done|done|].
  unfold post_kept. simpl. split_and!; try congruence.
  - rewrite Hid', Hid, Hrow. eauto.
  - intros k Hk. rewrite Eposts, Hid', Hid. by rewrite lookup_insert_ne.
Qed.

(** The score: the third block of [Vote.apply]. *)
Lemma Vote_apply_score v post dir w :
  reaches v post (db w) →
  is_Some (DB.posts (db w) !! Post.id post) →
  parent_ok post w →
  returns
    (if decide (Vote.score v ≠ 0) then
       post <- Vote_post v ;;
       post <- Post_save (Post.set_score post (Post.score post + dir * Vote.score v)) ;;
       ret (Vote.set_post v (Obj post))
     else ret v) w
    (fun v' w' => ∃ post',
       post_kept v post w v' post' w'
       ∧ Post.score post' = Post.score post + dir * Vote.score v
       ∧ (Vote.score v ≠ 0 →
          DB.posts (db w') !! Post.id post = Some (Post.row post'))
       ∧ (Vote.score v = 0 → DB.posts (db w') = DB.posts (db w))).
Proof.
  intros Hr Hs Hp. case_decide as Hz.
  - apply returns_bind, (returns_Vote_post _ post); [done|].
    apply returns_bind.
    apply (Vote_apply_save v post w
             (fun p => Post.set_score p (Post.score p + dir * Vote.score v)));
      try done.
    intros post' w' Hv Hrow Hk. apply returns_ret. exists post'.
    destruct (verified_fields _ _ Hv) as (_ & _ & Hsc & _).
    split_and!; done.
  - apply returns_ret. exists post. split; [by apply post_kept_refl|].
    rewrite Hz. split_and!; [lia|done|done].
Qed.

(** The accept flags: the last block of [Vote.apply]. *)
Lemma Vote_apply_accept v post dir w :
  reaches v post (db w) →
  is_Some (DB.posts (db w) !! Post.id post) →
  parent_ok post w →
  (Vote.type v = VOTE_ACCEPT → Post.parent post ≠ Unset) →
  returns
    (if decide (Vote.type v = VOTE_ACCEPT) then
       answer <- Vote_post v ;;
       question <- Post_parent answer ;;
       let flag := bool_decide (dir = 1) in
       let answer := Post.set_post_accepted answer (Some flag) in
       match question with
       | Some question =>
           let question := Post.set_answer_accepted question (Some flag) in
           answer <- Post_save (Post.set_parent answer (Obj question)) ;;
           ret (Vote.set_post v (Obj answer))
       | None => raise AttributeError
       end
     else ret v) w
    (fun v' w' => ∃ post',
       post_kept v post w v' post' w'
       ∧ Post.score post' = Post.score post
       ∧ (Vote.type v = VOTE_ACCEPT →
          DB.posts (db w') !! Post.id post = Some (Post.row post')
          ∧ Post.post_accepted post' = Some (bool_decide (dir = 1))
          ∧ ∃ q, Post.parent post' = Obj q
                 ∧ Post.answer_accepted q = Some (bool_decide (dir = 1)))
       ∧ (Vote.type v ≠ VOTE_ACCEPT →
          DB.posts (db w') = DB.posts (db w) ∧ post' = post)).
Proof.
  intros Hr Hs Hp Hpar. case_decide as Ht.
  - specialize (Hpar Ht).
    apply returns_bind, (returns_Vote_post _ post); [done|].
    assert (∃ q, Post_parent post w = Ok (Some q) w
                 ∧ Post.parent_id post = Some (Post.id q)) as (q & Eq & Hqid).
    { unfold Post_parent, parent_ok, Post.parent_id in *.
      destruct (Post.parent post) as [|k|q]; [done| |by exists q].
      destruct Hp as [r Er]. exists (Post.of_row k r). split; [|done].
      unfold fetch_post, bind, gets. by rewrite Er. }
    apply returns_bind. exists (Some q), w. split; [done|]. simpl.
    apply returns_bind.
    apply (Vote_apply_save v post w
             (fun p => Post.set_parent
                         (Post.set_post_accepted p (Some (bool_decide (dir = 1))))
                         (Obj (Post.set_answer_accepted q
                                 (Some (bool_decide (dir = 1)))))));
      try done.
    intros post' w' Hv Hrow Hk. apply returns_ret. exists post'.
    destruct (verified_fields _ _ Hv)
      as (_ & _ & Hsc & _ & _ & _ & _ & _ & Hpa & _ & _ & _ & _ & Hobj & _).
    split_and!; try done.
    intros _. split_and!; [done|done|].
    eexists. split; [by apply Hobj|done].
  - apply returns_ret. exists post. split; [by apply post_kept_refl|].
    split_and!; done.
Qed.

(** [Vote.apply] on an applicable vote returns, and has done what
    [applied] tells; the vote it leaves is applicable again. *)
Lemma Vote_apply_spec v post dir w :
  applicable v post w →
  returns (Vote_apply v dir) w (fun v' w' => ∃ post',
    applicable v' post' w' ∧ applied v post dir w v' post' w').
Proof.
  intros (Hr & Hs & Hp & Hpa & Hpv & Hacc). unfold Vote_apply.
  apply returns_bind.
  eapply returns_mono; [by apply (Vote_apply_author v post dir w)|].
  intros v1 w1 (Ht1 & Ha1 & Hr1 & Ep1 & Ev1 & Hrep1). simpl.
  apply returns_bind.
  eapply returns_mono.
  { apply (Vote_apply_voter v1 dir w1). rewrite Ha1.
    apply reputation_is_Some. rewrite Hrep1. apply fmap_is_Some.
    by apply reputation_is_Some. }
  intros [] w2 (Ep2 & Ev2 & Hrep2). simpl.
  assert (Es1 : Vote.score v1 = Vote.score v) by (unfold Vote.score; congruence).
  apply returns_bind.
  eapply returns_mono.
  { apply (Vote_apply_score v1 post dir w2).
    - eapply reaches_posts; [|done]. done.
    - by rewrite Ep2, Ep1.
    - eapply parent_ok_posts; [|done]. congruence. }
  intros v3 w3 (post3 & Hk3 & Hsc3 & Hrow3 & Hsame3). simpl.
  destruct Hk3 as (Ht3 & Ha3 & Hr3 & Hs3 & Hp3 & Hid3 & Hau3 & Hacc3 & Hpid3
                   & Hoth3 & Eprof3 & Ev3).
  eapply returns_mono.
  { apply (Vote_apply_accept v3 post3 dir w3); try done.
    intros Ht. rewrite <- parent_id_Unset. rewrite Hpid3.
    rewrite parent_id_Unset. apply Hacc. congruence. }
  intros v4 w4 (post4 & Hk4 & Hsc4 & Hrow4 & Hsame4). simpl.
  destruct Hk4 as (Ht4 & Ha4 & Hr4 & Hs4 & Hp4 & Hid4 & Hau4 & Hacc4 & Hpid4
                   & Hoth4 & Eprof4 & Ev4).
  assert (Hrep : ∀ u, reputation_of w4 u =
          (fun s => s
             + (if decide (u = Post.author post) then dir * Vote.reputation v else 0)
             + (if decide (u = Vote.author v) then dir * Vote.voter_reputation v else 0))
          <$> reputation_of w u).
  { intros u. unfold reputation_of at 1. rewrite Eprof4, Eprof3.
    fold (reputation_of w2 u). rewrite Hrep2, Hrep1.
    rewrite <- option_fmap_compose. unfold credited, compose.
    rewrite Ha1. unfold Vote.reputation, Vote.voter_reputation. by rewrite Ht1. }
  exists post4. split.
  - unfold applicable. split_and!; try done.
    + apply reputation_is_Some. rewrite Hrep. apply fmap_is_Some.
      apply reputation_is_Some. congruence.
    + apply reputation_is_Some. rewrite Hrep. apply fmap_is_Some.
      apply reputation_is_Some. congruence.
    + intros Ht. rewrite <- parent_id_Unset. rewrite Hpid4, Hpid3.
      rewrite parent_id_Unset. apply Hacc. congruence.
  - unfold applied. split_and!; try congruence.
    + intros k Hk. rewrite Hoth4 by congruence. rewrite Hoth3 by done.
      by rewrite Ep2, Ep1.
    + intros [Hz|Ht].
      * destruct (decide (Vote.type v3 = VOTE_ACCEPT)) as [Ht|Ht].
        -- rewrite <- Hid3. by apply Hrow4.
        -- destruct (Hsame4 Ht) as [-> ->]. apply Hrow3. congruence.
      * rewrite <- Hid3. apply Hrow4. congruence.
    + intros Hz Ht. destruct Hsame4 as [-> _]; [congruence|].
      rewrite Hsame3 by congruence. congruence.
    + done.
    + intros Ht. apply Hrow4. congruence.
Qed.

(** The accept flags stay on the objects: when an accept has been applied,
    the answer object and the question object it caches carry the flag, the
    [accepted] column stored for the answer is the one the object came with,
    and no other row has changed, the row of the question among them. *)
Lemma accept_not_stored v post dir w :
  applicable v post w → Vote.type v = VOTE_ACCEPT →
  returns (Vote_apply v dir) w (fun v' w' => ∃ post',
    reaches v' post' (db w')
    ∧ Post.post_accepted post' = Some (bool_decide (dir = 1))
    ∧ (∃ q, Post.parent post' = Obj q
            ∧ Post.answer_accepted q = Some (bool_decide (dir = 1)))
    ∧ PostRow.accepted <$> DB.posts (db w') !! Post.id post
      = Some (Post.accepted post)
    ∧ ∀ k, k ≠ Post.id post → DB.posts (db w') !! k = DB.posts (db w) !! k).
Proof.
  intros Happ Ht.
  eapply returns_mono; [by apply Vote_apply_spec|].
  intros v' w' (post' & (Hr & _) & Hd). simpl.
  destruct Hd as (_ & _ & _ & _ & Hacc & _ & Hoth & Hrow & _ & _ & _ & Hflags).
  destruct (Hflags Ht) as [Hpa Hq].
  exists post'. split_and!; try done.
  rewrite Hrow by (by right). simpl. by rewrite Hacc.
Qed.

(** *** The ledger of a vote *)

(** C1. Applying a vote with direction [dir] of +1 or -1 returns and adds
    [dir] times the deltas of the vote's type: an upvote 1 to the score of
    the post and 10 to the reputation of its author; a downvote -1 to the
    score, -2 to the author and -1 to the voter; a favorite 2 to the score;
    an accept 15 to the author and 2 to the voter.  The score is the one on
    the post object and the one stored; a user who is the author and the
    voter gets both shares. *)
Theorem vote_apply_ledger (v : Vote.t) (post : Post.t) (dir : Z) (w : World)
    (ds da dv : Z) :
  applicable v post w →
  dir = 1 ∨ dir = -1 →
  (Vote.type v = VOTE_UP ∧ ds = 1 ∧ da = 10 ∧ dv = 0)
  ∨ (Vote.type v = VOTE_DOWN ∧ ds = -1 ∧ da = -2 ∧ dv = -1)
  ∨ (Vote.type v = VOTE_FAVORITE ∧ ds = 2 ∧ da = 0 ∧ dv = 0)
  ∨ (Vote.type v = VOTE_ACCEPT ∧ ds = 0 ∧ da = 15 ∧ dv = 2) →
  returns (Vote_apply v dir) w (fun v' w' => ∃ post',
    reaches v' post' (db w')
    ∧ Post.id post' = Post.id post
    ∧ Post.score post' = Post.score post + dir * ds
    ∧ stored_score w' (Post.id post) = Some (Post.score post + dir * ds)
    ∧ ∀ u, reputation_of w' u =
           (fun s => s + (if decide (u = Post.author post) then dir * da else 0)
                       + (if decide (u = Vote.author v) then dir * dv else 0))
           <$> reputation_of w u).
Proof.
  intros Happ _ Hrule.
  assert (Vote.score v = ds ∧ Vote.reputation v = da
          ∧ Vote.voter_reputation v = dv
          ∧ (Vote.score v ≠ 0 ∨ Vote.type v = VOTE_ACCEPT)) as (Es & Ea & Ev & Hsaved).
  { unfold Vote.score, Vote.reputation, Vote.voter_reputation.
    destruct Hrule as [(-> & -> & -> & ->)|[(-> & -> & -> & ->)
                      |[(-> & -> & -> & ->)|(-> & -> & -> & ->)]]];
      (split_and!; [reflexivity|reflexivity|reflexivity|]);
      first [by left | by right]. }
  eapply returns_mono; [by apply Vote_apply_spec|].
  intros v' w' (post' & (Hr & _) & Hd). simpl.
  destruct Hd as (_ & _ & Hid & _ & _ & Hsc & _ & Hrow & _ & Hrep & _).
  exists post'. rewrite Es, Ea, Ev in *. split_and!; try done.
  unfold stored_score. rewrite (Hrow Hsaved). simpl. by rewrite Hsc.
Qed.


(** *** What the handlers leave alone *)

Section Frames.
Context {B : Type} (f : DB.t → B).
Hypothesis f_posts : ∀ g d, f (DB.set_posts g d) = f d.
Hypothesis f_revisions : ∀ g d, f (DB.set_revisions g d) = f d.

Lemma fetch_post_preserves k : preserves f (fetch_post k).
Proof. unfold fetch_post. frame. Qed.

Lemma Post_parent_preserves self : preserves f (Post_parent self).
Proof. unfold Post_parent. frame. Qed.

Lemma verify_post_preserves self : preserves f (verify_post self).
Proof.
  unfold verify_post, settle_title.
  frame_with ltac:(apply Post_parent_preserves).
Qed.

Lemma create_revision_preserves post : preserves f (create_revision post).
Proof.
  unfold create_revision, PostRevision_create.
  frame; apply preserves_modify; intros; apply f_revisions.
Qed.

Lemma finalize_post_preserves instance created :
  preserves f (finalize_post instance created).
Proof.
  unfold finalize_post, post_create_notification.
  frame_with ltac:(apply create_revision_preserves).
Qed.

Lemma Post_apply_with_preserves save self dir :
  (∀ q, preserves f (save q)) → preserves f (Post_apply_with save self dir).
Proof.
  intros Hsave. unfold Post_apply_with.
  frame_with ltac:(first [apply Hsave | apply Post_parent_preserves]).
Qed.

Lemma Post_save_rec_preserves n self : preserves f (Post_save_rec n self).
Proof.
  revert self. induction n as [|n IH]; intros self; [apply preserves_raise|].
  rewrite Post_save_rec_S. apply preserves_bind; [apply verify_post_preserves|].
  intros self1. apply preserves_bind; [apply preserves_gets|]. intros created.
  apply preserves_bind; [apply preserves_modify; intros; apply f_posts|].
  intros _. apply preserves_bind.
  { destruct created; [by apply Post_apply_with_preserves|apply preserves_ret]. }
  intros self2. apply preserves_bind; [apply finalize_post_preserves|].
  intros _. apply preserves_ret.
Qed.

Lemma Post_save_preserves self : preserves f (Post_save self).
Proof. apply Post_save_rec_preserves. Qed.

Hypothesis f_profiles : ∀ g d, f (DB.set_profiles g d) = f d.

Lemma Vote_apply_preserves v dir : preserves f (Vote_apply v dir).
Proof.
  unfold Vote_apply, Vote_post, UserProfile_save, get_profile.
  frame_with ltac:(first
    [ apply fetch_post_preserves | apply Post_save_preserves
    | apply Post_parent_preserves
    | (apply preserves_modify; intros; apply f_profiles) ]).
Qed.

End Frames.

(** *** The nesting of saves *)

Lemma fetch_post_in_fuel k w : in_fuel (fetch_post k) w.
Proof. unfold fetch_post. fuel_with fail. Qed.

Lemma fetch_post_Ok k w q w' :
  fetch_post k w = Ok q w' →
  w' = w ∧ ∃ r, DB.posts (db w) !! k = Some r ∧ q = Post.of_row k r.
Proof.
  unfold fetch_post, bind, gets.
  destruct (DB.posts (db w) !! k) as [r|]; [|done].
  intros [= <- <-]. eauto.
Qed.

Lemma Post_parent_in_fuel self w : in_fuel (Post_parent self) w.
Proof. unfold Post_parent. fuel_with ltac:(apply fetch_post_in_fuel). Qed.

(** The parent object an access gives is the cached one or a stored one. *)
Lemma Post_parent_Ok self w q w' :
  Post_parent self w = Ok (Some q) w' →
  w' = w
  ∧ (Post.parent self = Obj q
     ∨ ∃ k r, Post.parent self = ById k ∧ DB.posts (db w) !! k = Some r
              ∧ q = Post.of_row k r).
Proof.
  unfold Post_parent. destruct (Post.parent self) as [|k|p]; [done| |].
  - intros (q' & w1 & (-> & r & Er & ->)%fetch_post_Ok & [= <- <-])%bind_Ok_inv.
    split; [done|]. right. eauto.
  - intros [= <- <-]. auto.
Qed.

Lemma settle_title_in_fuel self w : in_fuel (settle_title self) w.
Proof. unfold settle_title. fuel_with ltac:(apply Post_parent_in_fuel). Qed.

Lemma settle_title_Ok self w pt w' :
  settle_title self w = Ok pt w' →
  w' = w
  ∧ (pt.1 = Post.parent self
     ∨ ∃ k r, Post.parent self = ById k ∧ DB.posts (db w) !! k = Some r
              ∧ pt.1 = Obj (Post.of_row k r)).
Proof.
  unfold settle_title. case_decide; [|intros [= <- <-]; auto].
  intros ([q|] & w1 & E & E')%bind_Ok_inv.
  - apply Post_parent_Ok in E as [-> Hq]. injection E' as <- <-.
    split; [done|]. simpl.
    destruct Hq as [->|(k & r & ? & ? & ->)]; [by left|right; eauto].
  - injection E' as <- <-.
    unfold Post_parent in E. destruct (Post.parent self) as [|k|p]; [| |done].
    + injection E as <-. auto.
    + apply bind_Ok_inv in E as (? & ? & _ & [=]).
Qed.

Lemma verify_post_in_fuel self w : in_fuel (verify_post self) w.
Proof. unfold verify_post. fuel_with ltac:(apply settle_title_in_fuel). Qed.

(** What [verify_post] leaves when it returns: the store, the key and the
    type are the same; the parent object is the one cached before, or a
    stored one. *)
Lemma verify_post_Ok self w self' w' :
  verify_post self w = Ok self' w' →
  db w' = db w ∧ Post.id self' = Post.id self ∧ Post.type self' = Post.type self
  ∧ (Post.parent self' = Post.parent self
     ∨ ∃ k r, Post.parent self = ById k ∧ DB.posts (db w) !! k = Some r
              ∧ Post.parent self' = Obj (Post.of_row k r)).
Proof.
  unfold verify_post.
  intros (cd & w1 & E1 & (ld & w2 & E2 & (pt & w3 & E3 & E4)%bind_Ok_inv)
            %bind_Ok_inv)%bind_Ok_inv.
  assert (D1 : db w1 = db w).
  { destruct (Post.creation_date self); [by injection E1 as _ <-|].
    by injection E1 as _ <-. }
  assert (D2 : db w2 = db w1).
  { destruct (Post.lastedit_date self); [by injection E2 as _ <-|].
    by injection E2 as _ <-. }
  apply settle_title_Ok in E3 as [-> Hpt].
  injection E4 as <- <-. simpl. split_and!; [congruence|done|done|].
  rewrite D2, D1 in Hpt. done.
Qed.

Lemma finalize_post_in_fuel instance created w :
  in_fuel (finalize_post instance created) w.
Proof.
  unfold finalize_post, post_create_notification, create_revision,
    PostRevision_create.
  fuel_with fail.
Qed.

(** The nesting [Post_save] allows is enough: a stored instance needs one
    level, a new one as many as it has cached parents, and two more. *)
Lemma Post_save_rec_in_fuel n self w :
  (Post.depth self + 2 ≤ n)%nat
  ∨ ((1 ≤ n)%nat ∧ is_Some (DB.posts (db w) !! Post.id self)) →
  in_fuel (Post_save_rec n self) w.
Proof.
  revert self w. induction n as [|n IH]; intros self w Hn; [lia|].
  rewrite Post_save_rec_S.
  apply in_fuel_bind; [apply verify_post_in_fuel|].
  intros self1 w1 (D1 & Hid & Hty & Hpar)%verify_post_Ok.
  apply in_fuel_bind; [apply in_fuel_gets|]. intros created ? [= <- <-].
  apply in_fuel_bind; [apply in_fuel_modify|]. intros [] ? [= <-].
  set (w2 := mkWorld _ _).
  apply in_fuel_bind;
    [|intros; apply in_fuel_bind; [apply finalize_post_in_fuel|];
      intros; apply in_fuel_ret].
  case_bool_decide as Hnew; [|apply in_fuel_ret].
  assert (Hdeep : (Post.depth self + 2 ≤ S n)%nat).
  { destruct Hn as [?|[_ [r Hr]]]; [done|]. congruence. }
  (* the parent object the apply works on can be saved at the next level *)
  assert (Hq : ∀ q w3, Post_parent self1 w2 = Ok (Some q) w3 →
             w3 = w2 ∧ ∀ q' w4, Post.id q' = Post.id q → Post.depth q' = Post.depth q →
               (∀ k, is_Some (DB.posts (db w2) !! k) → is_Some (DB.posts (db w4) !! k)) →
               in_fuel (Post_save_rec n q') w4).
  { intros q w3 [-> Hq]%Post_parent_Ok. split; [done|].
    intros q' w4 Eid Edep Hmono. apply IH.
    assert (Hstored : ∀ k r, DB.posts (db w) !! k = Some r →
                      is_Some (DB.posts (db w4) !! k)).
    { intros k r Er. apply Hmono. subst w2. simpl.
      destruct (decide (Post.id self1 = k)) as [->|Hk].
      - rewrite lookup_insert_eq. eauto.
      - rewrite lookup_insert_ne by done. rewrite D1, Er. eauto. }
    destruct Hq as [Hobj|(k & r & Hby & Er & ->)].
    - destruct Hpar as [Esame|(k & r & Hby & Er & Hobj')].
      + left. rewrite Edep. rewrite Esame in Hobj.
        assert (Post.depth self = S (Post.depth q)).
        { destruct self. simpl in *. by rewrite Hobj. }
        lia.
      + right. split; [lia|]. rewrite Eid.
        assert (q = Post.of_row k r) by congruence. subst q. simpl. eauto.
    - right. split; [lia|]. rewrite Eid. simpl.
      apply Hmono. eauto. }
  unfold Post_apply_with.
  apply in_fuel_bind; [apply Post_parent_in_fuel|].
  intros [q|] w3 Epar; [|apply in_fuel_ret].
  destruct (Hq q w3 Epar) as [-> Hsave].
  destruct (decide (Post.type self1 = POST_ANSWER)) as [Ha|Ha].
  - apply in_fuel_bind; [apply Hsave; [done|by destruct q|done]|].
    intros q1 w4 E4.
    rewrite decide_False by (rewrite Ha; done).
    apply in_fuel_bind; [apply in_fuel_ret|]. intros. apply in_fuel_ret.
  - apply in_fuel_bind; [apply in_fuel_ret|]. intros ? ? [= <- <-].
    apply in_fuel_bind; [|intros; apply in_fuel_ret].
    case_decide; [apply Hsave; [done|by destruct q|done]|apply in_fuel_ret].
Qed.

(** [Post_save] never ends on the bound of the nesting. *)
Lemma Post_save_in_fuel self w : in_fuel (Post_save self) w.
Proof. apply Post_save_rec_in_fuel. left. lia. Qed.

(** *** Votes held *)

Lemma fresh_pk_above (ids : list pk) k : k ∈ ids → (k < fresh_pk ids)%nat.
Proof.
  unfold fresh_pk. induction ids as [|i ids IH]; [by intros ?%elem_of_nil|].
  intros [->|Hin]%elem_of_cons; simpl; [lia|]. specialize (IH Hin). lia.
Qed.

Lemma fresh_pk_fresh (ids : list pk) : fresh_pk ids ∉ ids.
Proof. intros Hin%fresh_pk_above. lia. Qed.

Lemma filter_all {A} (P : A → Prop) `{∀ x, Decision (P x)} (l : list A) :
  (∀ x, x ∈ l → P x) → filter P l = l.
Proof.
  induction l as [|a l IH]; intros HP; [done|].
  rewrite filter_cons_True by (apply HP; left).
  f_equal. apply IH. intros x Hx. apply HP. by right.
Qed.

Lemma filter_fresh_vote (l : list VoteRow.t) :
  filter (fun r => VoteRow.id r ≠ fresh_pk (VoteRow.id <$> l)) l = l.
Proof.
  apply filter_all. intros r Hr E.
  apply (fresh_pk_fresh (VoteRow.id <$> l)). rewrite <- E.
  by apply list_elem_of_fmap_2.
Qed.

Lemma opposing_cases t t' :
  OPPOSING_VOTES !! t = Some t' →
  (t = VOTE_UP ∧ t' = VOTE_DOWN) ∨ (t = VOTE_DOWN ∧ t' = VOTE_UP).
Proof.
  unfold OPPOSING_VOTES.
  intros [[<- <-]|[_ [[<- <-]|[_ E]]%lookup_insert_Some]]%lookup_insert_Some;
    [by left|by right|done].
Qed.

(** [add_vote] by a registered user appends one row for the user, the post
    and the type, however the apply that follows ends. *)
Lemma add_vote_votes self u t w :
  DB.votes (db (final (add_vote self (AuthUser u) t w)))
  = DB.votes (db w)
      ++ [VoteRow.mk (fresh_pk (VoteRow.id <$> DB.votes (db w))) u (Post.id self) t].
Proof.
  unfold add_vote, Vote_save. simpl.
  rewrite (bind_Ok _ _ w (Post.id self) w) by done.
  rewrite (bind_Ok _ _ w (DB.votes (db w)) w) by done.
  rewrite bool_decide_true by apply fresh_pk_fresh.
  erewrite bind_Ok by reflexivity.
  rewrite Vote_apply_preserves by done. simpl.
  by rewrite filter_fresh_vote.
Qed.

Lemma get_vote_eq self u t w :
  get_vote self (AuthUser u) t w =
    match filter (fun r => VoteRow.post r = Post.id self ∧ VoteRow.author r = u
                           ∧ VoteRow.type r = t) (DB.votes (db w)) with
    | [] => Ok None w
    | [r] => Ok (Some (Vote.of_row r)) w
    | _ :: _ :: _ => Raise MultipleObjectsReturned w
    end.
Proof.
  unfold get_vote, bind, gets. simpl.
  by destruct (filter _ (DB.votes (db w))) as [|r [|r' rows]].
Qed.

(** After [remove_vote] has returned, the user holds no vote of the type on
    the post, and no row was added. *)
Lemma remove_vote_votes self u t w b w1 :
  remove_vote self (AuthUser u) t w = Ok b w1 →
  (∀ r, r ∈ DB.votes (db w1) → r ∈ DB.votes (db w))
  ∧ ¬ holds (db w1) u (Post.id self) t.
Proof.
  unfold remove_vote. unfold bind at 1. rewrite get_vote_eq.
  set (P := fun r => VoteRow.post r = Post.id self ∧ VoteRow.author r = u
                     ∧ VoteRow.type r = t).
  destruct (filter P (DB.votes (db w))) as [|r [|r' rows]] eqn:Ef.
  - intros [= <- <-].
    split; [done|]. intros (r & Hin & Ha & Hp & Ht).
    assert (Hr : r ∈ filter P (DB.votes (db w))) by (by apply list_elem_of_filter).
    rewrite Ef in Hr. by apply elem_of_nil in Hr.
  - unfold Vote_delete. simpl. intros E.
    assert (Ev : DB.votes (db w1)
                 = filter (fun r0 => VoteRow.id r0 ≠ VoteRow.id r) (DB.votes (db w))).
    { unfold bind in E at 1.
      destruct (bind (modify _) _ w) as [v2 w2|e w2] eqn:E2; [|done].
      injection E as _ <-.
      unfold bind, modify in E2.
      match type of E2 with Vote_apply ?v ?d ?w0 = _ =>
        pose proof (Vote_apply_preserves DB.votes
                      ltac:(done) ltac:(done) ltac:(done) v d w0) as Hpres end.
      rewrite E2 in Hpres. done. }
    rewrite Ev. split.
    + intros r0 Hr0. by apply list_elem_of_filter in Hr0 as [_ ?].
    + intros (r0 & Hin & Ha & Hp & Ht). unfold holds in *.
      rewrite Ev in Hin. apply list_elem_of_filter in Hin as [Hne Hin].
      assert (Hr0 : r0 ∈ filter P (DB.votes (db w)))
        by (by apply list_elem_of_filter).
      rewrite Ef in Hr0. apply list_elem_of_singleton in Hr0. by subst.
  - done.
Qed.

(** C9, as the code has it.  [add_vote] does not look at the votes held: it
    appends its row to the votes there are.  When the vote of the opposing
    type is taken off with [remove_vote] first and both calls return, the
    user holds the new vote and not the opposing one, and a store without
    opposing pairs stays so. *)
Theorem opposing_vote_removed_first (post : Post.t) (u : pk) (t t' : Z)
    (w w1 w2 : World) (b : bool) (v : Vote.t) :
  OPPOSING_VOTES !! t = Some t' →
  no_opposing (db w) →
  remove_vote post (AuthUser u) t' w = Ok b w1 →
  add_vote post (AuthUser u) t w1 = Ok v w2 →
  (∃ k, DB.votes (db w2) = DB.votes (db w1) ++ [VoteRow.mk k u (Post.id post) t])
  ∧ no_opposing (db w2)
  ∧ holds (db w2) u (Post.id post) t
  ∧ ¬ holds (db w2) u (Post.id post) t'.
Proof.
  intros Hopp Hno Hrm Hadd.
  apply remove_vote_votes in Hrm as [Hsub Hgone].
  pose proof (add_vote_votes post u t w1) as Ev. rewrite Hadd in Ev. simpl in Ev.
  set (new := VoteRow.mk _ u (Post.id post) t) in Ev.
  assert (Hne : t ≠ t') by (apply opposing_cases in Hopp as [[-> ->]|[-> ->]]; done).
  assert (Hcase : ∀ u0 p0 t0, holds (db w2) u0 p0 t0 →
            holds (db w1) u0 p0 t0 ∨ (u0 = u ∧ p0 = Post.id post ∧ t0 = t)).
  { intros u0 p0 t0 (r & Hin & Ha & Hp & Ht). rewrite Ev in Hin.
    apply elem_of_app in Hin as [Hin|Hin].
    - left. by exists r.
    - apply list_elem_of_singleton in Hin. subst r. right. done. }
  assert (Hup : ∀ u0 p0 t0, holds (db w1) u0 p0 t0 → holds (db w) u0 p0 t0).
  { intros u0 p0 t0 (r & Hin & ?). exists r. auto. }
  split_and!.
  - by eexists.
  - intros u0 p0 t0 t0' Hopp0 H1 H2.
    apply Hcase in H1 as [H1|(-> & -> & ->)];
      apply Hcase in H2 as [H2|(E1 & E2 & E3)].
    + eapply Hno; eauto.
    + subst. apply Hgone.
      apply opposing_cases in Hopp as [[-> ->]|[-> ->]];
        apply opposing_cases in Hopp0 as [[E ?]|[E ?]]; by subst.
    + assert (t0' = t') by congruence. subst. by apply Hgone.
    + assert (t0' = t') by congruence. subst. done.
  - exists new. rewrite Ev. split; [|done]. apply elem_of_app. right.
    by apply list_elem_of_singleton.
  - intros [Hh|(_ & _ & E)]%Hcase; [by apply Hgone|done].
Qed.

(** *** The status of a post *)

Lemma set_status_unanswered self :
  Post.answer_count self = 0 →
  Post.set_status self = inr (Post.set_status_field self POST_UNANSWERED).
Proof. intros E. unfold Post.set_status. by rewrite decide_True. Qed.

Lemma set_status_accepted self :
  Post.answer_count self ≠ 0 → Post.answer_accepted self = Some true →
  Post.set_status self = inr (Post.set_status_field self POST_ACCEPTED).
Proof. intros E Ea. unfold Post.set_status. by rewrite decide_False, Ea. Qed.

(** With answers and none accepted, [set_status] has no branch: the status
    stays what it was. *)
Lemma set_status_otherwise self :
  Post.answer_count self ≠ 0 → Post.answer_accepted self = Some false →
  Post.set_status self = inr self.
Proof. intros E Ea. unfold Post.set_status. by rewrite decide_False, Ea. Qed.

Lemma set_status_unset self :
  Post.answer_count self ≠ 0 → Post.answer_accepted self = None →
  Post.set_status self = inl AttributeError.
Proof. intros E Ea. unfold Post.set_status. by rewrite decide_False, Ea. Qed.

Lemma set_status_fields self post1 :
  Post.set_status self = inr post1 →
  Post.id post1 = Post.id self ∧ Post.author post1 = Post.author self
  ∧ Post.parent post1 = Post.parent self.
Proof.
  unfold Post.set_status. case_decide; [by intros [= <-]|].
  destruct (Post.answer_accepted self) as [[]|]; [| |done]; by intros [= <-].
Qed.

Lemma returns_send_note sender target content type unread w
    (Q : unit → World → Prop) :
  Q tt (mkWorld
          (DB.set_notes (fun l => l ++
             [Note.mk sender target None content (html_generate content)
                (clock w) unread type]) (db w))
          (S (clock w))) →
  returns (send_note sender target content type unread None) w Q.
Proof.
  intros HQ. unfold send_note, Note_create.
  apply returns_bind, returns_now, returns_modify. done.
Qed.


(** *** Awards *)

(** C5, as the code has it.  When the badge of that name is unique and the
    user has an award of it, [apply_award] returns at once: no award is
    made, the store and the clock are as they were, and nothing is raised. *)
Theorem apply_award_duplicate_returns (user : pk) (badge_name : string)
    (badge : Badge.t) (a : AwardRow.t) (w : World) :
  filter (fun b => Badge.name b = badge_name) (DB.badges (db w)) = [badge] →
  Badge.unique badge = true →
  a ∈ DB.awards (db w) → AwardRow.badge a = Badge.id badge →
  AwardRow.user a = user →
  apply_award user badge_name w = Ok tt w.
Proof.
  intros Eb Hu Hin Hab Hau. unfold apply_award.
  erewrite bind_Ok by reflexivity. rewrite Eb.
  erewrite bind_Ok by reflexivity.
  erewrite bind_Ok by reflexivity.
  rewrite Hu, andb_true_r, bool_decide_true; [done|].
  intros Enil.
  assert (Ha : a ∈ filter (fun a0 => AwardRow.badge a0 = Badge.id badge
                                     ∧ AwardRow.user a0 = user) (DB.awards (db w)))
    by (by apply list_elem_of_filter).
  rewrite Enil in Ha. by apply elem_of_nil in Ha.
Qed.

(** *** The revision log *)

(** C6. For a post with an editor the revision step returns.  It appends a
    row exactly when the combined snapshot (title, content and tags in the
    TITLE/content/TAGS form) differs from the content of the last revision
    of the post, the empty string when there is none; the row holds the
    snapshot and the unified diff of the lines of the previous content and of
    the snapshot.  A second run on an instance with the same title, content
    and tags appends nothing, when the revisions stored at first are dated
    before the clock. *)
Theorem create_revision_iff_changed (post : Post.t) (u : pk) (w : World) :
  Post.lastedit_user post = Some u →
  let prev := prev_content (Post.id post) (DB.revisions (db w)) in
  Post.combine post
  = ("TITLE:" ++ Post.title post ++ newline ++ Post.content post ++ newline
       ++ "TAGS:" ++ Post.tag_val post)%string
  ∧ returns (create_revision post) w (fun _ w' =>
      (Post.combine post ≠ prev ↔
       length (DB.revisions (db w')) = S (length (DB.revisions (db w))))
      ∧ (Post.combine post ≠ prev →
         DB.revisions (db w') = DB.revisions (db w) ++
           [PostRevision.mk (Post.id post)
              (String.concat "" (unified_diff (splitlines prev)
                                   (splitlines (Post.combine post))))
              (Post.combine post) u (clock w)])
      ∧ (Post.combine post = prev → DB.revisions (db w') = DB.revisions (db w))
      ∧ ((∀ b, b ∈ DB.revisions (db w) → PostRevision.post b = Post.id post →
               (PostRevision.date b < clock w)%nat) →
         ∀ post2 u2,
           Post.id post2 = Post.id post → Post.title post2 = Post.title post →
           Post.content post2 = Post.content post →
           Post.tag_val post2 = Post.tag_val post →
           Post.lastedit_user post2 = Some u2 →
           returns (create_revision post2) w' (fun _ w'' =>
             DB.revisions (db w'') = DB.revisions (db w')))).
Proof.
  intros Hu prev. split; [reflexivity|].
  apply (create_revision_returns _ u); [done|]. simpl. fold prev.
  assert (Hagain : ∀ w', prev_content (Post.id post) (DB.revisions (db w'))
                         = Post.combine post →
            ∀ post2 u2,
              Post.id post2 = Post.id post → Post.title post2 = Post.title post →
              Post.content post2 = Post.content post →
              Post.tag_val post2 = Post.tag_val post →
              Post.lastedit_user post2 = Some u2 →
              returns (create_revision post2) w' (fun _ w'' =>
                DB.revisions (db w'') = DB.revisions (db w'))).
  { intros w' Eprev post2 u2 Hid Hti Hco Hta Hu2.
    apply (create_revision_returns _ u2); [done|]. simpl.
    assert (Ec : Post.combine post2 = Post.combine post)
      by (unfold Post.combine; congruence).
    rewrite Hid, Ec, Eprev. by rewrite decide_False by (by intros ?). }
  case_decide as Hc; simpl.
  - split_and!; [|done|done|].
    + rewrite length_app. simpl. split; [lia|done].
    + intros Hdates. apply Hagain. simpl. unfold prev_content.
      rewrite last_revision_new; [done| |done]. simpl. done.
  - split_and!; [|done|done|].
    + split; [done|lia].
    + intros _. by apply Hagain.
Qed.

(** A save of a stored post that is no question and no answer leaves the
    revisions as they are. *)
Lemma Post_save_other_types self w :
  is_Some (DB.posts (db w) !! Post.id self) → parent_ok self w →
  Post.type self ≠ POST_QUESTION → Post.type self ≠ POST_ANSWER →
  returns (Post_save self) w (fun _ w' =>
    DB.revisions (db w') = DB.revisions (db w)).
Proof.
  intros Hs Hp Hq Ha. apply Post_save_stored; [done|done|].
  intros self' w' Hv (u & t & _ & ->) _.
  destruct (verified_fields _ _ Hv) as (_ & _ & _ & _ & Ht & _).
  unfold revised. rewrite decide_False; [done|].
  rewrite Ht. by intros [?|?].
Qed.


(** *** Tags *)

(** C10. The first save of a tag returns and leaves the count at 0, on the
    instance and in the row stored, whatever count the instance came with;
    the name is kept. *)
Theorem tag_created_count_zero (instance : Tag.t) (w : World) :
  DB.tags (db w) !! Tag.id instance = None →
  returns (Tag_save instance) w (fun instance' w' =>
    Tag.count instance' = 0
    ∧ DB.tags (db w') !! Tag.id instance
      = Some (TagRow.mk (Tag.name instance) 0)).
Proof.
  intros Hnew. unfold Tag_save, Tag_write.
  apply returns_bind, returns_bind, returns_gets. rewrite Hnew.
  rewrite bool_decide_true by done.
  apply returns_bind, returns_modify, returns_ret.
  unfold tag_created. simpl.
  destruct (decide (Tag.count instance = 0)) as [Ez|Hz].
  - rewrite bool_decide_false by (by intros ?).
    apply returns_ret. simpl. split; [done|].
    rewrite lookup_insert_eq. unfold Tag.row. by rewrite Ez.
  - rewrite bool_decide_true by done. unfold Tag_write.
    apply returns_bind, returns_bind, returns_gets.
    apply returns_bind, returns_modify, returns_ret, returns_ret. simpl.
    split; [done|]. by rewrite lookup_insert_eq.
Qed.

End Pipeline.

(** ** Runs on the small site *)

Section Runs.
#[local] Existing Instance plain.

Ltac stored := vm_compute; eauto.

(** C1 on a downvote of user 10 on the answer of user 11. *)
Lemma vote_apply_ledger_witness :
  applicable downvote0 answer0 world0
  ∧ ∃ v' w', Vote_apply downvote0 1 world0 = Ok v' w'
      ∧ stored_score w' 2%nat = Some (-1)
      ∧ reputation_of w' 11%nat = Some (-2)
      ∧ reputation_of w' 10%nat = Some (-1).
Proof.
  assert (Happ : applicable downvote0 answer0 world0).
  { unfold applicable. split_and!; try stored. intros [=]. }
  split; [exact Happ|].
  destruct (vote_apply_ledger downvote0 answer0 1 world0 (-1) (-2) (-1) Happ)
    as (v' & w' & E & post' & _ & _ & _ & Hst & Hrep).
  { by left. }
  { right. left. done. }
  exists v', w'. split_and!; [done|exact Hst| |].
  - rewrite Hrep. reflexivity.
  - rewrite Hrep. reflexivity.
Defined.


(** C3 on the code.  After the accept of user 10 is applied to the answer,
    the two attributes are set on the objects the vote holds, and the store
    has neither: the [accepted] column of the answer is still false, and the
    row of the question is the one it was. *)
Theorem accept_flags_not_stored :
  ∃ v' w' answer question,
    Vote_apply accept0 1 world0 = Ok v' w'
    ∧ Vote.post v' = Obj answer
    ∧ Post.post_accepted answer = Some true
    ∧ Post.parent answer = Obj question
    ∧ Post.answer_accepted question = Some true
    ∧ PostRow.accepted <$> DB.posts (db w') !! 2%nat = Some false
    ∧ DB.posts (db w') !! 1%nat = DB.posts (db world0) !! 1%nat.
Proof.
  eexists _, _, _, _. split; [vm_compute; reflexivity|].
  split_and!; reflexivity.
Qed.

(** C4 on the code.  The closed question has an answer and none accepted:
    [set_status] leaves the status CLOSED, and after the moderator action
    REOPEN the stored status is CLOSED, not OPEN. *)
Theorem reopen_keeps_closed :
  Post.answer_count closed_question0 ≠ 0
  ∧ Post.answer_accepted closed_question0 = Some false
  ∧ Post.set_status closed_question0 = inr closed_question0
  ∧ Post.status closed_question0 = POST_CLOSED
  ∧ ∃ post' w',
      moderator_action closed_question0 1%nat REV_REOPEN world0 = Ok post' w'
      ∧ Post.status post' = POST_CLOSED
      ∧ PostRow.status <$> DB.posts (db w') !! 1%nat = Some POST_CLOSED
      ∧ POST_CLOSED ≠ POST_OPEN.
Proof.
  split_and!; [done|done|done|done|].
  eexists _, _. split; [vm_compute; reflexivity|].
  split_and!; done.
Qed.

(** C5 as stated fails: user 11 has the unique badge, and the second award
    returns normally with the world as it was; nothing is raised. *)
Lemma apply_award_duplicate_silent :
  Badge.unique teacher = true
  ∧ AwardRow.mk 1%nat (Badge.id teacher) 11%nat 4%nat ∈ DB.awards (db world0)
  ∧ apply_award 11%nat "Teacher" world0 = Ok tt world0
  ∧ ¬ ∃ e w', apply_award 11%nat "Teacher" world0 = Raise e w'.
Proof.
  assert (E : apply_award 11%nat "Teacher" world0 = Ok tt world0)
    by (vm_compute; reflexivity).
  split_and!; [done|apply list_elem_of_singleton; reflexivity|done|].
  intros (e & w' & E'). congruence.
Qed.

Lemma apply_award_duplicate_returns_witness :
  filter (fun b => Badge.name b = "Teacher") (DB.badges (db world0)) = [teacher]
  ∧ Badge.unique teacher = true
  ∧ apply_award 11%nat "Teacher" world0 = Ok tt world0.
Proof.
  split_and!; [reflexivity|reflexivity|].
  apply (apply_award_duplicate_returns 11%nat "Teacher" teacher
           (AwardRow.mk 1%nat 1%nat 11%nat 4%nat) world0);
    [reflexivity|reflexivity|apply list_elem_of_singleton; reflexivity
    |reflexivity|reflexivity].
Defined.

(** C6 on the answer, which has no revision yet. *)
Lemma create_revision_iff_changed_witness :
  Post.lastedit_user answer0 = Some 11%nat
  ∧ ∃ w', create_revision answer0 world0 = Ok tt w'
      ∧ length (DB.revisions (db w')) = 1%nat
      ∧ ∃ w'', create_revision answer0 w' = Ok tt w''
          ∧ DB.revisions (db w'') = DB.revisions (db w').
Proof.
  split; [reflexivity|].
  destruct (create_revision_iff_changed answer0 11%nat world0 eq_refl)
    as (_ & [] & w' & E & Hiff & _ & _ & Hagain).
  exists w'. split_and!; [done| |].
  - apply Hiff. vm_compute. discriminate.
  - destruct (Hagain ltac:(by intros b ?%elem_of_nil) answer0 11%nat
                eq_refl eq_refl eq_refl eq_refl eq_refl)
      as ([] & w'' & E' & Hsame).
    by exists w''.
Defined.




(** C9 as stated fails: [add_vote] twice, and user 10 holds an upvote and a
    downvote on the answer. *)
Lemma add_vote_keeps_opposing :
  ∃ v1 w1 v2 w2,
    add_vote answer0 (AuthUser 10%nat) VOTE_UP world0 = Ok v1 w1
    ∧ add_vote answer0 (AuthUser 10%nat) VOTE_DOWN w1 = Ok v2 w2
    ∧ holds (db w2) 10%nat 2%nat VOTE_UP
    ∧ holds (db w2) 10%nat 2%nat VOTE_DOWN
    ∧ ¬ no_opposing (db w2).
Proof.
  eexists _, _, _, _.
  split; [vm_compute; reflexivity|].
  split; [vm_compute; reflexivity|].
  assert (Hup : ∀ d, DB.votes d = [VoteRow.mk 1%nat 10%nat 2%nat VOTE_UP;
                                     VoteRow.mk 2%nat 10%nat 2%nat VOTE_DOWN] →
                      holds d 10%nat 2%nat VOTE_UP).
  { intros d E. exists (VoteRow.mk 1%nat 10%nat 2%nat VOTE_UP).
    rewrite E. split; [left|done]. }
  assert (Hdown : ∀ d, DB.votes d = [VoteRow.mk 1%nat 10%nat 2%nat VOTE_UP;
                                       VoteRow.mk 2%nat 10%nat 2%nat VOTE_DOWN] →
                        holds d 10%nat 2%nat VOTE_DOWN).
  { intros d E. exists (VoteRow.mk 2%nat 10%nat 2%nat VOTE_DOWN).
    rewrite E. split; [right; left|done]. }
  split_and!; [by apply Hup|by apply Hdown|].
  intros Hno. apply (Hno 10%nat 2%nat VOTE_UP VOTE_DOWN);
    [reflexivity|by apply Hup|by apply Hdown].
Qed.

Lemma opposing_vote_removed_first_witness :
  ∃ w1 w2 v,
    OPPOSING_VOTES !! VOTE_DOWN = Some VOTE_UP
    ∧ no_opposing (db upvoted0)
    ∧ remove_vote answer0 (AuthUser 10%nat) VOTE_UP upvoted0 = Ok true w1
    ∧ add_vote answer0 (AuthUser 10%nat) VOTE_DOWN w1 = Ok v w2
    ∧ (∃ k, DB.votes (db w2)
            = DB.votes (db w1) ++ [VoteRow.mk k 10%nat 2%nat VOTE_DOWN])
    ∧ no_opposing (db w2)
    ∧ holds (db w2) 10%nat 2%nat VOTE_DOWN
    ∧ ¬ holds (db w2) 10%nat 2%nat VOTE_UP.
Proof.
  eexists _, _, _.
  assert (Hopp : OPPOSING_VOTES !! VOTE_DOWN = Some VOTE_UP) by reflexivity.
  assert (Hno : no_opposing (db upvoted0)).
  { intros u p t t' Ho (r & Hr & _ & _ & Ht) (r' & Hr' & _ & _ & Ht').
    unfold upvoted0 in Hr, Hr'. rewrite add_vote_votes in Hr, Hr'.
    apply list_elem_of_singleton in Hr, Hr'. subst r r'. simpl in *. subst t t'.
    apply opposing_cases in Ho as [[? ?]|[? ?]]; discriminate. }
  split; [exact Hopp|]. split; [exact Hno|].
  split; [vm_compute; reflexivity|].
  split; [vm_compute; reflexivity|].
  eapply (opposing_vote_removed_first answer0 10%nat VOTE_DOWN VOTE_UP upvoted0);
    [exact Hopp|exact Hno|vm_compute; reflexivity|vm_compute; reflexivity].
Defined.

(** C10 on a tag that comes with the count 7. *)
Lemma tag_created_count_zero_witness :
  DB.tags (db world0) !! 5%nat = None
  ∧ ∃ instance' w',
      Tag_save (Tag.mk 5%nat "rocq" 7) world0 = Ok instance' w'
      ∧ Tag.count instance' = 0
      ∧ DB.tags (db w') !! 5%nat = Some (TagRow.mk "rocq" 0).
Proof.
  split; [reflexivity|].
  exact (tag_created_count_zero (Tag.mk 5%nat "rocq" 7) world0 eq_refl).
Defined.

End Runs.

(** ** More on the save pipeline *)

Section More.
Context `{Externals}.

Lemma settled_verified self d self' : settled self d self' → verified self self'.
Proof.
  intros (cd & ld & par & ttl & td & -> & _ & _ & _ & _ & Httl & _ & _ & Hpar).
  exists cd, ld, par, ttl, td. split; [done|].
  split; [intros Hne; by destruct (Httl Hne)|].
  destruct Hpar as [?|(k & r & ? & _ & ?)]; eauto.
Qed.

Lemma append_colon_nonempty (a b : string) : (a ++ ": " ++ b)%string ≠ "".
Proof. by destruct a. Qed.

Lemma settle_title_full self w :
  parent_ok self w →
  returns (settle_title self) w (fun pt w' =>
    w' = w
    ∧ (Post.title self ≠ "" → pt.2 = Post.title self ∧ pt.1 = Post.parent self)
    ∧ (Post.parent self = Unset → pt.2 = Post.title self)
    ∧ (pt.2 = "" → pt.1 = Unset)
    ∧ (pt.1 = Post.parent self
       ∨ ∃ k r, Post.parent self = ById k ∧ DB.posts (db w) !! k = Some r
                ∧ pt.1 = Obj (Post.of_row k r))).
Proof.
  intros Hp. unfold settle_title.
  destruct (decide (Post.title self = "")) as [Ht|Ht].
  - unfold Post_parent, parent_ok in *.
    destruct (Post.parent self) as [|k|q] eqn:Ep.
    + repeat mstep. simpl. split_and!; auto.
    + destruct Hp as [r Hr]. unfold fetch_post. repeat mstep.
      rewrite Hr. repeat mstep. simpl. split_and!; [done|done|done| |].
      * by intros ?%append_colon_nonempty.
      * right. eauto.
    + repeat mstep. simpl. split_and!; [done|done|done| |by left].
      by intros ?%append_colon_nonempty.
  - mstep. simpl. split_and!; auto. intros E. by rewrite E in Ht.
Qed.

(** [verify_post] on an instance whose parent can be reached returns. *)
Lemma verify_post_full self w :
  parent_ok self w →
  returns (verify_post self) w (fun self' w' =>
    settled self (db w) self' ∧ db w' = db w ∧ (clock w < clock w')%nat
    ∧ parent_ok self' w').
Proof.
  intros Hp. unfold verify_post.
  assert (Hfin : ∀ cd ld, ∀ w1, db w1 = db w → (clock w ≤ clock w1)%nat →
    is_Some cd → is_Some ld →
    (∀ x, Post.creation_date self = Some x → cd = Some x) →
    (∀ x, Post.lastedit_date self = Some x → ld = Some x) →
    returns (pt <- settle_title self ;; touch_date <- now ;;
             ret (verified_as self cd ld pt.1 pt.2 touch_date)) w1
      (fun self' w' => settled self (db w) self' ∧ db w' = db w
                       ∧ (clock w < clock w')%nat ∧ parent_ok self' w')).
  { intros cd ld w1 E Hc Hcd Hld Hcd' Hld'. apply returns_bind.
    eapply returns_mono.
    { apply settle_title_full. unfold parent_ok in *. by rewrite E. }
    intros [par ttl] w' (-> & Httl & Hun & Hemp & Hpar). simpl in *.
    apply returns_bind, returns_now, returns_ret. simpl.
    split_and!; [|done|lia|].
    - exists cd, ld, par, ttl, (clock w1). rewrite E in Hpar. split_and!; done.
    - unfold parent_ok in *. simpl. rewrite E.
      destruct Hpar as [->|(k & r & _ & _ & ->)]; done. }
  apply returns_bind.
  destruct (Post.creation_date self) as [cd|] eqn:Ecd;
    [ apply returns_ret
    | apply returns_bind, returns_now, returns_ret ];
    (apply returns_bind;
     destruct (Post.lastedit_date self) as [ld|] eqn:Eld;
     [ apply returns_ret
     | apply returns_bind, returns_now, returns_ret ]);
    apply Hfin; simpl; try done; try lia; eauto.
Qed.

(** The save of an instance whose row is stored and whose parent can be
    reached returns, at any level of the nesting. *)
Lemma Post_save_rec_stored n self w (Q : Post.t → World → Prop) :
  is_Some (DB.posts (db w) !! Post.id self) →
  parent_ok self w →
  (∀ self' w', stored_save self w self' w' → parent_ok self' w' → Q self' w') →
  returns (Post_save_rec (S n) self) w Q.
Proof.
  intros [r Hr] Hp HQ. rewrite Post_save_rec_S.
  apply returns_bind. eapply returns_mono; [by apply verify_post_full|].
  intros self' w1 (Hset & E1 & Hc1 & Hp1). simpl.
  pose proof (settled_verified _ _ _ Hset) as Hv.
  destruct (verified_fields _ _ Hv)
    as (Hid & _ & _ & _ & _ & _ & _ & _ & _ & _ & _ & [u Hu] & _).
  apply returns_bind, returns_gets. rewrite E1, Hid, Hr.
  rewrite bool_decide_false by done.
  apply returns_bind, returns_modify.
  apply returns_bind, returns_ret.
  unfold finalize_post.
  apply returns_bind. apply returns_bind, returns_ret.
  set (w2 := mkWorld _ _).
  assert (Hp2 : ∀ w3, DB.posts (db w3) = DB.posts (db w2) → parent_ok self' w3).
  { intros w3 E3. unfold parent_ok in *. rewrite E3. subst w2. simpl.
    destruct (Post.parent self') as [|k|q]; [done| |done].
    destruct (decide (Post.id self = k)) as [->|Hk].
    - rewrite lookup_insert_eq. eauto.
    - by rewrite lookup_insert_ne. }
  case_decide as Ht.
  - apply (create_revision_returns _ u); [done|]. simpl.
    case_decide as Hc; apply returns_ret; (apply HQ; [|by apply Hp2]);
      (split; [done|]); exists u, (clock w1); simpl;
      (split_and!; [done|lia|lia| |]); unfold revised;
      try rewrite decide_True by done; subst w2; simpl in *;
      rewrite ?E1 in *.
    + by rewrite decide_True by done.
    + intros _. lia.
    + rewrite decide_False; [done|]. by intros ?.
    + intros Hne. by destruct Hne.
  - apply returns_ret, returns_ret. apply HQ; [|by apply Hp2].
    split; [done|]. exists u, (clock w1). subst w2. simpl.
    split_and!; [done|lia|lia| |].
    + unfold revised. rewrite decide_False by done. by rewrite <- Hid, E1.
    + rewrite E1. intros Hne. by destruct Hne.
Qed.

Lemma Post_save_stored_full self w (Q : Post.t → World → Prop) :
  is_Some (DB.posts (db w) !! Post.id self) →
  parent_ok self w →
  (∀ self' w', stored_save self w self' w' → parent_ok self' w' → Q self' w') →
  returns (Post_save self) w Q.
Proof. apply Post_save_rec_stored. Qed.

(** X1. The save of a stored post whose parent can be reached returns and
    leaves a normalised row: root, editor and the three dates are set, the
    HTML and the slug are rendered from the content and the title, and the
    author, content, tags, views, score, status, type, counters, accepted
    flag and parent key are those of the object; a title that was not empty
    is kept, and no other row changes. *)
Theorem Post_save_normalises (self : Post.t) (w : World) :
  is_Some (DB.posts (db w) !! Post.id self) →
  parent_ok self w →
  returns (Post_save self) w (fun self' w' => ∃ r,
    DB.posts (db w') !! Post.id self = Some r
    ∧ r = Post.row self'
    ∧ is_Some (PostRow.root r) ∧ is_Some (PostRow.lastedit_user r)
    ∧ is_Some (PostRow.creation_date r) ∧ is_Some (PostRow.lastedit_date r)
    ∧ is_Some (PostRow.touch_date r)
    ∧ PostRow.html r = html_generate (Post.content self)
    ∧ PostRow.slug r = slugify (PostRow.title r)
    ∧ (Post.title self ≠ "" → PostRow.title r = Post.title self)
    ∧ PostRow.author r = Post.author self
    ∧ PostRow.content r = Post.content self
    ∧ PostRow.tag_val r = Post.tag_val self
    ∧ PostRow.views r = Post.views self
    ∧ PostRow.score r = Post.score self
    ∧ PostRow.status r = Post.status self
    ∧ PostRow.type r = Post.type self
    ∧ PostRow.comment_count r = Post.comment_count self
    ∧ PostRow.answer_count r = Post.answer_count self
    ∧ PostRow.accepted r = Post.accepted self
    ∧ PostRow.parent r = Post.parent_id self
    ∧ ∀ k, k ≠ Post.id self → DB.posts (db w') !! k = DB.posts (db w) !! k).
Proof.
  intros Hs Hp. apply Post_save_stored_full; [done|done|].
  intros self' w' (Hset & u & t & Hu & _ & _ & Edb & _) _.
  pose proof (settled_verified _ _ _ Hset) as Hv.
  destruct (verified_fields _ _ Hv)
    as (_ & _ & _ & _ & _ & _ & _ & _ & _ & _ & Hpid & _).
  destruct Hset as (cd & ld & par & ttl & td & -> & Hcd & Hld & _ & _ & Httl & _).
  destruct (revised_frame (verified_as self cd ld par ttl td) u t
              (DB.set_posts (insert (Post.id self)
                 (Post.row (verified_as self cd ld par ttl td))) (db w)))
    as (_ & _ & Eposts & _).
  eexists. rewrite Edb, Eposts. simpl. rewrite lookup_insert_eq.
  split; [reflexivity|]. split; [reflexivity|]. simpl.
  split_and!; try done; try (by eexists);
    try (destruct (Post.root self); by eauto);
    try (destruct (Post.lastedit_user self); by eauto).
  - intros Hne. by destruct (Httl Hne).
  - intros k Hk. by rewrite lookup_insert_ne.
Qed.

(** Every stored revision of the post is dated before the clock. *)
Lemma dated_before_step self' u t d (c c' : time) k :
  (∀ b, b ∈ DB.revisions d → PostRevision.post b = k →
        (PostRevision.date b < c)%nat) →
  (c < t)%nat → (t ≤ c')%nat →
  (DB.revisions (revised self' u t d) ≠ DB.revisions d → (t < c')%nat) →
  ∀ b, b ∈ DB.revisions (revised self' u t d) → PostRevision.post b = k →
       (PostRevision.date b < c')%nat.
Proof.
  intros Hd Hct Htc Hnew b Hb Hk. unfold revised in *.
  repeat case_decide; simpl in *; try (specialize (Hd b Hb Hk); lia).
  apply elem_of_app in Hb as [Hb|Hb]; [specialize (Hd b Hb Hk); lia|].
  apply list_elem_of_singleton in Hb. subst b. simpl. apply Hnew.
  intros E. apply (f_equal length) in E. rewrite length_app in E. simpl in E. lia.
Qed.

(** After the revision step the snapshot is the content of the last
    revision of a question or an answer. *)
Lemma revised_prev self' u t d :
  Post.type self' = POST_QUESTION ∨ Post.type self' = POST_ANSWER →
  (∀ b, b ∈ DB.revisions d → PostRevision.post b = Post.id self' →
        (PostRevision.date b < t)%nat) →
  prev_content (Post.id self') (DB.revisions (revised self' u t d))
  = Post.combine self'.
Proof.
  intros Ht Hd. unfold revised. rewrite decide_True by done.
  case_decide as Hc; [|done]. simpl. unfold prev_content.
  rewrite last_revision_new; [done| |done]. simpl. done.
Qed.

(** X2. Saving a stored post again, unchanged, writes no revision: after a
    save of a stored post whose revisions are dated before the clock, the
    save of the object the first save left returns with the revisions and
    the snapshot as they are. *)
Theorem Post_save_again_no_revision (self : Post.t) (w : World) :
  is_Some (DB.posts (db w) !! Post.id self) →
  parent_ok self w →
  (∀ b, b ∈ DB.revisions (db w) → PostRevision.post b = Post.id self →
        (PostRevision.date b < clock w)%nat) →
  returns (Post_save self) w (fun self1 w1 =>
    returns (Post_save self1) w1 (fun self2 w2 =>
      DB.revisions (db w2) = DB.revisions (db w1)
      ∧ Post.combine self2 = Post.combine self1)).
Proof.
  intros Hs Hp Hd. apply Post_save_stored_full; [done|done|].
  intros self1 w1 (Hset1 & u1 & t1 & Hu1 & Hc1 & Hc1' & Edb1 & Hnew1) Hp1.
  pose proof (settled_verified _ _ _ Hset1) as Hv1.
  destruct (verified_fields _ _ Hv1)
    as (Hid1 & _ & _ & _ & Hty1 & _ & _ & _ & _ & _ & _ & _).
  set (d1 := DB.set_posts (insert (Post.id self) (Post.row self1)) (db w)) in *.
  destruct (revised_frame self1 u1 t1 d1) as (_ & _ & Eposts1 & _).
  apply Post_save_stored_full; [|done|].
  { rewrite Edb1, Eposts1. subst d1. simpl. rewrite Hid1, lookup_insert_eq. eauto. }
  intros self2 w2 (Hset2 & u2 & t2 & Hu2 & Hc2 & Hc2' & Edb2 & _) _.
  pose proof (settled_verified _ _ _ Hset2) as Hv2.
  destruct (verified_fields _ _ Hv2)
    as (Hid2 & _ & _ & _ & Hty2 & _ & Hco2 & Hta2 & _ & _ & _ & _ & Htt2 & _).
  assert (Etitle : Post.title self2 = Post.title self1).
  { destruct (decide (Post.title self1 = "")) as [E|Hne]; [|by apply Htt2].
    destruct Hset1 as (cd & ld & par & ttl & td & -> & _ & _ & _ & _ & _ & _
                       & Hemp & _).
    simpl in E. specialize (Hemp E). subst par.
    destruct Hset2 as (cd' & ld' & par' & ttl' & td' & -> & _ & _ & _ & _ & _
                       & Hun & _).
    simpl in *. by rewrite Hun. }
  assert (Ecomb : Post.combine self2 = Post.combine self1)
    by (unfold Post.combine; congruence).
  split; [|done]. rewrite Edb2. unfold revised at 1.
  case_decide as Ht; [|done].
  simpl. rewrite Hid2, Ecomb.
  rewrite decide_False; [done|]. intros Hne. apply Hne.
  rewrite Edb1. symmetry. apply revised_prev; [by rewrite <- Hty2|].
  intros b Hb Hk. subst d1. simpl in Hb. rewrite Hid1 in Hk.
  specialize (Hd b Hb Hk). lia.
Qed.

(** *** What a save touches *)

(** X3. Whatever the instance and however it ends, [post.save()] changes
    the posts and the revisions only: users, profiles, notes, votes, badges,
    awards and tags are as before.  In particular the save of a new post
    writes no note. *)
Theorem Post_save_touches_posts_and_revisions (self : Post.t) (w : World) :
  let d' := db (final (Post_save self w)) in
  DB.users d' = DB.users (db w)
  ∧ DB.profiles d' = DB.profiles (db w)
  ∧ DB.notes d' = DB.notes (db w)
  ∧ DB.votes d' = DB.votes (db w)
  ∧ DB.badges d' = DB.badges (db w)
  ∧ DB.awards d' = DB.awards (db w)
  ∧ DB.tags d' = DB.tags (db w).
Proof. simpl. split_and!; by apply Post_save_preserves. Qed.

(** X4. [post_create_notification] sends nothing.  It raises NameError when
    the post has a root and some stored post names it as its root, and
    returns otherwise; either way the store is as before. *)
Theorem post_create_notification_cases (post : Post.t) (w : World) :
  let rooted := ∃ k r, DB.posts (db w) !! k = Some r
                       ∧ PostRow.root r = Some (Post.id post) in
  (is_Some (Post.root post) → rooted →
   ∃ w', post_create_notification post w = Raise NameError w' ∧ db w' = db w)
  ∧ (Post.root post = None ∨ ¬ rooted →
     post_create_notification post w = Ok tt w).
Proof.
  simpl. unfold post_create_notification, commit_on_success, bind, gets.
  destruct (Post.root post) as [root|] eqn:Eroot; simpl.
  - set (children := filter _ (map_to_list (DB.posts (db w)))).
    assert (Hch : children ≠ [] ↔
              ∃ k r, DB.posts (db w) !! k = Some r
                     ∧ PostRow.root r = Some (Post.id post)).
    { split.
      - destruct children as [|[k r] l] eqn:E; [done|]. intros _.
        assert (Hin : (k, r) ∈ children) by (rewrite E; left).
        apply list_elem_of_filter in Hin as [Hroot Hin].
        apply elem_of_map_to_list in Hin. eauto.
      - intros (k & r & Hkr & Hroot) E.
        assert (Hin : (k, r) ∈ children).
        { apply list_elem_of_filter. split; [done|].
          by apply elem_of_map_to_list. }
        rewrite E in Hin. by apply elem_of_nil in Hin. }
    set (authors := remove_dups _).
    assert (Hau : authors = [] ↔ children = []).
    { subst authors. split.
      - intros Ed. destruct children as [|c l]; [done|].
        assert (Hin : PostRow.author c.2 ∈ remove_dups
                  ((fun kr : pk * PostRow.t => PostRow.author kr.2) <$> c :: l))
          by (apply elem_of_remove_dups; left).
        rewrite Ed in Hin. by apply elem_of_nil in Hin.
      - by intros ->. }
    destruct authors as [|a l]; simpl.
    + split; [|done]. intros _ Hr. apply Hch in Hr. exfalso. by apply Hr, Hau.
    + split; [intros _ _; eauto|].
      intros [?|Hn]; [done|]. exfalso. apply Hn, Hch.
      intros Ec. by apply Hau in Ec.
  - split; [by intros [? ?]|done].
Qed.

(** *** Lists that only grow *)

Lemma appends_bind {A B C} (f : DB.t → list C) (m : M A) (k : A → M B) :
  appends f m → (∀ a, appends f (k a)) → appends f (bind m k).
Proof.
  intros Hm Hk w. unfold bind. specialize (Hm w).
  destruct (m w) as [a w'|e w']; simpl in *; [|done].
  etrans; [exact Hm|]. apply Hk.
Qed.

Lemma appends_ret {A C} (f : DB.t → list C) (a : A) : appends f (ret a).
Proof. intros w. done. Qed.

Lemma appends_raise {A C} (f : DB.t → list C) e : appends f (raise (A:=A) e).
Proof. intros w. done. Qed.

Lemma appends_gets {A C} (f : DB.t → list C) (g : DB.t → A) : appends f (gets g).
Proof. intros w. done. Qed.

Lemma appends_now {C} (f : DB.t → list C) : appends f now.
Proof. intros w. done. Qed.

Lemma appends_modify {C} (f : DB.t → list C) (g : DB.t → DB.t) :
  (∀ d, f d `prefix_of` f (g d)) → appends f (modify g).
Proof. intros Hg w. apply Hg. Qed.

Lemma appends_commit {A C} (f : DB.t → list C) (m : M A) :
  appends f m → appends f (commit_on_success m).
Proof.
  intros Hm w. unfold commit_on_success. specialize (Hm w).
  destruct (m w); simpl in *; done.
Qed.

Lemma appends_get_one {A C} (f : DB.t → list C) (l : list A) :
  appends f (get_one l).
Proof. intros w. by destruct l as [|? [|? ?]]. Qed.

Lemma appends_lift {A C} (f : DB.t → list C) (r : exn + A) : appends f (lift r).
Proof. intros w. by destruct r. Qed.

Ltac grow_with tac :=
  repeat first
    [ progress intros
    | tac
    | apply appends_bind
    | apply appends_commit
    | apply appends_ret
    | apply appends_raise
    | apply appends_gets
    | apply appends_now
    | apply appends_get_one
    | apply appends_lift
    | (apply appends_modify; intros; simpl;
       first [reflexivity | by apply prefix_app_r])
    | case_decide
    | case_match ].

Section Grows.
Context {C : Type} (f : DB.t → list C).
Hypothesis f_posts : ∀ g d, f (DB.set_posts g d) = f d.
Hypothesis f_profiles : ∀ g d, f (DB.set_profiles g d) = f d.
Hypothesis f_votes : ∀ g d, f (DB.set_votes g d) = f d.
Hypothesis f_revisions : ∀ x d, f d `prefix_of` f (DB.set_revisions (fun l => l ++ [x]) d).
Hypothesis f_notes : ∀ x d, f d `prefix_of` f (DB.set_notes (fun l => l ++ [x]) d).

Lemma appends_same (g : DB.t → DB.t) :
  (∀ d, f (g d) = f d) → appends f (modify g).
Proof. intros Hg. apply appends_modify. intros d. by rewrite Hg. Qed.

Lemma Post_parent_appends self : appends f (Post_parent self).
Proof. unfold Post_parent, fetch_post. grow_with fail. Qed.

Lemma verify_post_appends self : appends f (verify_post self).
Proof.
  unfold verify_post, settle_title.
  grow_with ltac:(apply Post_parent_appends).
Qed.

Lemma create_revision_appends post : appends f (create_revision post).
Proof.
  unfold create_revision, PostRevision_create.
  grow_with ltac:(apply appends_modify; intros; apply f_revisions).
Qed.

Lemma finalize_post_appends instance created :
  appends f (finalize_post instance created).
Proof.
  unfold finalize_post, post_create_notification.
  grow_with ltac:(apply create_revision_appends).
Qed.

Lemma Post_save_rec_appends n self : appends f (Post_save_rec n self).
Proof.
  revert self. induction n as [|n IH]; intros self; [apply appends_raise|].
  rewrite Post_save_rec_S. apply appends_bind; [apply verify_post_appends|].
  intros self1. apply appends_bind; [apply appends_gets|]. intros created.
  apply appends_bind; [apply appends_same; intros; apply f_posts|].
  intros _. apply appends_bind.
  { destruct created; [|apply appends_ret]. unfold Post_apply_with.
    grow_with ltac:(first [apply IH | apply Post_parent_appends]). }
  intros self2. apply appends_bind; [apply finalize_post_appends|].
  intros _. apply appends_ret.
Qed.

Lemma Post_save_appends self : appends f (Post_save self).
Proof. apply Post_save_rec_appends. Qed.

Lemma Vote_apply_appends v dir : appends f (Vote_apply v dir).
Proof.
  unfold Vote_apply, Vote_post, UserProfile_save, get_profile, fetch_post.
  grow_with ltac:(first
    [ apply Post_save_appends | apply Post_parent_appends
    | (apply appends_same; intros; apply f_profiles) ]).
Qed.

Lemma moderator_action_appends post user action :
  appends f (moderator_action post user action).
Proof.
  unfold moderator_action, send_note, Note_create.
  grow_with ltac:(first
    [ apply Post_save_appends
    | (apply appends_modify; intros; apply f_notes) ]).
Qed.

Lemma add_vote_appends self user t : appends f (add_vote self user t).
Proof.
  unfold add_vote, Vote_save.
  grow_with ltac:(first
    [ apply Vote_apply_appends
    | (apply appends_same; intros; apply f_votes) ]).
Qed.

Lemma remove_vote_appends self user t : appends f (remove_vote self user t).
Proof.
  unfold remove_vote, get_vote, Vote_delete.
  grow_with ltac:(first
    [ apply Vote_apply_appends
    | (apply appends_same; intros; apply f_votes) ]).
Qed.

End Grows.

(** X5. The revisions and the notes only grow: whatever the arguments and
    however the call ends, the revisions and the notes stored before a save
    of a post, the apply of a vote, a moderator action, [add_vote] or
    [remove_vote] are a prefix of those stored after it. *)
Theorem revisions_and_notes_append_only :
  (∀ self, appends DB.revisions (Post_save self)
           ∧ appends DB.notes (Post_save self))
  ∧ (∀ v dir, appends DB.revisions (Vote_apply v dir)
              ∧ appends DB.notes (Vote_apply v dir))
  ∧ (∀ post user action,
       appends DB.revisions (moderator_action post user action)
       ∧ appends DB.notes (moderator_action post user action))
  ∧ (∀ self user t, appends DB.revisions (add_vote self user t)
                    ∧ appends DB.notes (add_vote self user t))
  ∧ (∀ self user t, appends DB.revisions (remove_vote self user t)
                    ∧ appends DB.notes (remove_vote self user t)).
Proof.
  assert (Hr : ∀ x d, DB.revisions d `prefix_of`
                 DB.revisions (DB.set_revisions (fun l => l ++ [x]) d))
    by (intros; by apply prefix_app_r).
  assert (Hn : ∀ x d, DB.notes d `prefix_of`
                 DB.notes (DB.set_notes (fun l => l ++ [x]) d))
    by (intros; by apply prefix_app_r).
  assert (Hrn : ∀ (x : Note.t) d, DB.revisions d `prefix_of`
                 DB.revisions (DB.set_notes (fun l => l ++ [x]) d)) by done.
  assert (Hnr : ∀ (x : PostRevision.t) d, DB.notes d `prefix_of`
                 DB.notes (DB.set_revisions (fun l => l ++ [x]) d)) by done.
  split_and!; intros; split.
  - by apply Post_save_appends.
  - by apply Post_save_appends.
  - by apply Vote_apply_appends.
  - by apply Vote_apply_appends.
  - by apply moderator_action_appends.
  - by apply moderator_action_appends.
  - by apply add_vote_appends.
  - by apply add_vote_appends.
  - by apply remove_vote_appends.
  - by apply remove_vote_appends.
Qed.

(** *** The counters of the parent *)

Lemma parent_is_Post_parent self q w :
  parent_is self q (db w) → Post_parent self w = Ok (Some q) w.
Proof.
  unfold Post_parent. intros [->|(k & r & -> & Er & ->)]; [done|].
  unfold fetch_post, bind, gets. by rewrite Er.
Qed.

(** [Post.apply] on a post whose parent object is stored, at any level of
    the nesting. *)
Lemma Post_apply_with_counts save self q dir w (Q : Post.t → World → Prop) :
  (∀ x, ∃ n, save x = Post_save_rec (S n) x) →
  parent_is self q (db w) →
  is_Some (DB.posts (db w) !! Post.id q) → parent_ok q w →
  (∀ q' w',
     Post.id q' = Post.id q
     → Post.answer_count q' = Post.answer_count q + answer_delta (Post.type self) dir
     → Post.comment_count q' = Post.comment_count q + comment_delta (Post.type self) dir
     → (Post.type self = POST_ANSWER ∨ Post.type self = POST_COMMENT →
        DB.posts (db w') !! Post.id q = Some (Post.row q')
        ∧ ∃ q0, stored_save q0 w q' w' ∧ Post.id q0 = Post.id q
                ∧ Post.root q0 = Post.root q ∧ Post.type q0 = Post.type q)
     → (Post.type self ≠ POST_ANSWER → Post.type self ≠ POST_COMMENT →
        w' = w ∧ q' = q)
     → (∀ k, k ≠ Post.id q → DB.posts (db w') !! k = DB.posts (db w) !! k)
     → parent_ok q' w'
     → Q (Post.set_parent self (Obj q')) w') →
  returns (Post_apply_with save self dir) w Q.
Proof.
  intros Hsave Hq Hs Hp HQ. unfold Post_apply_with.
  apply returns_bind. exists (Some q), w.
  split; [by apply parent_is_Post_parent|].
  unfold answer_delta, comment_delta in HQ.
  assert (Hrow : ∀ q0 q' w', stored_save q0 w q' w' → Post.id q0 = Post.id q →
            DB.posts (db w') !! Post.id q = Some (Post.row q')
            ∧ ∀ k, k ≠ Post.id q → DB.posts (db w') !! k = DB.posts (db w) !! k).
  { intros q0 q' w' (_ & u & t & _ & _ & _ & Edb & _) Eid. rewrite Edb.
    destruct (revised_frame q' u t
                (DB.set_posts (insert (Post.id q0) (Post.row q')) (db w)))
      as (_ & _ & -> & _). simpl. rewrite Eid. split.
    - apply lookup_insert_eq.
    - intros k Hk. by rewrite lookup_insert_ne. }
  destruct (decide (Post.type self = POST_ANSWER)) as [Ha|Ha].
  - apply returns_bind.
    destruct (Hsave (Post.set_answer_count q (Post.answer_count q + dir)))
      as [n ->].
    apply Post_save_rec_stored; [done|done|].
    intros q' w' Hst Hp'. pose proof Hst as [Hset _].
    destruct (verified_fields _ _ (settled_verified _ _ _ Hset))
      as (Hid & _ & _ & _ & _ & _ & _ & _ & _ & _ & _ & _).
    assert (Hac : Post.answer_count q' = Post.answer_count q + dir
                  ∧ Post.comment_count q' = Post.comment_count q).
    { destruct Hset as (? & ? & ? & ? & ? & -> & _). done. }
    destruct Hac as [Hac Hcc].
    destruct (Hrow _ _ _ Hst eq_refl) as [Hr Hoth].
    rewrite decide_False by (rewrite Ha; done).
    apply returns_bind, returns_ret, returns_ret.
    rewrite decide_False in HQ by (rewrite Ha; done).
    apply HQ; try done; [lia|].
    intros _. split; [done|]. eexists. split; [exact Hst|]. done.
  - apply returns_bind, returns_ret.
    destruct (decide (Post.type self = POST_COMMENT)) as [Hc|Hc].
    + apply returns_bind.
      destruct (Hsave (Post.set_comment_count q (Post.comment_count q + dir)))
        as [n ->].
      apply Post_save_rec_stored; [done|done|].
      intros q' w' Hst Hp'. pose proof Hst as [Hset _].
      destruct (verified_fields _ _ (settled_verified _ _ _ Hset))
        as (Hid & _ & _ & _ & _ & _ & _ & _ & _ & _ & _ & _).
      assert (Hac : Post.answer_count q' = Post.answer_count q
                    ∧ Post.comment_count q' = Post.comment_count q + dir).
      { destruct Hset as (? & ? & ? & ? & ? & -> & _). done. }
      destruct Hac as [Hac Hcc].
      destruct (Hrow _ _ _ Hst eq_refl) as [Hr Hoth].
      apply returns_ret. apply HQ; try done; [lia|].
      intros _. split; [done|]. eexists. split; [exact Hst|]. done.
    + apply returns_bind, returns_ret, returns_ret.
      apply HQ; try done; try lia; by intros [?|?].
Qed.

(** X6. [Post.apply] on a post whose parent object is stored returns.  For
    an answer it adds [dir] to the answer count of the parent, for a comment
    to its comment count, on the parent object and in its row; for a post of
    another type it changes nothing.  No other row changes. *)
Theorem Post_apply_counts (self q : Post.t) (dir : Z) (w : World) :
  parent_is self q (db w) →
  is_Some (DB.posts (db w) !! Post.id q) → parent_ok q w →
  returns (Post_apply self dir) w (fun self' w' => ∃ q',
    Post.parent self' = Obj q'
    ∧ Post.answer_count q' = Post.answer_count q + answer_delta (Post.type self) dir
    ∧ Post.comment_count q' = Post.comment_count q + comment_delta (Post.type self) dir
    ∧ (Post.type self = POST_ANSWER ∨ Post.type self = POST_COMMENT →
       PostRow.answer_count <$> DB.posts (db w') !! Post.id q
       = Some (Post.answer_count q + answer_delta (Post.type self) dir)
       ∧ PostRow.comment_count <$> DB.posts (db w') !! Post.id q
         = Some (Post.comment_count q + comment_delta (Post.type self) dir))
    ∧ (Post.type self ≠ POST_ANSWER → Post.type self ≠ POST_COMMENT → w' = w)
    ∧ ∀ k, k ≠ Post.id q → DB.posts (db w') !! k = DB.posts (db w) !! k).
Proof.
  intros Hq Hs Hp. unfold Post_apply.
  apply (Post_apply_with_counts _ self q); [by eexists|done|done|done|].
  intros q' w' Hid Hac Hcc Hrow Hnone Hoth _. exists q'.
  split_and!; try done.
  - intros Ht. destruct (Hrow Ht) as [-> _]. simpl. by rewrite Hac, Hcc.
  - intros Ha Hc. by destruct (Hnone Ha Hc).
Qed.

(** X7. [Post.apply] with direction +1 and then, on the object it leaves,
    with direction -1 returns both times and brings the answer count and
    the comment count of the parent back, on the parent object and, for an
    answer or a comment, in its row. *)
Theorem Post_apply_round_trip (self q : Post.t) (w : World) :
  parent_is self q (db w) →
  is_Some (DB.posts (db w) !! Post.id q) → parent_ok q w →
  returns (Post_apply self 1) w (fun self1 w1 =>
    returns (Post_apply self1 (-1)) w1 (fun self2 w2 => ∃ q2,
      Post.parent self2 = Obj q2
      ∧ Post.answer_count q2 = Post.answer_count q
      ∧ Post.comment_count q2 = Post.comment_count q
      ∧ (Post.type self = POST_ANSWER ∨ Post.type self = POST_COMMENT →
         PostRow.answer_count <$> DB.posts (db w2) !! Post.id q
         = Some (Post.answer_count q)
         ∧ PostRow.comment_count <$> DB.posts (db w2) !! Post.id q
           = Some (Post.comment_count q)))).
Proof.
  intros Hq Hs Hp. unfold Post_apply.
  apply (Post_apply_with_counts _ self q); [by eexists|done|done|done|].
  intros q1 w1 Hid1 Hac1 Hcc1 Hrow1 Hnone1 Hoth1 Hp1.
  assert (Hs1 : is_Some (DB.posts (db w1) !! Post.id q1)).
  { rewrite Hid1.
    destruct (decide (Post.type self = POST_ANSWER ∨ Post.type self = POST_COMMENT))
      as [Ht|Ht].
    - destruct (Hrow1 Ht) as [-> _]. eauto.
    - destruct Hnone1 as [-> _]; [by intros ?; apply Ht; left
                                 |by intros ?; apply Ht; right|done]. }
  apply (Post_apply_with_counts _ _ q1); [by eexists|by left|done|done|].
  simpl. intros q2 w2 Hid2 Hac2 Hcc2 Hrow2 _ _ _. exists q2.
  unfold answer_delta, comment_delta in *.
  split_and!; [done| | |].
  - rewrite Hac2, Hac1. repeat case_decide; lia.
  - rewrite Hcc2, Hcc1. repeat case_decide; lia.
  - intros Ht. destruct (Hrow2 Ht) as [Er _]. rewrite Hid1 in Er. rewrite Er.
    simpl. rewrite Hac2, Hac1, Hcc2, Hcc1.
    split; f_equal; repeat case_decide; lia.
Qed.

(** *** Awards *)

Lemma decorated_eq b dir p :
  (let prof := if decide (b = BADGE_BRONZE)
               then UserProfile.set_bronze_badges p (UserProfile.bronze_badges p + dir)
               else p in
   let prof := if decide (b = BADGE_SILVER)
               then UserProfile.set_silver_badges prof (UserProfile.silver_badges prof + dir)
               else prof in
   if decide (b = BADGE_GOLD)
   then UserProfile.set_gold_badges prof (UserProfile.gold_badges prof + dir)
   else prof) = decorated b dir p.
Proof.
  unfold decorated, medal, BADGE_BRONZE, BADGE_SILVER, BADGE_GOLD.
  destruct p as [s br si go]. simpl.
  repeat case_decide; try lia;
    unfold UserProfile.set_bronze_badges, UserProfile.set_silver_badges,
      UserProfile.set_gold_badges; simpl; f_equal; lia.
Qed.

(** [Award.apply] for a user who has a profile, as one step. *)
Lemma Award_apply_eq self dir w p :
  DB.profiles (db w) !! Award.user self = Some p →
  Award_apply self dir w =
    Ok (Award.set_badge self
          (Badge.set_count (Award.badge self) (Badge.count (Award.badge self) + dir)))
       (final (Badge_save
          (Badge.set_count (Award.badge self) (Badge.count (Award.badge self) + dir))
          (mkWorld (DB.set_profiles (insert (Award.user self)
                      (decorated (Badge.type (Award.badge self)) dir p)) (db w))
                   (clock w)))).
Proof.
  intros Ep. unfold Award_apply, get_profile, UserProfile_save.
  unfold bind at 1. unfold bind at 1. unfold gets at 1. simpl. rewrite Ep. simpl.
  rewrite decorated_eq. reflexivity.
Qed.

(** What [badge.save()] leaves in the list of badges: the object, as the
    only badge of its key, beside the badges of the other keys. *)
Lemma Badge_save_badges b w d' :
  d' = db (final (Badge_save b w)) →
  b ∈ DB.badges d'
  ∧ (∀ x, x ∈ DB.badges d' → Badge.id x = Badge.id b → x = b)
  ∧ (∀ x, Badge.id x ≠ Badge.id b → x ∈ DB.badges d' ↔ x ∈ DB.badges (db w))
  ∧ DB.profiles d' = DB.profiles (db w) ∧ DB.awards d' = DB.awards (db w)
  ∧ DB.notes d' = DB.notes (db w) ∧ DB.users d' = DB.users (db w)
  ∧ clock (final (Badge_save b w)) = clock w.
Proof.
  intros ->. simpl. split_and!; try done.
  - case_bool_decide as Hin.
    + apply list_elem_of_fmap in Hin as (y & Ey & Hy).
      apply list_elem_of_fmap. exists y. split; [|done].
      by rewrite decide_True.
    + apply elem_of_app. right. by apply list_elem_of_singleton.
  - intros x Hx Ex. case_bool_decide as Hin.
    + apply list_elem_of_fmap in Hx as (y & -> & Hy). case_decide; [done|].
      done.
    + apply elem_of_app in Hx as [Hx|Hx].
      * exfalso. apply Hin. rewrite <- Ex. by apply list_elem_of_fmap_2.
      * by apply list_elem_of_singleton in Hx.
  - intros x Hx. case_bool_decide as Hin.
    + rewrite list_elem_of_fmap. split.
      * intros (y & -> & Hy). case_decide as E; [by destruct Hx|done].
      * intros Hin'. exists x. split; [|done]. by rewrite decide_False.
    + rewrite elem_of_app, list_elem_of_singleton. split; [|by left].
      intros [?| ->]; [done|by destruct Hx].
Qed.

(** X8. [Award.apply] for a user who has a profile returns.  It adds [dir]
    to the counter of the profile that goes with the type of the badge
    (bronze, silver or gold; to none for another type), leaves the reputation
    and the profiles of the other users alone, and adds [dir] to the count of
    the badge, on the object and stored under its key. *)
Theorem Award_apply_ledger (self : Award.t) (dir : Z) (w : World)
    (p : UserProfile.t) :
  DB.profiles (db w) !! Award.user self = Some p →
  returns (Award_apply self dir) w (fun self' w' =>
    let b := Badge.type (Award.badge self) in
    Award.user self' = Award.user self
    ∧ Badge.id (Award.badge self') = Badge.id (Award.badge self)
    ∧ Badge.count (Award.badge self') = Badge.count (Award.badge self) + dir
    ∧ DB.profiles (db w') !! Award.user self = Some (decorated b dir p)
    ∧ UserProfile.score (decorated b dir p) = UserProfile.score p
    ∧ (UserProfile.bronze_badges (decorated b dir p)
       + UserProfile.silver_badges (decorated b dir p)
       + UserProfile.gold_badges (decorated b dir p)
       = UserProfile.bronze_badges p + UserProfile.silver_badges p
         + UserProfile.gold_badges p
         + (if decide (b = BADGE_BRONZE ∨ b = BADGE_SILVER ∨ b = BADGE_GOLD)
            then dir else 0))
    ∧ (∀ u, u ≠ Award.user self → DB.profiles (db w') !! u = DB.profiles (db w) !! u)
    ∧ Award.badge self' ∈ DB.badges (db w')
    ∧ (∀ x, x ∈ DB.badges (db w') → Badge.id x = Badge.id (Award.badge self) →
            x = Award.badge self')).
Proof.
  intros Ep. eexists _, _. split; [by apply Award_apply_eq|]. cbv beta zeta.
  set (b' := Badge.set_count _ _).
  set (w1 := mkWorld _ _).
  destruct (Badge_save_badges b' w1 _ eq_refl) as (Hin & Honly & _ & Epr & _).
  split_and!; try done.
  - rewrite Epr. subst w1. simpl. by rewrite lookup_insert_eq.
  - unfold decorated, medal, BADGE_BRONZE, BADGE_SILVER, BADGE_GOLD. simpl.
    repeat case_decide; lia.
  - intros u Hu. rewrite Epr. subst w1. simpl. by rewrite lookup_insert_ne.
Qed.






(** [Award.objects.create] for a user who has a profile, as one step. *)
Lemma Award_create_eq badge user w p :
  DB.profiles (db w) !! user = Some p →
  Award_create badge user w =
    Ok (Award.mk (Some (fresh_pk (AwardRow.id <$> DB.awards (db w))))
          (Badge.set_count badge (Badge.count badge + 1)) user (Some (clock w)))
       (final (Badge_save (Badge.set_count badge (Badge.count badge + 1))
          (mkWorld (DB.set_profiles (insert user (decorated (Badge.type badge) 1 p))
                      (DB.set_awards (fun l => l ++
                         [AwardRow.mk (fresh_pk (AwardRow.id <$> DB.awards (db w)))
                            (Badge.id badge) user (clock w)]) (db w)))
                   (S (clock w))))).
Proof.
  intros Ep. unfold Award_create.
  erewrite bind_Ok by reflexivity.
  erewrite bind_Ok by reflexivity.
  erewrite bind_Ok by reflexivity.
  by erewrite (Award_apply_eq _ _ _ p) by done.
Qed.

(** X10. [apply_award] for an award that is not a duplicate of a unique
    badge: with the badge of that name, the community user and the profile of
    the user in place, the award is stored with the clock as its date, the
    counter of the profile and the count of the badge go up by one, and then
    the call raises AttributeError at [Note.send]; no note is written. *)
Theorem apply_award_stores_then_raises (user : pk) (badge_name : string)
    (badge : Badge.t) (c : UserRow.t) (p : UserProfile.t) (w : World) :
  filter (fun b => Badge.name b = badge_name) (DB.badges (db w)) = [badge] →
  (Badge.unique badge = true →
   ∀ a, a ∈ DB.awards (db w) → AwardRow.badge a = Badge.id badge →
        AwardRow.user a ≠ user) →
  filter (fun u => UserRow.username u = "community"%string) (DB.users (db w)) = [c] →
  DB.profiles (db w) !! user = Some p →
  ∃ w', apply_award user badge_name w = Raise AttributeError w'
    ∧ DB.awards (db w') = DB.awards (db w) ++
        [AwardRow.mk (fresh_pk (AwardRow.id <$> DB.awards (db w)))
           (Badge.id badge) user (clock w)]
    ∧ DB.profiles (db w') = <[user := decorated (Badge.type badge) 1 p]>
                              (DB.profiles (db w))
    ∧ (∃ b, b ∈ DB.badges (db w') ∧ Badge.id b = Badge.id badge
            ∧ Badge.count b = Badge.count badge + 1
            ∧ ∀ x, x ∈ DB.badges (db w') → Badge.id x = Badge.id badge → x = b)
    ∧ DB.notes (db w') = DB.notes (db w).
Proof.
  intros Eb Hnew Ec Ep. unfold apply_award.
  erewrite bind_Ok by reflexivity. rewrite Eb.
  erewrite bind_Ok by reflexivity.
  erewrite bind_Ok by reflexivity.
  assert (Hgo : bool_decide (filter (fun a => AwardRow.badge a = Badge.id badge
                                              ∧ AwardRow.user a = user)
                               (DB.awards (db w)) ≠ []) && Badge.unique badge = false).
  { destruct (Badge.unique badge) eqn:Eu; [|by rewrite andb_false_r].
    rewrite andb_true_r. apply bool_decide_eq_false. intros Hne. apply Hne.
    set (held := filter _ (DB.awards (db w))).
    destruct held as [|a l] eqn:Ef; [done|]. exfalso.
    assert (Ha : a ∈ held) by (rewrite Ef; left).
    apply list_elem_of_filter in Ha as [[Hb Hu] Ha]. by apply (Hnew eq_refl a). }
  rewrite Hgo.
  erewrite bind_Ok by reflexivity. rewrite Ec.
  erewrite bind_Ok by reflexivity.
  erewrite bind_Ok by (by apply (Award_create_eq _ _ _ p)).
  eexists. split; [reflexivity|].
  set (b' := Badge.set_count _ _).
  set (w1 := mkWorld _ _).
  destruct (Badge_save_badges b' w1 _ eq_refl)
    as (Hin & Honly & _ & Epr & Eaw & Eno & _).
  split_and!; [by rewrite Eaw|by rewrite Epr| |by rewrite Eno].
  exists b'. split_and!; done.
Qed.

Lemma apply_award_preserves_notes user badge_name :
  preserves DB.notes (apply_award user badge_name).
Proof.
  unfold apply_award, Award_create, Award_apply, get_profile, UserProfile_save,
    Badge_save.
  frame.
Qed.

(** X11. [apply_award] never writes a note, however it ends.  When it
    returns, the store and the clock are as before and the user already held
    an award of the badge of that name, which is unique: after a new award it
    never returns. *)
Theorem apply_award_never_notifies (user : pk) (badge_name : string) (w : World) :
  DB.notes (db (final (apply_award user badge_name w))) = DB.notes (db w)
  ∧ ∀ r w', apply_award user badge_name w = Ok r w' →
      w' = w
      ∧ ∃ badge a, badge ∈ DB.badges (db w) ∧ Badge.name badge = badge_name
          ∧ Badge.unique badge = true
          ∧ a ∈ DB.awards (db w) ∧ AwardRow.badge a = Badge.id badge
          ∧ AwardRow.user a = user.
Proof.
  split; [apply apply_award_preserves_notes|].
  intros r w'. unfold apply_award.
  unfold bind at 1. unfold gets at 1.
  set (bs := filter _ (DB.badges (db w))).
  unfold bind at 1.
  destruct bs as [|badge [|b2 bs']] eqn:Ebs; simpl; [done| |done].
  unfold bind at 1. unfold gets at 1. simpl.
  set (held := filter _ (DB.awards (db w))).
  destruct (bool_decide (held ≠ []) && Badge.unique badge) eqn:Ego.
  - intros [= <- <-]. split; [done|].
    apply andb_true_iff in Ego as [Hne%bool_decide_eq_true Hu].
    destruct held as [|a l] eqn:Eh; [done|].
    assert (Ha : a ∈ held) by (rewrite Eh; left).
    apply list_elem_of_filter in Ha as [[Hb Hau] Ha].
    assert (Hbin : badge ∈ bs) by (rewrite Ebs; left).
    apply list_elem_of_filter in Hbin as [Hn Hbin].
    exists badge, a. done.
  - unfold bind at 1. unfold gets at 1. simpl.
    unfold bind at 1.
    destruct (get_one _ w) as [c w1|e w1]; [|done].
    unfold bind. by destruct (Award_create badge user w1).
Qed.

(** *** Tag counts *)

Lemma bumped_0 (o : option TagRow.t) : bumped 0 <$> o = o.
Proof.
  destruct o as [[n c]|]; [|done]. unfold bumped. simpl.
  by rewrite Z.add_0_r.
Qed.

Lemma bumped_bumped a b (o : option TagRow.t) :
  bumped b <$> (bumped a <$> o) = bumped (a + b) <$> o.
Proof.
  destruct o as [[n c]|]; [|done]. unfold bumped. simpl.
  by rewrite Z.add_assoc.
Qed.

Lemma set_tags_const (d : DB.t) : DB.set_tags (fun _ => DB.tags d) d = d.
Proof. by destruct d. Qed.

(** [tag.count += delta; tag.save()] on a stored tag: an update. *)
Lemma Tag_bump_stored delta tag w :
  is_Some (DB.tags (db w) !! Tag.id tag) →
  Tag_bump delta tag w =
    Ok tt (mkWorld (DB.set_tags (insert (Tag.id tag)
                      (TagRow.mk (Tag.name tag) (Tag.count tag + delta))) (db w))
             (clock w)).
Proof.
  intros [r Hr].
  unfold Tag_bump, Tag_save, Tag_write, tag_created, bind, gets, modify, ret.
  simpl. rewrite Hr. by rewrite bool_decide_false by done.
Qed.

Lemma Tag_get_bump delta k r w :
  DB.tags (db w) !! k = Some r →
  (tag <- Tag_get k ;; Tag_bump delta tag) w =
    Ok tt (mkWorld (DB.set_tags (insert k (bumped delta r)) (db w)) (clock w)).
Proof.
  intros Hr. unfold Tag_get. unfold bind at 1. unfold bind at 1.
  unfold gets at 1. rewrite Hr. simpl.
  rewrite Tag_bump_stored by (simpl; eauto). done.
Qed.

Lemma for_each_app {A} (l1 l2 : list A) (body : A → M unit) w :
  for_each (l1 ++ l2) body w =
    match for_each l1 body w with
    | Ok _ w1 => for_each l2 body w1
    | Raise e w1 => Raise e w1
    end.
Proof.
  revert w. induction l1 as [|a l1 IH]; intros w; [done|].
  simpl. unfold bind. destruct (body a w) as [[] w1|e w1]; [|done]. apply IH.
Qed.

(** The loop over the keys of the signal, on stored tags. *)
Lemma bump_keys delta (l : list pk) w :
  NoDup l → (∀ k, k ∈ l → is_Some (DB.tags (db w) !! k)) →
  ∃ m, for_each l (fun k => tag <- Tag_get k ;; Tag_bump delta tag) w
       = Ok tt (mkWorld (DB.set_tags (fun _ => m) (db w)) (clock w))
     ∧ ∀ k, m !! k = bumped (if decide (k ∈ l) then delta else 0)
                       <$> DB.tags (db w) !! k.
Proof.
  revert w. induction l as [|a l IH]; intros w Hnd Hst.
  - exists (DB.tags (db w)). split.
    + simpl. unfold ret. rewrite set_tags_const. by destruct w.
    + intros k. rewrite decide_False by apply not_elem_of_nil.
      by rewrite bumped_0.
  - apply NoDup_cons in Hnd as [Ha Hnd].
    destruct (Hst a) as [r Hr]; [left|].
    set (w1 := mkWorld (DB.set_tags (insert a (bumped delta r)) (db w)) (clock w)).
    destruct (IH w1 Hnd) as (m & Em & Hm).
    { intros k Hk. subst w1. simpl. apply lookup_insert_is_Some'. right.
      apply Hst. by right. }
    exists m. split.
    + simpl. erewrite bind_Ok by (by apply Tag_get_bump). fold w1. rewrite Em.
      done.
    + intros k. rewrite Hm. subst w1. simpl.
      destruct (decide (k = a)) as [->|Hk].
      * rewrite lookup_insert_eq, Hr. simpl.
        rewrite decide_False by done. rewrite decide_True by left.
        f_equal. unfold bumped. simpl. f_equal. lia.
      * rewrite lookup_insert_ne by done.
        destruct (decide (k ∈ l)) as [Hin|Hin].
        -- by rewrite decide_True by (by right).
        -- rewrite decide_False; [done|].
           intros [?|?]%elem_of_cons; done.
Qed.

(** The loop over tag objects read before it starts. *)
Lemma bump_tags delta (ts : list Tag.t) w :
  NoDup (Tag.id <$> ts) →
  (∀ t, t ∈ ts → is_Some (DB.tags (db w) !! Tag.id t)) →
  ∃ m, for_each ts (Tag_bump delta) w
       = Ok tt (mkWorld (DB.set_tags (fun _ => m) (db w)) (clock w))
     ∧ (∀ t, t ∈ ts →
          m !! Tag.id t = Some (TagRow.mk (Tag.name t) (Tag.count t + delta)))
     ∧ (∀ k, k ∉ Tag.id <$> ts → m !! k = DB.tags (db w) !! k).
Proof.
  revert w. induction ts as [|a ts IH]; intros w Hnd Hst.
  - exists (DB.tags (db w)). split_and!.
    + simpl. unfold ret. rewrite set_tags_const. by destruct w.
    + by intros t ?%elem_of_nil.
    + done.
  - rewrite fmap_cons in Hnd. apply NoDup_cons in Hnd as [Ha Hnd].
    set (w1 := mkWorld (DB.set_tags (insert (Tag.id a)
                  (TagRow.mk (Tag.name a) (Tag.count a + delta))) (db w)) (clock w)).
    destruct (IH w1 Hnd) as (m & Em & Hin & Hout).
    { intros t Ht. subst w1. simpl. apply lookup_insert_is_Some'. right.
      apply Hst. by right. }
    exists m. split_and!.
    + simpl. erewrite bind_Ok by (apply Tag_bump_stored, Hst; left).
      fold w1. by rewrite Em.
    + intros t [->|Ht]%elem_of_cons; [|by apply Hin].
      rewrite Hout by done. subst w1. simpl. by rewrite lookup_insert_eq.
    + intros k Hk. rewrite fmap_cons in Hk. apply not_elem_of_cons in Hk as [Hka Hk].
      rewrite Hout by done. subst w1. simpl. by rewrite lookup_insert_ne.
Qed.

(** The tags [instance.tag_set.all()] gives for the keys [l]. *)
Lemma tag_set_all (d : DB.t) (l : list pk) :
  NoDup l →
  let ts := omap (fun k => (fun r => Tag.mk k (TagRow.name r) (TagRow.count r))
                             <$> DB.tags d !! k) l in
  NoDup (Tag.id <$> ts)
  ∧ (∀ t, t ∈ ts ↔ Tag.id t ∈ l
                    ∧ DB.tags d !! Tag.id t
                      = Some (TagRow.mk (Tag.name t) (Tag.count t))).
Proof.
  intros Hnd. simpl.
  set (f := fun k => _).
  assert (Hf : ∀ k t, f k = Some t ↔
            Tag.id t = k ∧ DB.tags d !! k = Some (TagRow.mk (Tag.name t) (Tag.count t))).
  { intros k t. subst f. simpl. destruct (DB.tags d !! k) as [[n c]|]; simpl.
    - split.
      + by intros [= <-].
      + intros [<- [= -> ->]]. by destruct t.
    - split; [done|]. by intros [_ ?]. }
  assert (Hts : ∀ t, t ∈ omap f l ↔ Tag.id t ∈ l
              ∧ DB.tags d !! Tag.id t = Some (TagRow.mk (Tag.name t) (Tag.count t))).
  { intros t. rewrite list_elem_of_omap. split.
    - intros (k & Hk & [<- Hr]%Hf). done.
    - intros [Hk Hr]. exists (Tag.id t). split; [done|]. by apply Hf. }
  split; [|done]. clear Hts.
  induction l as [|k l IH]; [constructor|].
  apply NoDup_cons in Hnd as [Hk Hnd]. simpl.
  destruct (f k) as [t|] eqn:Ek; [|by apply IH].
  rewrite fmap_cons. apply NoDup_cons. split; [|by apply IH].
  apply Hf in Ek as [-> _].
  intros (t' & Eid & Ht')%list_elem_of_fmap.
  apply list_elem_of_omap in Ht' as (k' & Hk' & [<- _]%Hf). by rewrite Eid in Hk.
Qed.

(** [tags_changed] on an action that walks the keys of the signal. *)
Lemma tags_changed_keys tag_set action delta pk_set w :
  (action = "post_add"%string ∧ delta = 1)
  ∨ (action = "post_delete"%string ∧ delta = -1) →
  tags_changed tag_set action pk_set w =
    for_each pk_set (fun k => tag <- Tag_get k ;; Tag_bump delta tag) w.
Proof.
  unfold tags_changed.
  set (body := for_each pk_set _).
  intros [[-> ->]|[-> ->]].
  - rewrite ?decide_True by done. rewrite ?decide_False by done.
    subst body. unfold bind, ret. by destruct (for_each _ _ w) as [[] ?|? ?].
  - rewrite ?decide_False by done. rewrite ?decide_True by done.
    rewrite ?decide_False by done.
    unfold bind, ret. by destruct (for_each _ _ w) as [[] ?|? ?].
Qed.

Ltac tag_cases :=
  repeat case_decide; first [done | exfalso; intuition congruence].

(** X12. [tags_changed] for a signal whose keys are distinct and, when they
    are walked, stored: it returns, and the count of a tag goes up by one
    when the action is [post_add] and the key is in the signal, down by one
    when the action is [post_delete] and the key is in the signal or when
    the action is [pre_clear] and the tag is in the tag set of the post; for
    any other action, [post_remove] and [post_clear] among them, no count
    moves.  Nothing else in the store changes. *)
Theorem tags_changed_counts (tag_set : list pk) (action : string)
    (pk_set : list pk) (w : World) :
  NoDup pk_set → NoDup tag_set →
  (action = "post_add"%string ∨ action = "post_delete"%string →
   ∀ k, k ∈ pk_set → is_Some (DB.tags (db w) !! k)) →
  returns (tags_changed tag_set action pk_set) w (fun _ w' =>
    ∃ m, w' = mkWorld (DB.set_tags (fun _ => m) (db w)) (clock w)
      ∧ ∀ k, m !! k = bumped (tag_delta tag_set action pk_set k)
                        <$> DB.tags (db w) !! k).
Proof.
  intros Hpk Hts Hst. unfold returns, tag_delta.
  destruct (decide (action = "post_add"%string)) as [Ea|Ea].
  { destruct (bump_keys 1 pk_set w Hpk) as (m & Em & Hm); [by apply Hst; left|].
    rewrite (tags_changed_keys _ _ 1) by (by left).
    eexists tt, _. split; [exact Em|]. exists m. split; [done|].
    intros k. rewrite Hm. subst action. tag_cases. }
  destruct (decide (action = "post_delete"%string)) as [Ed|Ed].
  { destruct (bump_keys (-1) pk_set w Hpk) as (m & Em & Hm); [by apply Hst; right|].
    rewrite (tags_changed_keys _ _ (-1)) by (by right).
    eexists tt, _. split; [exact Em|]. exists m. split; [done|].
    intros k. rewrite Hm. subst action. tag_cases. }
  unfold tags_changed. rewrite (decide_False (P:=action = "post_add"%string)) by done.
  rewrite (decide_False (P:=action = "post_delete"%string)) by done.
  destruct (decide (action = "pre_clear"%string)) as [Ec|Ec].
  - destruct (tag_set_all (db w) tag_set Hts) as [Hnd Hall].
    destruct (bump_tags (-1) _ w Hnd) as (m & Em & Hin & Hout).
    { intros t [_ Ht]%Hall. eauto. }
    eexists tt, _. split.
    { unfold bind at 1. unfold ret at 1. unfold bind at 1. unfold ret at 1.
      unfold bind at 1. unfold gets at 1. exact Em. }
    exists m. split; [done|]. intros k.
    rewrite decide_False by (by intros [? _]).
    rewrite decide_False by (by intros [? _]).
    destruct (DB.tags (db w) !! k) as [[n c]|] eqn:Ek.
    + destruct (decide (k ∈ tag_set)) as [Hk|Hk].
      * rewrite decide_True by done.
        pose proof (Hin (Tag.mk k n c)) as E. simpl in E.
        rewrite E; [done|]. by apply Hall.
      * rewrite decide_False by (by intros [_ ?]).
        rewrite Hout, Ek; [by rewrite bumped_0|].
        intros (t & -> & [? _]%Hall)%list_elem_of_fmap. done.
    + simpl. rewrite Hout; [done|].
      intros (t & -> & [_ E]%Hall)%list_elem_of_fmap. by rewrite Ek in E.
  - eexists tt, w. split; [done|]. exists (DB.tags (db w)). split.
    + rewrite set_tags_const. by destruct w.
    + intros k. rewrite !decide_False by (by intros [? _]). by rewrite bumped_0.
Qed.

(** X13. [tags_changed] with [post_add] and then with [post_delete] for the
    same distinct, stored keys returns both times and leaves the store and
    the clock as they were. *)
Theorem tags_changed_round_trip (tag_set : list pk) (pk_set : list pk) (w : World) :
  NoDup pk_set →
  (∀ k, k ∈ pk_set → is_Some (DB.tags (db w) !! k)) →
  returns (tags_changed tag_set "post_add" pk_set) w (fun _ w1 =>
    returns (tags_changed tag_set "post_delete" pk_set) w1 (fun _ w2 => w2 = w)).
Proof.
  intros Hnd Hst.
  destruct (bump_keys 1 pk_set w Hnd Hst) as (m1 & Em1 & Hm1).
  set (w1 := mkWorld (DB.set_tags (fun _ => m1) (db w)) (clock w)) in *.
  destruct (bump_keys (-1) pk_set w1 Hnd) as (m2 & Em2 & Hm2).
  { intros k Hk. subst w1. simpl. rewrite Hm1. apply fmap_is_Some. by apply Hst. }
  exists tt, w1. split; [by rewrite (tags_changed_keys _ _ 1) by (by left)|].
  eexists tt, _. split; [by rewrite (tags_changed_keys _ _ (-1)) by (by right)|].
  assert (E : m2 = DB.tags (db w)).
  { apply map_eq. intros k. rewrite Hm2. subst w1. simpl. rewrite Hm1.
    rewrite bumped_bumped. case_decide; simpl; apply bumped_0. }
  rewrite E. subst w1. simpl. destruct w as [d c]. simpl. f_equal. by destruct d.
Qed.

(** X14. [tags_changed] with [post_add] or [post_delete] on a signal that
    holds the key of no tag raises DoesNotExist at that key, and the tags met
    before it keep the counts the loop gave them: the walk is not undone. *)
Theorem tags_changed_missing_key (tag_set : list pk) (action : string)
    (l1 l2 : list pk) (k : pk) (w : World) :
  action = "post_add"%string ∨ action = "post_delete"%string →
  NoDup l1 →
  (∀ j, j ∈ l1 → is_Some (DB.tags (db w) !! j)) →
  DB.tags (db w) !! k = None →
  ∃ w', tags_changed tag_set action (l1 ++ k :: l2) w = Raise DoesNotExist w'
    ∧ ∀ j, DB.tags (db w') !! j
           = bumped (tag_delta tag_set action l1 j) <$> DB.tags (db w) !! j.
Proof.
  intros Hact Hnd Hst Hk.
  assert (∃ delta, (action = "post_add"%string ∧ delta = 1)
                   ∨ (action = "post_delete"%string ∧ delta = -1)) as [delta Hd].
  { destruct Hact; [exists 1|exists (-1)]; auto. }
  destruct (bump_keys delta l1 w Hnd Hst) as (m & Em & Hm).
  rewrite (tags_changed_keys _ _ delta) by done.
  rewrite for_each_app, Em. cbn [for_each].
  eexists. split.
  { apply bind_Raise, bind_Raise. unfold Tag_get, bind, gets. simpl.
    rewrite Hm, Hk. reflexivity. }
  simpl. intros j. rewrite Hm. unfold tag_delta.
  destruct Hd as [[-> ->]|[-> ->]]; tag_cases.
Qed.

(** *** A vote and its removal *)

(** [Vote.apply] keeps the key of the parent on the post object. *)
Lemma Vote_apply_kept v post dir w :
  applicable v post w →
  returns (Vote_apply v dir) w (fun v' w' => ∃ post',
    applicable v' post' w' ∧ applied v post dir w v' post' w'
    ∧ Post.parent_id post' = Post.parent_id post).
Proof.
  intros (Hr & Hs & Hp & Hpa & Hpv & Hacc). unfold Vote_apply.
  apply returns_bind.
  eapply returns_mono; [by apply (Vote_apply_author v post dir w)|].
  intros v1 w1 (Ht1 & Ha1 & Hr1 & Ep1 & Ev1 & Hrep1). simpl.
  apply returns_bind.
  eapply returns_mono.
  { apply (Vote_apply_voter v1 dir w1). rewrite Ha1.
    apply reputation_is_Some. rewrite Hrep1. apply fmap_is_Some.
    by apply reputation_is_Some. }
  intros [] w2 (Ep2 & Ev2 & Hrep2). simpl.
  assert (Es1 : Vote.score v1 = Vote.score v) by (unfold Vote.score; congruence).
  apply returns_bind.
  eapply returns_mono.
  { apply (Vote_apply_score v1 post dir w2).
    - eapply reaches_posts; [|done]. done.
    - by rewrite Ep2, Ep1.
    - eapply parent_ok_posts; [|done]. congruence. }
  intros v3 w3 (post3 & Hk3 & Hsc3 & Hrow3 & Hsame3). simpl.
  destruct Hk3 as (Ht3 & Ha3 & Hr3 & Hs3 & Hp3 & Hid3 & Hau3 & Hacc3 & Hpid3
                   & Hoth3 & Eprof3 & Ev3).
  eapply returns_mono.
  { apply (Vote_apply_accept v3 post3 dir w3); try done.
    intros Ht. rewrite <- parent_id_Unset. rewrite Hpid3.
    rewrite parent_id_Unset. apply Hacc. congruence. }
  intros v4 w4 (post4 & Hk4 & Hsc4 & Hrow4 & Hsame4). simpl.
  destruct Hk4 as (Ht4 & Ha4 & Hr4 & Hs4 & Hp4 & Hid4 & Hau4 & Hacc4 & Hpid4
                   & Hoth4 & Eprof4 & Ev4).
  assert (Hrep : ∀ u, reputation_of w4 u =
          (fun s => s
             + (if decide (u = Post.author post) then dir * Vote.reputation v else 0)
             + (if decide (u = Vote.author v) then dir * Vote.voter_reputation v else 0))
          <$> reputation_of w u).
  { intros u. unfold reputation_of at 1. rewrite Eprof4, Eprof3.
    fold (reputation_of w2 u). rewrite Hrep2, Hrep1.
    rewrite <- option_fmap_compose. unfold credited, compose.
    rewrite Ha1. unfold Vote.reputation, Vote.voter_reputation. by rewrite Ht1. }
  exists post4. split_and!; [| |congruence].
  - unfold applicable. split_and!; try done.
    + apply reputation_is_Some. rewrite Hrep. apply fmap_is_Some.
      apply reputation_is_Some. congruence.
    + apply reputation_is_Some. rewrite Hrep. apply fmap_is_Some.
      apply reputation_is_Some. congruence.
    + intros Ht. rewrite <- parent_id_Unset. rewrite Hpid4, Hpid3.
      rewrite parent_id_Unset. apply Hacc. congruence.
  - unfold applied. split_and!; try congruence.
    + intros k Hk. rewrite Hoth4 by congruence. rewrite Hoth3 by done.
      by rewrite Ep2, Ep1.
    + intros [Hz|Ht].
      * destruct (decide (Vote.type v3 = VOTE_ACCEPT)) as [Ht|Ht].
        -- rewrite <- Hid3. by apply Hrow4.
        -- destruct (Hsame4 Ht) as [-> ->]. apply Hrow3. congruence.
      * rewrite <- Hid3. apply Hrow4. congruence.
    + intros Hz Ht. destruct Hsame4 as [-> _]; [congruence|].
      rewrite Hsame3 by congruence. congruence.
    + done.
    + intros Ht. apply Hrow4. congruence.
Qed.

Lemma filter_fresh_vote_app (l : list VoteRow.t) u p t :
  filter (fun r => VoteRow.id r ≠ fresh_pk (VoteRow.id <$> l))
         (l ++ [VoteRow.mk (fresh_pk (VoteRow.id <$> l)) u p t]) = l.
Proof.
  rewrite filter_app, filter_fresh_vote. simpl.
  rewrite filter_cons_False by (simpl; intros Hne; by apply Hne).
  by rewrite filter_nil, app_nil_r.
Qed.

Lemma filter_none {A} (P : A → Prop) `{∀ x, Decision (P x)} (l : list A) :
  (∀ x, x ∈ l → ¬ P x) → filter P l = [].
Proof.
  induction l as [|a l IH]; intros HP; [done|].
  rewrite filter_cons_False by (apply HP; left).
  apply IH. intros x Hx. apply HP. by right.
Qed.

(** X15. A vote that is added and removed again leaves no trace: on a post
    object that is the stored post, with the profiles of its author and of
    the voter in place, [add_vote] for a vote the user does not hold returns
    and the user holds the vote; [remove_vote] then returns True, and the
    votes, the reputation of every user, the stored score of the post and
    every other row are as before the vote. *)
Theorem add_then_remove_vote (post : Post.t) (u : pk) (t : Z) (w : World) :
  DB.posts (db w) !! Post.id post = Some (Post.row post) →
  (∀ k, Post.parent_id post = Some k → is_Some (DB.posts (db w) !! k)) →
  is_Some (DB.profiles (db w) !! Post.author post) →
  is_Some (DB.profiles (db w) !! u) →
  (t = VOTE_ACCEPT → Post.parent post ≠ Unset) →
  ¬ holds (db w) u (Post.id post) t →
  returns (add_vote post (AuthUser u) t) w (fun v w1 =>
    holds (db w1) u (Post.id post) t
    ∧ returns (remove_vote post (AuthUser u) t) w1 (fun b w2 =>
        b = true
        ∧ DB.votes (db w2) = DB.votes (db w)
        ∧ (∀ x, reputation_of w2 x = reputation_of w x)
        ∧ stored_score w2 (Post.id post) = Some (Post.score post)
        ∧ ∀ k, k ≠ Post.id post → DB.posts (db w2) !! k = DB.posts (db w) !! k)).
Proof.
  intros Hrow Hpar Hpa Hpu Hacc Hnot.
  set (k := fresh_pk (VoteRow.id <$> DB.votes (db w))).
  set (new := VoteRow.mk k u (Post.id post) t).
  set (v0 := Vote.mk (Some k) u (Obj post) t).
  set (w0 := mkWorld (DB.set_votes (fun l => l ++ [new]) (db w)) (clock w)).
  assert (Eadd : add_vote post (AuthUser u) t w = Vote_apply v0 1 w0).
  { unfold add_vote, Vote_save. simpl.
    rewrite (bind_Ok _ _ w (Post.id post) w) by done.
    rewrite (bind_Ok _ _ w (DB.votes (db w)) w) by done.
    rewrite bool_decide_true by apply fresh_pk_fresh.
    erewrite bind_Ok by reflexivity.
    subst w0 v0 new k. unfold DB.set_votes. simpl.
    by rewrite filter_fresh_vote. }
  assert (Hpok : parent_ok post w).
  { unfold parent_ok. destruct (Post.parent post) as [|j|q] eqn:Ep; [done| |done].
    apply Hpar. unfold Post.parent_id. by rewrite Ep. }
  unfold returns at 1. rewrite Eadd.
  eapply returns_mono.
  { apply (Vote_apply_kept v0 post 1 w0). unfold applicable. simpl.
    split_and!; try done; by rewrite Hrow. }
  intros v1 w1 (post1 & Happ1 & Hd1 & Hpid1). simpl.
  destruct Hd1 as (Ht1 & Ha1 & Hid1 & Hau1 & _ & Hsc1 & Hoth1 & Hrow1 & Hsame1
                   & Hrep1 & Ev1 & _).
  simpl in Ht1, Ha1, Ev1.
  assert (Ev : DB.votes (db w1) = DB.votes (db w) ++ [new]) by done.
  split.
  { exists new. rewrite Ev. split; [|done]. apply elem_of_app. right.
    by apply list_elem_of_singleton. }
  (* the row of the post after the vote *)
  assert (∃ r, DB.posts (db w1) !! Post.id post = Some r
               ∧ PostRow.author r = Post.author post
               ∧ PostRow.score r = Post.score post + Vote.score v0
               ∧ PostRow.parent r = Post.parent_id post) as (r & Er & Hrau & Hrsc & Hrpar).
  { destruct (decide (Vote.score v0 ≠ 0 ∨ Vote.type v0 = VOTE_ACCEPT)) as [Hs|Hs].
    - exists (Post.row post1). split; [by apply Hrow1|]. simpl.
      split_and!; [done|lia|done].
    - assert (Hz : Vote.score v0 = 0)
        by (destruct (decide (Vote.score v0 = 0)); [done|exfalso; auto]).
      exists (Post.row post). rewrite Hsame1 by auto. simpl.
      split_and!; [done|done|lia|done]. }
  set (post1' := Post.of_row (Post.id post) r).
  set (w1' := mkWorld (DB.set_votes (filter (fun r0 => VoteRow.id r0 ≠ k)) (db w1))
                (clock w1)).
  assert (Eget : get_vote post (AuthUser u) t w1 = Ok (Some (Vote.of_row new)) w1).
  { rewrite get_vote_eq, Ev, filter_app.
    rewrite (filter_none _ (DB.votes (db w))).
    - simpl. rewrite filter_cons_True by done. done.
    - intros x Hx (Hp & Hu & Hty). apply Hnot. by exists x. }
  unfold remove_vote. apply returns_bind. exists (Some (Vote.of_row new)), w1.
  split; [done|]. simpl.
  apply returns_bind, returns_bind, returns_modify. fold w1'.
  eapply returns_mono.
  { apply (Vote_apply_spec (Vote.of_row new) post1' (-1) w1').
    destruct Happ1 as (_ & _ & _ & Hpa1 & Hpv1 & _).
    unfold applicable. simpl. split_and!.
    - by exists r.
    - by rewrite Er.
    - unfold parent_ok. simpl. rewrite Hrpar.
      destruct (Post.parent_id post) as [j|] eqn:Ej; [|done].
      destruct (decide (j = Post.id post)) as [->|Hj]; [by rewrite Er|].
      rewrite Hoth1 by done. simpl. by apply Hpar.
    - by rewrite Hrau, <- Hau1.
    - by rewrite <- Ha1.
    - intros Ht. rewrite Hrpar. specialize (Hacc Ht).
      unfold Post.parent_id. by destruct (Post.parent post). }
  intros v2 w2 (post2 & _ & Hd2). simpl. apply returns_ret.
  destruct Hd2 as (_ & _ & Hid2 & _ & _ & Hsc2 & Hoth2 & Hrow2 & Hsame2
                   & Hrep2 & Ev2 & _).
  simpl in Hid2, Hsc2, Hoth2, Hrow2, Hsame2, Hrep2, Ev2.
  split_and!.
  - done.
  - rewrite Ev2, Ev. apply filter_fresh_vote_app.
  - intros x. rewrite Hrep2.
    change (reputation_of w1' x) with (reputation_of w1 x).
    rewrite Hrep1. change (reputation_of w0 x) with (reputation_of w x).
    rewrite <- option_fmap_compose. rewrite Hrau.
    destruct (reputation_of w x) as [s|]; simpl; [|done]. f_equal.
    unfold Vote.reputation, Vote.voter_reputation. simpl.
    repeat case_decide; lia.
  - unfold stored_score.
    destruct (decide (Vote.score v0 ≠ 0 ∨ Vote.type v0 = VOTE_ACCEPT)) as [Hs|Hs].
    + rewrite Hrow2 by done. simpl. f_equal. rewrite Hsc2, Hrsc.
      unfold Vote.score. simpl. lia.
    + assert (Hz : Vote.score v0 = 0)
        by (destruct (decide (Vote.score v0 = 0)); [done|exfalso; auto]).
      rewrite Hsame2 by auto. simpl. rewrite Er. simpl. rewrite Hrsc, Hz. f_equal. lia.
  - intros j Hj. rewrite Hoth2 by done. simpl. by rewrite Hoth1.
Qed.

(** X16. A vote cast twice cannot be taken back: after two returning calls
    of [add_vote] for the same user, post and type, [remove_vote] raises
    MultipleObjectsReturned and leaves the store, with both votes, as it
    is. *)
Theorem double_vote_cannot_be_removed (post : Post.t) (u : pk) (t : Z)
    (w w1 w2 : World) (v1 v2 : Vote.t) :
  add_vote post (AuthUser u) t w = Ok v1 w1 →
  add_vote post (AuthUser u) t w1 = Ok v2 w2 →
  remove_vote post (AuthUser u) t w2 = Raise MultipleObjectsReturned w2
  ∧ ∃ k1 k2, k1 ≠ k2
      ∧ DB.votes (db w2) = DB.votes (db w)
          ++ [VoteRow.mk k1 u (Post.id post) t; VoteRow.mk k2 u (Post.id post) t].
Proof.
  intros E1 E2.
  pose proof (add_vote_votes post u t w) as Ev1. rewrite E1 in Ev1. simpl in Ev1.
  pose proof (add_vote_votes post u t w1) as Ev2. rewrite E2 in Ev2. simpl in Ev2.
  set (k1 := fresh_pk (VoteRow.id <$> DB.votes (db w))) in *.
  set (k2 := fresh_pk (VoteRow.id <$> DB.votes (db w1))) in *.
  assert (Ev : DB.votes (db w2) = DB.votes (db w)
            ++ [VoteRow.mk k1 u (Post.id post) t; VoteRow.mk k2 u (Post.id post) t]).
  { rewrite Ev2, Ev1, <- app_assoc. done. }
  split.
  - unfold remove_vote. apply bind_Raise. rewrite get_vote_eq, Ev, filter_app.
    rewrite filter_cons_True by done. rewrite filter_cons_True by done.
    by destruct (filter _ (DB.votes (db w))) as [|a [|b l]].
  - exists k1, k2. split; [|done]. intros E.
    apply (fresh_pk_fresh (VoteRow.id <$> DB.votes (db w1))). fold k2.
    rewrite <- E, Ev1, fmap_app. apply elem_of_app. right. simpl. left.
Qed.

(** X17. [remove_vote] for the anonymous user, or for a user who holds no
    vote of the type on the post, returns False and leaves the store and the
    clock as they are. *)
Theorem remove_vote_nothing_held (post : Post.t) (user : User) (t : Z) (w : World) :
  (∀ u, user = AuthUser u → ¬ holds (db w) u (Post.id post) t) →
  remove_vote post user t w = Ok false w.
Proof.
  intros Hnot. unfold remove_vote. destruct user as [|u]; [done|].
  rewrite (bind_Ok _ _ w None w); [done|]. rewrite get_vote_eq.
  rewrite filter_none; [done|].
  intros x Hx (Hp & Hu & Hty). apply (Hnot u eq_refl). by exists x.
Qed.

(** *** Write access *)

(** X18. [user_write_auth] on a target whose [writeable] attribute was
    never set.  An administrator gets True on any target that is no
    administrator; a user who is no administrator and no moderator gets False
    (an exception in strict mode) on another user who is neither; every
    other call, a moderator on a regular user and a user on themselves among
    them, raises AttributeError, the answer being read from [writeable] where
    the branch has set [writable]. *)
Theorem user_write_auth_table (target user : Account.t) (strict : bool) :
  Account.writeable target = None →
  let granted := Account.is_admin target = false ∧ Account.is_admin user = true in
  let refused := Account.is_admin target = false ∧ Account.is_admin user = false
                 ∧ Account.is_moderator target = false
                 ∧ Account.is_moderator user = false
                 ∧ Account.id target ≠ Account.id user in
  (granted → user_write_auth target user strict
             = inr (Account.set_writeable target true, true))
  ∧ (refused → user_write_auth target user strict
               = if strict then inl AccessDenied
                 else inr (Account.set_writeable target false, false))
  ∧ (¬ granted → ¬ refused →
     user_write_auth target user strict = inl NoAttribute).
Proof.
  intros Hw. simpl. unfold user_write_auth.
  destruct (Account.is_admin target) eqn:Eta; simpl.
  { rewrite Hw. split_and!; [by intros [? _]|by intros [? _]|done]. }
  destruct (Account.is_admin user) eqn:Eua; simpl.
  { split_and!; [by destruct strict|by intros (_ & ? & _)|].
    intros Hg. by destruct Hg. }
  destruct (Account.is_moderator target) eqn:Etm; simpl.
  { rewrite Hw. split_and!; [by intros [_ ?]|by intros (_ & _ & ? & _)|done]. }
  destruct (Account.is_moderator user) eqn:Eum; simpl.
  { rewrite Hw. split_and!; [by intros [_ ?]|by intros (_ & _ & _ & ? & _)|done]. }
  case_decide as Eid; simpl.
  { rewrite Hw. split_and!; [by intros [_ ?]|by intros (_ & _ & _ & _ & ?)|done]. }
  split_and!; [by intros [_ ?]|by destruct strict|].
  intros _ Hr. by destruct Hr.
Qed.

(** X19. [post_write_auth] does not answer with what it has decided: it
    records on [writable] whether the user is the author or has a moderator
    role, and answers with [writeable].  It raises AttributeError exactly
    when that attribute was never set on the post, and an answer it gives is
    the value the attribute came with, whoever asks. *)
Theorem post_write_auth_ignores_user (user : Account.t) (post : Writable.t)
    (strict : bool) :
  (post_write_auth user post strict = inl NoAttribute
   ↔ Writable.writeable post = None)
  ∧ (post_write_auth user post strict = inl AccessDenied
     ↔ strict = true ∧ Writable.writeable post = Some false)
  ∧ ∀ post' ok, post_write_auth user post strict = inr (post', ok) →
      Writable.writeable post = Some ok
      ∧ Writable.writeable post' = Writable.writeable post
      ∧ Writable.writable post'
        = Some (bool_decide (Writable.author post = Account.id user)
                || Account.has_moderator_role user).
Proof.
  unfold post_write_auth. simpl.
  destruct (Writable.writeable post) as [[|]|] eqn:Ew; destruct strict; simpl;
    (split_and!; [split; [done|try done; by intros [? ?]]
                 |split; [done|try done; by intros [? ?]]
                 |intros post' ok E; try done; injection E as <- <-; by simpl]).
Qed.

(** *** A new answer or comment *)

Lemma post_create_notification_quiet post w :
  (∀ k r, DB.posts (db w) !! k = Some r → PostRow.root r ≠ Some (Post.id post)) →
  post_create_notification post w = Ok tt w.
Proof.
  intros Hno. unfold post_create_notification, commit_on_success, bind, gets.
  destruct (Post.root post); [|done]. simpl.
  rewrite filter_none; [done|].
  intros [k r] Hin%elem_of_map_to_list Hroot. simpl in *. by apply (Hno k r).
Qed.

Lemma prev_content_none k l :
  (∀ b, b ∈ l → PostRevision.post b ≠ k) → prev_content k l = "".
Proof.
  intros Hno. unfold prev_content.
  destruct (last_revision k l) as [b|] eqn:E; [|done].
  apply last_revision_Some in E as [Hin Hb]. by destruct (Hno b Hin).
Qed.

Lemma combine_nonempty self : Post.combine self ≠ "".
Proof. done. Qed.

(** X20. The save of a new answer or comment under a stored parent.  When
    the post has its root set to another post and no stored post names it as
    root, the save returns: the row of the post is stored with the key of the
    parent, the answer count of the parent goes up by one for an answer and
    its comment count for a comment, on the parent object the post caches
    and in the row of the parent, and the rows of the other posts are as
    before.  A new answer without revisions gets its first revision, which
    holds its snapshot. *)
Theorem Post_save_new_child (self q : Post.t) (root : pk) (w : World) :
  DB.posts (db w) !! Post.id self = None →
  Post.type self = POST_ANSWER ∨ Post.type self = POST_COMMENT →
  parent_is self q (db w) →
  is_Some (DB.posts (db w) !! Post.id q) → parent_ok q w →
  Post.root self = Some root → root ≠ Post.id self →
  Post.root q ≠ Some (Post.id self) →
  (∀ k r, DB.posts (db w) !! k = Some r → PostRow.root r ≠ Some (Post.id self)) →
  returns (Post_save self) w (fun self' w' => ∃ q',
    Post.parent self' = Obj q'
    ∧ Post.id q' = Post.id q
    ∧ DB.posts (db w') !! Post.id self = Some (Post.row self')
    ∧ PostRow.parent (Post.row self') = Some (Post.id q)
    ∧ Post.answer_count q'
      = Post.answer_count q + answer_delta (Post.type self) 1
    ∧ Post.comment_count q'
      = Post.comment_count q + comment_delta (Post.type self) 1
    ∧ DB.posts (db w') !! Post.id q = Some (Post.row q')
    ∧ (∀ k, k ≠ Post.id self → k ≠ Post.id q →
            DB.posts (db w') !! k = DB.posts (db w) !! k)
    ∧ (Post.type self = POST_ANSWER →
       (∀ b, b ∈ DB.revisions (db w) → PostRevision.post b ≠ Post.id self) →
       ∃ l rev, DB.revisions (db w') = l ++ [rev]
         ∧ PostRevision.post rev = Post.id self
         ∧ PostRevision.content rev = Post.combine self')).
Proof.
  intros Hnew Hty Hq Hsq Hpq Hroot Hrne Hrq Hnone.
  assert (Hne : Post.id q ≠ Post.id self).
  { intros E. rewrite E, Hnew in Hsq. by destruct Hsq. }
  assert (Hp : parent_ok self w).
  { unfold parent_ok. destruct Hq as [->|(k & r & -> & Er & _)]; [done|].
    by rewrite Er. }
  unfold Post_save. rewrite Post_save_rec_S.
  apply returns_bind. eapply returns_mono; [by apply verify_post_full|].
  intros self1 w1 (Hset & E1 & Hc1 & Hp1). simpl.
  pose proof (settled_verified _ _ _ Hset) as Hv.
  destruct (verified_fields _ _ Hv)
    as (Hid & _ & _ & _ & Hty1 & _ & _ & _ & _ & _ & Hpid & [u Hu] & _).
  assert (Hroot1 : Post.root self1 = Some root).
  { destruct Hset as (? & ? & ? & ? & ? & -> & _). simpl. by rewrite Hroot. }
  assert (Hq1 : Post.parent self1 = Obj q
                ∨ Post.parent self1 = ById (Post.id q)
                  ∧ ∃ r, DB.posts (db w) !! Post.id q = Some r
                         ∧ q = Post.of_row (Post.id q) r).
  { destruct Hset as (cd & ld & par & ttl & td & -> & _ & _ & _ & _ & _ & _ & _
                      & Hpar). simpl.
    destruct Hq as [Eq|(k & r & Eq & Er & ->)].
    - left. destruct Hpar as [->|(k & r & Ek & _)]; [done|congruence].
    - destruct Hpar as [->|(k' & r' & Ek & Er' & ->)].
      + right. rewrite Eq. simpl. split; [done|]. by exists r.
      + left. assert (k' = k) by congruence. subst k'.
        assert (r' = r) by congruence. by subst r'. }
  assert (Hpid1 : Post.parent_id self1 = Some (Post.id q)).
  { unfold Post.parent_id. by destruct Hq1 as [->|[-> _]]. }
  apply returns_bind, returns_gets. rewrite E1, Hid, Hnew.
  rewrite bool_decide_true by done.
  apply returns_bind, returns_modify.
  set (w2 := mkWorld _ _).
  assert (Eo2 : ∀ k, k ≠ Post.id self →
            DB.posts (db w2) !! k = DB.posts (db w) !! k).
  { intros k Hk. subst w2. simpl. rewrite E1. by rewrite lookup_insert_ne. }
  assert (Es2 : DB.posts (db w2) !! Post.id self = Some (Post.row self1)).
  { subst w2. simpl. by rewrite lookup_insert_eq. }
  apply returns_bind.
  apply (Post_apply_with_counts _ self1 q).
  { intros x. by eexists. }
  { destruct Hq1 as [?|[E (r & Er & Eq)]]; [by left|]. right.
    exists (Post.id q), r. split_and!; [done| |done]. by rewrite Eo2. }
  { by rewrite Eo2. }
  { unfold parent_ok in *. destruct (Post.parent q) as [|j|]; [done| |done].
    destruct (decide (j = Post.id self)) as [->|Hj]; [by rewrite Es2|].
    by rewrite Eo2. }
  rewrite Hty1.
  intros q' w3 Hidq Hac Hcc Hrow _ Hoth Hp'.
  destruct (Hrow Hty) as (Erow & q0 & Hst0 & Hid0 & Hroot0 & _).
  assert (Hrq' : Post.root q' ≠ Some (Post.id self)).
  { destruct Hst0 as [(? & ? & ? & ? & ? & -> & _) _]. simpl. rewrite Hroot0.
    destruct (Post.root q) as [rq|]; [done|]. rewrite Hid0. congruence. }
  set (self2 := Post.set_parent self1 (Obj q')).
  assert (Erow2 : Post.row self2 = Post.row self1).
  { unfold Post.row, Post.parent_id at 1. simpl. by rewrite Hpid1, Hidq. }
  assert (Es3 : DB.posts (db w3) !! Post.id self = Some (Post.row self2)).
  { rewrite Hoth by done. by rewrite Es2, Erow2. }
  unfold finalize_post.
  apply returns_bind. apply returns_bind.
  exists tt, w3. split.
  { apply post_create_notification_quiet. simpl. rewrite Hid.
    intros k r Hk Hr.
    destruct (decide (k = Post.id q)) as [->|Hkq].
    { rewrite Erow in Hk. injection Hk as <-. simpl in Hr. done. }
    rewrite Hoth in Hk by done.
    destruct (decide (k = Post.id self)) as [->|Hks].
    { rewrite Es2 in Hk. injection Hk as <-. simpl in Hr.
      rewrite Hroot1 in Hr. congruence. }
    rewrite Eo2 in Hk by done. by apply (Hnone k r). }
  assert (Hfin : ∀ w4, DB.posts (db w4) = DB.posts (db w3) →
            (Post.type self = POST_ANSWER →
             (∀ b, b ∈ DB.revisions (db w) → PostRevision.post b ≠ Post.id self) →
             ∃ l rev, DB.revisions (db w4) = l ++ [rev]
               ∧ PostRevision.post rev = Post.id self
               ∧ PostRevision.content rev = Post.combine self2) →
            ∃ q'0, Post.parent self2 = Obj q'0
              ∧ Post.id q'0 = Post.id q
              ∧ DB.posts (db w4) !! Post.id self = Some (Post.row self2)
              ∧ PostRow.parent (Post.row self2) = Some (Post.id q)
              ∧ Post.answer_count q'0
                = Post.answer_count q + answer_delta (Post.type self) 1
              ∧ Post.comment_count q'0
                = Post.comment_count q + comment_delta (Post.type self) 1
              ∧ DB.posts (db w4) !! Post.id q = Some (Post.row q'0)
              ∧ (∀ k, k ≠ Post.id self → k ≠ Post.id q →
                      DB.posts (db w4) !! k = DB.posts (db w) !! k)
              ∧ (Post.type self = POST_ANSWER →
                 (∀ b, b ∈ DB.revisions (db w) → PostRevision.post b ≠ Post.id self) →
                 ∃ l rev, DB.revisions (db w4) = l ++ [rev]
                   ∧ PostRevision.post rev = Post.id self
                   ∧ PostRevision.content rev = Post.combine self2)).
  { intros w4 E4 Hrev. exists q'. rewrite E4.
    split_and!; try done.
    - rewrite Erow2. exact Hpid1.
    - intros k Hks Hkq. rewrite Hoth by done. by apply Eo2. }
  assert (Hid2 : Post.id self2 = Post.id self) by done.
  assert (Hty2 : Post.type self2 = Post.type self) by done.
  case_decide as Hqa.
  - assert (Hprev : Post.type self = POST_ANSWER →
              (∀ b, b ∈ DB.revisions (db w) → PostRevision.post b ≠ Post.id self) →
              prev_content (Post.id self2) (DB.revisions (db w3)) = "").
    { intros Ha Hnorev. apply prev_content_none. intros b Hb.
      destruct Hst0 as (_ & u0 & t0 & _ & _ & _ & Edb & _).
      rewrite Edb in Hb. unfold revised in Hb.
      assert (Hb0 : b ∈ DB.revisions (db w) ∨ PostRevision.post b = Post.id q').
      { repeat case_decide; simpl in Hb; rewrite ?E1 in Hb; try (by left).
        apply elem_of_app in Hb as [Hb|Hb]; [by left|].
        apply list_elem_of_singleton in Hb. subst b. by right. }
      destruct Hb0 as [Hb0|Hb0]; [rewrite Hid2; by apply Hnorev|].
      rewrite Hb0, Hidq, Hid2. done. }
    apply (create_revision_returns _ u); [done|]. cbv zeta.
    case_decide as Hc; apply returns_ret; apply Hfin; try done.
    + intros Ha Hnorev. eexists _, _. simpl. split; [reflexivity|]. simpl.
      done.
    + intros Ha Hnorev. exfalso. rewrite (Hprev Ha Hnorev) in Hc.
      by apply (combine_nonempty self2).
  - apply returns_ret, returns_ret. apply Hfin; [done|].
    intros Ha. exfalso. apply Hqa. right. by rewrite Hty2.
Qed.

(** *** The snapshot of a post *)

Lemma newline_free_app (x y : string) :
  newline_free (x ++ newline ++ y)%string = false.
Proof.
  induction x as [|c x IH]; [done|]. simpl. rewrite IH. apply andb_false_r.
Qed.

Lemma split_at_first_newline (t1 t2 r1 r2 : string) :
  newline_free t1 = true → newline_free t2 = true →
  (t1 ++ newline ++ r1 = t2 ++ newline ++ r2)%string →
  t1 = t2 ∧ r1 = r2.
Proof.
  unfold newline.
  revert t2. induction t1 as [|c t1 IH]; intros [|c' t2] H1 H2 E; simpl in *.
  - by injection E as E.
  - injection E as <- _. done.
  - injection E as -> _. done.
  - injection E as <- E. apply andb_true_iff in H1 as [_ H1].
    apply andb_true_iff in H2 as [_ H2].
    destruct (IH t2 H1 H2 E) as [-> ->]. done.
Qed.

Lemma split_at_last_newline (c1 c2 g1 g2 : string) :
  newline_free g1 = true → newline_free g2 = true →
  (c1 ++ newline ++ g1 = c2 ++ newline ++ g2)%string →
  c1 = c2 ∧ g1 = g2.
Proof.
  pose proof newline_free_app as Happ. unfold newline in *.
  revert c2. induction c1 as [|a c1 IH]; intros [|b c2] H1 H2 E; simpl in *.
  - by injection E as E.
  - injection E as _ E. change (g1 = c2 ++ String "010" "" ++ g2)%string in E.
    rewrite E, Happ in H1. done.
  - injection E as _ E. change (c1 ++ String "010" "" ++ g1 = g2)%string in E.
    rewrite <- E, Happ in H2. done.
  - injection E as <- E. destruct (IH c2 H1 H2 E) as [-> ->]. done.
Qed.

(** X21. The snapshot [combine] builds tells title, content and tags apart
    when the title and the tags hold no line feed: two posts with the same
    snapshot then have the same title, content and tags, so the revision
    step sees every change of them. *)
Theorem combine_injective (a b : Post.t) :
  newline_free (Post.title a) = true → newline_free (Post.title b) = true →
  newline_free (Post.tag_val a) = true → newline_free (Post.tag_val b) = true →
  Post.combine a = Post.combine b →
  Post.title a = Post.title b ∧ Post.content a = Post.content b
  ∧ Post.tag_val a = Post.tag_val b.
Proof.
  intros Hta Htb Hga Hgb E. unfold Post.combine in E. simpl in E.
  injection E as E.
  apply split_at_first_newline in E as [Et E]; [|done|done].
  apply (split_at_last_newline _ _ ("TAGS:" ++ Post.tag_val a)
           ("TAGS:" ++ Post.tag_val b)) in E as [Ec Eg]; [|done|done].
  simpl in Eg. by injection Eg as Eg.
Qed.

(** *** Notes of a user *)

(** X22. A moderator action that returns raises the counts
    [UserProfile.note_count] gives for the author of the post, all notes and
    unread ones, by one each, and leaves the counts of every other user. *)
Theorem moderator_action_note_count (post : Post.t) (user : pk) (action : Z)
    (w : World) :
  is_Some (DB.posts (db w) !! Post.id post) → parent_ok post w →
  (action ≠ REV_CLOSE → action ≠ REV_DELETE → ∃ p, Post.set_status post = inr p) →
  returns (moderator_action post user action) w (fun _ w' =>
    ∀ x, note_count x (db w')
         = if decide (x = Post.author post)
           then (S (note_count x (db w)).1, S (note_count x (db w)).2)
           else note_count x (db w)).
Proof.
  intros Hs Hp Hst. unfold moderator_action.
  apply returns_commit, returns_bind.
  assert (Hfirst : returns
            (if decide (action = REV_CLOSE) then
               ret (Post.set_status_field post POST_CLOSED)
             else if decide (action = REV_DELETE) then
               ret (Post.set_status_field post POST_DELETED)
             else lift (Post.set_status post)) w
            (fun p w1 => w1 = w ∧ Post.id p = Post.id post
                         ∧ Post.author p = Post.author post
                         ∧ Post.parent p = Post.parent post)).
  { repeat case_decide; try (by apply returns_ret).
    destruct Hst as [p E]; [done|done|]. rewrite E. apply returns_ret.
    split; [done|]. by apply set_status_fields. }
  eapply returns_mono; [apply Hfirst|].
  intros post1 ? (-> & Hid & Hau & Hpar). simpl.
  apply returns_bind, Post_save_stored.
  - by rewrite Hid.
  - unfold parent_ok in *. by rewrite Hpar.
  - intros post' w1 Hv Hsaved _.
    destruct (verified_fields _ _ Hv) as (_ & Hau' & _).
    destruct (saved_frame _ _ _ Hsaved) as (_ & _ & _ & Enotes & _).
    apply returns_bind, returns_send_note, returns_ret. simpl.
    intros x. unfold note_count. simpl. rewrite Enotes, !filter_app, !length_app.
    rewrite Hau', Hau.
    destruct (decide (x = Post.author post)) as [->|Hx].
    + rewrite !filter_cons_True by done. simpl. f_equal; lia.
    + rewrite !filter_cons_False by (simpl; intros ?; by intuition).
      simpl. f_equal; lia.
Qed.

(** *** Activity *)

(** X23. [UserProfile.is_active] reads [suspended], which is no column: on
    a profile where the attribute was never set it raises AttributeError.
    Where it is set the answer is its negation: the type of the user and the
    reputation against the minimum decide nothing. *)
Theorem is_active_ignores_reputation (suspended : option bool)
    (type score minimum : Z) :
  is_active suspended type score minimum
  = match suspended with
    | None => inl AttributeError
    | Some s => inr (negb s)
    end.
Proof.
  unfold is_active. destruct suspended as [[|]|]; [done| |done].
  by destruct (_ || _).
Qed.

(** *** A vote saved again *)

(** X24. [vote.save()] on a vote that has its row writes the row and
    applies nothing: [apply_instance] runs for a created row only.  The post
    rows, the profiles and the clock are as before, so a stored vote whose
    type is changed and saved leaves the score and the reputations at what
    the old type gave. *)
Theorem Vote_save_again_applies_nothing (self : Vote.t) (k p : pk) (w : World) :
  Vote.id self = Some k → Vote.post_id self = Some p →
  k ∈ VoteRow.id <$> DB.votes (db w) →
  ∃ w', Vote_save self w = Ok self w'
    ∧ DB.votes (db w')
      = filter (fun r => VoteRow.id r ≠ k) (DB.votes (db w))
          ++ [VoteRow.mk k (Vote.author self) p (Vote.type self)]
    ∧ DB.posts (db w') = DB.posts (db w)
    ∧ DB.profiles (db w') = DB.profiles (db w)
    ∧ (∀ u, reputation_of w' u = reputation_of w u)
    ∧ clock w' = clock w.
Proof.
  intros Hid Hp Hin. unfold Vote_save. rewrite Hp, Hid.
  erewrite bind_Ok by reflexivity.
  erewrite bind_Ok by reflexivity.
  rewrite bool_decide_false by (by intros ?).
  erewrite bind_Ok by reflexivity.
  eexists. split.
  { unfold ret. f_equal. destruct self. simpl in *. by subst. }
  simpl. done.
Qed.

End More.

(** ** More runs on the small site *)

Section MoreRuns.
#[local] Existing Instance plain.

Ltac stored := vm_compute; eauto.

(** The save of the answer, whose parent is the stored question. *)
Lemma Post_save_normalises_witness :
  is_Some (DB.posts (db world0) !! Post.id answer0)
  ∧ parent_ok answer0 world0
  ∧ returns (Post_save answer0) world0 (fun self' w' => ∃ r,
      DB.posts (db w') !! 2%nat = Some r
      ∧ PostRow.parent r = Some 1%nat ∧ PostRow.slug r = "A"%string
      ∧ DB.posts (db w') !! 1%nat = DB.posts (db world0) !! 1%nat).
Proof.
  assert (Hs : is_Some (DB.posts (db world0) !! Post.id answer0)) by stored.
  assert (Hp : parent_ok answer0 world0) by stored.
  split_and!; [exact Hs|exact Hp|].
  eapply returns_mono; [exact (Post_save_normalises answer0 world0 Hs Hp)|].
  intros self' w' (r & Hr & _ & _ & _ & _ & _ & _ & _ & Hslug & Htitle & _ & _ & _
                   & _ & _ & _ & _ & _ & _ & _ & Hpar & Hoth).
  exists r. split_and!; [exact Hr|exact Hpar| |by apply Hoth].
  rewrite Hslug, Htitle; done.
Defined.

(** The question saved twice. *)
Lemma Post_save_again_no_revision_witness :
  is_Some (DB.posts (db world0) !! Post.id question0)
  ∧ parent_ok question0 world0
  ∧ DB.revisions (db world0) = []
  ∧ returns (Post_save question0) world0 (fun self1 w1 =>
      returns (Post_save self1) w1 (fun self2 w2 =>
        DB.revisions (db w2) = DB.revisions (db w1)
        ∧ Post.combine self2 = Post.combine self1)).
Proof.
  split_and!; [stored|done|done|].
  apply (Post_save_again_no_revision question0 world0); [stored|done|].
  by intros b ?%elem_of_nil.
Defined.

(** [Post.apply] on the answer: the question has one answer more. *)
Lemma Post_apply_counts_witness :
  parent_is answer0 stored_question0 (db world0)
  ∧ is_Some (DB.posts (db world0) !! Post.id stored_question0)
  ∧ parent_ok stored_question0 world0
  ∧ returns (Post_apply answer0 1) world0 (fun self' w' =>
      PostRow.answer_count <$> DB.posts (db w') !! 1%nat = Some 2
      ∧ PostRow.comment_count <$> DB.posts (db w') !! 1%nat = Some 0).
Proof.
  assert (Hq : parent_is answer0 stored_question0 (db world0)).
  { right. exists 1%nat, (Post.row question0). split_and!; reflexivity. }
  assert (Hs : is_Some (DB.posts (db world0) !! Post.id stored_question0)) by stored.
  assert (Hp : parent_ok stored_question0 world0) by done.
  split_and!; [exact Hq|exact Hs|exact Hp|].
  eapply returns_mono; [exact (Post_apply_counts answer0 _ 1 world0 Hq Hs Hp)|].
  intros self' w' (q' & _ & _ & _ & Hrow & _). simpl.
  apply Hrow. by left.
Defined.

(** [Post.apply] on the comment, there and back. *)
Lemma Post_apply_round_trip_witness :
  parent_is comment0 stored_answer0 (db world0)
  ∧ is_Some (DB.posts (db world0) !! Post.id stored_answer0)
  ∧ parent_ok stored_answer0 world0
  ∧ returns (Post_apply comment0 1) world0 (fun self1 w1 =>
      returns (Post_apply self1 (-1)) w1 (fun self2 w2 =>
        PostRow.comment_count <$> DB.posts (db w2) !! 2%nat = Some 0)).
Proof.
  assert (Hq : parent_is comment0 stored_answer0 (db world0)).
  { right. exists 2%nat, (Post.row answer0). split_and!; reflexivity. }
  assert (Hs : is_Some (DB.posts (db world0) !! Post.id stored_answer0)) by stored.
  assert (Hp : parent_ok stored_answer0 world0) by stored.
  split_and!; [exact Hq|exact Hs|exact Hp|].
  eapply returns_mono; [exact (Post_apply_round_trip comment0 _ world0 Hq Hs Hp)|].
  intros self1 w1 Hback. simpl in *.
  eapply returns_mono; [exact Hback|].
  intros self2 w2 (q2 & _ & _ & _ & Hrow). simpl.
  apply Hrow. by right.
Defined.

(** The award of the bronze badge applied to user 11. *)
Lemma Award_apply_ledger_witness :
  DB.profiles (db world0) !! Award.user award0 = Some profile0
  ∧ returns (Award_apply award0 1) world0 (fun self' w' =>
      UserProfile.bronze_badges <$> DB.profiles (db w') !! 11%nat = Some 1
      ∧ Badge.count (Award.badge self') = 2).
Proof.
  split; [reflexivity|].
  eapply returns_mono;
    [exact (Award_apply_ledger award0 1 world0 profile0 eq_refl)|].
  intros self' w' (_ & _ & Hc & Hp & _). simpl in *.
  split; [exact (f_equal (fmap UserProfile.bronze_badges) Hp)|exact Hc].
Defined.


(** User 10 earns the badge user 11 has. *)
Lemma apply_award_stores_then_raises_witness :
  filter (fun b => Badge.name b = "Teacher"%string) (DB.badges (db world0)) = [teacher]
  ∧ filter (fun u => UserRow.username u = "community"%string) (DB.users (db world0))
    = [UserRow.mk 1%nat "community"]
  ∧ DB.profiles (db world0) !! 10%nat = Some profile0
  ∧ ∃ w', apply_award 10%nat "Teacher" world0 = Raise AttributeError w'
      ∧ length (DB.awards (db w')) = 2%nat
      ∧ DB.notes (db w') = [].
Proof.
  split_and!; [reflexivity|reflexivity|reflexivity|].
  destruct (apply_award_stores_then_raises 10%nat "Teacher" teacher
              (UserRow.mk 1%nat "community") profile0 world0)
    as (w' & E & Ha & _ & _ & Hn); [reflexivity| |reflexivity|reflexivity|].
  { intros _ a ->%list_elem_of_singleton _. simpl. lia. }
  exists w'. split_and!; [exact E| |exact Hn].
  rewrite Ha. reflexivity.
Defined.

(** The first of the two tags is added to a post. *)
Lemma tags_changed_counts_witness :
  NoDup [1%nat] ∧ NoDup [1%nat; 2%nat]
  ∧ returns (tags_changed [1%nat; 2%nat] "post_add" [1%nat]) tagged0 (fun _ w' =>
      TagRow.count <$> DB.tags (db w') !! 1%nat = Some 4
      ∧ TagRow.count <$> DB.tags (db w') !! 2%nat = Some 1).
Proof.
  assert (H1 : NoDup [1%nat]) by (apply NoDup_singleton).
  assert (H2 : NoDup [1%nat; 2%nat]).
  { apply NoDup_cons. split; [|apply NoDup_singleton].
    intros ?%list_elem_of_singleton. lia. }
  split_and!; [exact H1|exact H2|].
  eapply returns_mono;
    [apply (tags_changed_counts [1%nat; 2%nat] "post_add" [1%nat] tagged0 H1 H2)|].
  { intros _ k ->%list_elem_of_singleton. stored. }
  intros [] w' (m & -> & Hm). simpl. rewrite !Hm. split; reflexivity.
Defined.

Lemma tags_changed_round_trip_witness :
  NoDup [1%nat; 2%nat]
  ∧ returns (tags_changed [] "post_add" [1%nat; 2%nat]) tagged0 (fun _ w1 =>
      returns (tags_changed [] "post_delete" [1%nat; 2%nat]) w1 (fun _ w2 =>
        w2 = tagged0)).
Proof.
  assert (H2 : NoDup [1%nat; 2%nat]).
  { apply NoDup_cons. split; [|apply NoDup_singleton].
    intros ?%list_elem_of_singleton. lia. }
  split; [exact H2|].
  apply (tags_changed_round_trip [] [1%nat; 2%nat] tagged0 H2).
  intros k [->|[->|?%elem_of_nil]%elem_of_cons]%elem_of_cons; [stored|stored|done].
Defined.

(** A signal that names a tag that does not exist after one that does. *)
Lemma tags_changed_missing_key_witness :
  DB.tags (db tagged0) !! 7%nat = None
  ∧ ∃ w', tags_changed [] "post_add" ([1%nat] ++ 7%nat :: [2%nat]) tagged0
          = Raise DoesNotExist w'
      ∧ TagRow.count <$> DB.tags (db w') !! 1%nat = Some 4
      ∧ TagRow.count <$> DB.tags (db w') !! 2%nat = Some 1.
Proof.
  split; [reflexivity|].
  destruct (tags_changed_missing_key [] "post_add" [1%nat] [2%nat] 7%nat tagged0)
    as (w' & E & Hm); [by left|apply NoDup_singleton| |reflexivity|].
  { intros j ->%list_elem_of_singleton. stored. }
  exists w'. split_and!; [exact E| |]; rewrite Hm; reflexivity.
Defined.

(** User 10 upvotes the answer and takes the vote back. *)
Lemma add_then_remove_vote_witness :
  DB.posts (db world0) !! Post.id answer0 = Some (Post.row answer0)
  ∧ DB.votes (db world0) = []
  ∧ returns (add_vote answer0 (AuthUser 10%nat) VOTE_UP) world0 (fun v w1 =>
      returns (remove_vote answer0 (AuthUser 10%nat) VOTE_UP) w1 (fun b w2 =>
        b = true ∧ DB.votes (db w2) = []
        ∧ reputation_of w2 11%nat = Some 0
        ∧ stored_score w2 2%nat = Some 0)).
Proof.
  split_and!; [reflexivity|reflexivity|].
  eapply returns_mono.
  { apply (add_then_remove_vote answer0 10%nat VOTE_UP world0).
    - reflexivity.
    - intros k [= <-]. stored.
    - stored.
    - stored.
    - intros [=].
    - by intros (r & ?%elem_of_nil & _). }
  intros v w1 [_ Hback]. simpl in *.
  eapply returns_mono; [exact Hback|].
  intros b w2 (-> & Hv & Hrep & Hsc & _). simpl.
  split_and!; [done|exact Hv|by rewrite Hrep|exact Hsc].
Defined.

(** User 10 upvotes the answer twice. *)
Lemma double_vote_cannot_be_removed_witness :
  ∃ v1 w1 v2 w2,
    add_vote answer0 (AuthUser 10%nat) VOTE_UP world0 = Ok v1 w1
    ∧ add_vote answer0 (AuthUser 10%nat) VOTE_UP w1 = Ok v2 w2
    ∧ remove_vote answer0 (AuthUser 10%nat) VOTE_UP w2
      = Raise MultipleObjectsReturned w2
    ∧ length (DB.votes (db w2)) = 2%nat.
Proof.
  eexists _, _, _, _.
  split; [vm_compute; reflexivity|].
  split; [vm_compute; reflexivity|].
  destruct (double_vote_cannot_be_removed answer0 10%nat VOTE_UP world0 _ _ _ _
              ltac:(vm_compute; reflexivity) ltac:(vm_compute; reflexivity))
    as [E (k1 & k2 & _ & Ev)].
  split; [exact E|]. rewrite Ev. reflexivity.
Defined.

Lemma remove_vote_nothing_held_witness :
  DB.votes (db world0) = []
  ∧ remove_vote answer0 (AuthUser 10%nat) VOTE_UP world0 = Ok false world0.
Proof.
  split; [reflexivity|].
  apply (remove_vote_nothing_held answer0 (AuthUser 10%nat) VOTE_UP world0).
  by intros u _ (r & ?%elem_of_nil & _).
Defined.

(** A moderator asks to write a regular user. *)
Lemma user_write_auth_table_witness :
  Account.writeable member0 = None
  ∧ Account.is_moderator moderator0 = true
  ∧ user_write_auth member0 moderator0 true = inl NoAttribute
  ∧ user_write_auth member0 member0 false = inl NoAttribute.
Proof.
  split_and!; [reflexivity|reflexivity| |].
  - destruct (user_write_auth_table member0 moderator0 true eq_refl)
      as (_ & _ & Hno).
    apply Hno; [by intros [_ [=]]|by intros (_ & _ & _ & [=] & _)].
  - destruct (user_write_auth_table member0 member0 false eq_refl)
      as (_ & _ & Hno).
    apply Hno; [by intros [_ [=]]|by intros (_ & _ & _ & _ & ?)].
Defined.

(** User 12 posts an answer to the question. *)
Lemma Post_save_new_child_witness :
  DB.posts (db world0) !! Post.id new_answer0 = None
  ∧ parent_is new_answer0 stored_question0 (db world0)
  ∧ DB.revisions (db world0) = []
  ∧ returns (Post_save new_answer0) world0 (fun self' w' =>
      PostRow.parent <$> DB.posts (db w') !! 8%nat = Some (Some 1%nat)
      ∧ PostRow.answer_count <$> DB.posts (db w') !! 1%nat = Some 2
      ∧ ∃ l rev, DB.revisions (db w') = l ++ [rev]
          ∧ PostRevision.post rev = 8%nat).
Proof.
  assert (Hq : parent_is new_answer0 stored_question0 (db world0)).
  { right. exists 1%nat, (Post.row question0). split_and!; reflexivity. }
  split_and!; [reflexivity|exact Hq|reflexivity|].
  eapply returns_mono.
  { apply (Post_save_new_child new_answer0 stored_question0 1%nat world0).
    - reflexivity.
    - by left.
    - exact Hq.
    - stored.
    - done.
    - reflexivity.
    - simpl. lia.
    - simpl. intros [=].
    - intros k r Hk Hr. simpl in Hr.
      change (DB.posts (db world0))
        with (<[1%nat := Post.row question0]>
                (<[2%nat := Post.row answer0]>
                   (<[3%nat := Post.row comment0]> (∅ : gmap pk PostRow.t)))) in Hk.
      apply lookup_insert_Some in Hk as [[<- <-]|[_ Hk]]; [by inversion Hr|].
      apply lookup_insert_Some in Hk as [[<- <-]|[_ Hk]]; [by inversion Hr|].
      apply lookup_insert_Some in Hk as [[<- <-]|[_ Hk]]; [by inversion Hr|].
      by rewrite lookup_empty in Hk. }
  intros self' w' (q' & _ & _ & Hrow & Hpar & Hac & _ & Hq' & _ & Hrev). simpl in *.
  split_and!.
  - etransitivity; [exact (f_equal (fmap PostRow.parent) Hrow)|].
    simpl. by rewrite Hpar.
  - etransitivity; [exact (f_equal (fmap PostRow.answer_count) Hq')|].
    simpl. by rewrite Hac.
  - destruct (Hrev eq_refl) as (l & rev & E & Hp & _);
      [by intros b ?%elem_of_nil|].
    by exists l, rev.
Defined.

(** The question and the closed question have one snapshot. *)
Lemma combine_injective_witness :
  Post.combine question0 = Post.combine closed_question0
  ∧ Post.title question0 = Post.title closed_question0
  ∧ Post.content question0 = Post.content closed_question0
  ∧ Post.tag_val question0 = Post.tag_val closed_question0.
Proof.
  split; [reflexivity|].
  apply (combine_injective question0 closed_question0); reflexivity.
Defined.

(** User 1 closes the question of user 10. *)
Lemma moderator_action_note_count_witness :
  is_Some (DB.posts (db world0) !! Post.id question0)
  ∧ parent_ok question0 world0
  ∧ note_count 10%nat (db world0) = (0%nat, 0%nat)
  ∧ returns (moderator_action question0 1%nat REV_CLOSE) world0 (fun _ w' =>
      note_count 10%nat (db w') = (1%nat, 1%nat)
      ∧ note_count 11%nat (db w') = (0%nat, 0%nat)).
Proof.
  assert (Hs : is_Some (DB.posts (db world0) !! Post.id question0)) by stored.
  assert (Hp : parent_ok question0 world0) by done.
  split_and!; [exact Hs|exact Hp|reflexivity|].
  eapply returns_mono.
  { apply (moderator_action_note_count question0 1%nat REV_CLOSE world0 Hs Hp).
    by intros ?. }
  intros post' w' Hn. simpl. rewrite !Hn. split; reflexivity.
Defined.

(** The upvote of user 10 turned into a downvote and saved. *)
Lemma Vote_save_again_applies_nothing_witness :
  1%nat ∈ VoteRow.id <$> DB.votes (db upvoted0)
  ∧ ∃ w', Vote_save (Vote.mk (Some 1%nat) 10%nat (ById 2%nat) VOTE_DOWN) upvoted0
          = Ok (Vote.mk (Some 1%nat) 10%nat (ById 2%nat) VOTE_DOWN) w'
      ∧ DB.votes (db w') = [VoteRow.mk 1%nat 10%nat 2%nat VOTE_DOWN]
      ∧ reputation_of w' 11%nat = Some 10
      ∧ stored_score w' 2%nat = Some 1.
Proof.
  assert (Hin : 1%nat ∈ VoteRow.id <$> DB.votes (db upvoted0)).
  { unfold upvoted0. rewrite add_vote_votes. left. }
  split; [exact Hin|].
  destruct (Vote_save_again_applies_nothing
              (Vote.mk (Some 1%nat) 10%nat (ById 2%nat) VOTE_DOWN) 1%nat 2%nat
              upvoted0 eq_refl eq_refl Hin)
    as (w' & E & Hv & Hposts & _ & Hrep & _).
  exists w'. split_and!; [exact E| | |].
  - etransitivity; [exact Hv|]. unfold upvoted0. rewrite add_vote_votes. reflexivity.
  - etransitivity; [apply Hrep|]. by vm_compute.
  - unfold stored_score. etransitivity;
      [exact (f_equal (fun m => PostRow.score <$> m !! 2%nat) Hposts)|].
    by vm_compute.
Defined.

End MoreRuns.
